(** * Swept AABB-3D: a shallow embedding of [Main.cpp]

    The program detects, times and resolves the collision of a moving
    axis-aligned bounding box with a stationary one inside a fixed-timestep
    loop.  This file embeds [TestAABB], [SweptAABB], [update] and [checkTime]
    and states the properties of the specification over them.

    Numbers.  The values of a C++ [float] or [double] are modelled by [F]: a
    rational number, one of the two infinities, or a NaN.  Every arithmetic
    operation computes the exact result and rounds it to the format of its
    type, IEEE-754 binary32 for [float] and binary64 for [double], to the
    nearest representable number with ties to even, overflowing to an
    infinity and passing through the subnormal range.  Comparisons follow
    IEEE-754 (every comparison with a NaN is false).  Two things are
    identified that no comparison or operation of the program tells apart:
    the two zeros, and the NaNs. *)

From Stdlib Require Import QArith Qround Qabs Qpower Qreduction Lqa ZArith Lia List Bool.
Import ListNotations.

(* ================================================================== *)
(** ** Floating-point values *)

Inductive F : Type :=
| NegInf
| Fin (q : Q)
| PosInf
| NaN.

Coercion Fin : Q >-> F.

Declare Scope F_scope.
Delimit Scope F_scope with F.
Bind Scope F_scope with F.

(** [x < y] on rationals, as a boolean. *)
Definition Qlt_bool (x y : Q) : bool := negb (Qle_bool y x).

Definition fopp (a : F) : F :=
  match a with
  | NegInf => PosInf
  | Fin q => Fin (- q)
  | PosInf => NegInf
  | NaN => NaN
  end.

(* ================================================================== *)
(** ** Rounding

    A format has [precision] binary digits; its numbers are the multiples
    [m * 2 ^ e] with [|m| < 2 ^ precision] and [e >= emin], below
    [2 ^ emax] in magnitude. *)

Record Format : Type := mk_Format { precision : Z; emin : Z; emax : Z }.

Definition binary32 : Format := mk_Format 24 (-149) 128.
Definition binary64 : Format := mk_Format 53 (-1074) 1024.

(** The integer [l] with [2 ^ l <= a < 2 ^ (l + 1)], for [a > 0]. *)
Definition ilog2 (a : Q) : Z :=
  let k := (Z.log2 (Qnum a) - Z.log2 (Zpos (Qden a)))%Z in
  if Qle_bool (2 ^ k) a then k else (k - 1)%Z.

(** The integer nearest to [q], the even one of the two when [q] is half
    way between them. *)
Definition rne (q : Q) : Z :=
  let f := Qfloor q in
  match (q - inject_Z f ?= 1 # 2)%Q with
  | Lt => f
  | Gt => (f + 1)%Z
  | Eq => if Z.even f then f else (f + 1)%Z
  end.

(** The exponent of the unit in the last place of the format at [a > 0]. *)
Definition ulpExponent (fmt : Format) (a : Q) : Z :=
  Z.max (emin fmt) (ilog2 a - precision fmt + 1).

(** [a > 0] rounded to the nearest multiple of its unit in the last place. *)
Definition nearest (fmt : Format) (a : Q) : Q :=
  inject_Z (rne (a / 2 ^ ulpExponent fmt a)) * 2 ^ ulpExponent fmt a.

Definition roundPositive (fmt : Format) (a : Q) : F :=
  if Qle_bool (2 ^ emax fmt) (nearest fmt a) then PosInf
  else Fin (Qred (nearest fmt a)).

(** Rounding to nearest, ties to even. *)
Definition roundTo (fmt : Format) (q : Q) : F :=
  let q := Qred q in
  match Qnum q with
  | Z0 => Fin 0
  | Zpos _ => roundPositive fmt q
  | Zneg _ => fopp (roundPositive fmt (- q))
  end.

(** The value [a] belongs to the format. *)
Definition representable (fmt : Format) (a : F) : Prop :=
  match a with
  | Fin q => roundTo fmt q = Fin q
  | _ => True
  end.

(* ================================================================== *)
(** ** Arithmetic and comparisons *)

(** Sign of a rational as a comparison with zero. *)
Definition Qsign (q : Q) : comparison := (q ?= 0)%Q.

Section Arithmetic.

(** The format of the operands and of the result. *)
Variable fmt : Format.

Definition add (a b : F) : F :=
  match a, b with
  | NaN, _ | _, NaN => NaN
  | PosInf, NegInf | NegInf, PosInf => NaN
  | PosInf, _ | _, PosInf => PosInf
  | NegInf, _ | _, NegInf => NegInf
  | Fin p, Fin q => roundTo fmt (p + q)
  end.

Definition sub (a b : F) : F := add a (fopp b).

Definition mul (a b : F) : F :=
  match a, b with
  | NaN, _ | _, NaN => NaN
  | Fin p, Fin q => roundTo fmt (p * q)
  | PosInf, PosInf | NegInf, NegInf => PosInf
  | PosInf, NegInf | NegInf, PosInf => NegInf
  | PosInf, Fin q | Fin q, PosInf =>
      match Qsign q with Gt => PosInf | Lt => NegInf | Eq => NaN end
  | NegInf, Fin q | Fin q, NegInf =>
      match Qsign q with Gt => NegInf | Lt => PosInf | Eq => NaN end
  end.

(** Division.  A finite, nonzero numerator over zero gives an infinity (of the
    numerator's sign: the model has one zero only), zero over zero a NaN. *)
Definition div (a b : F) : F :=
  match a, b with
  | NaN, _ | _, NaN => NaN
  | Fin p, Fin q =>
      if Qeq_bool q 0
      then match Qsign p with Gt => PosInf | Lt => NegInf | Eq => NaN end
      else roundTo fmt (p / q)
  | Fin _, PosInf | Fin _, NegInf => Fin 0
  | PosInf, Fin q =>
      match Qsign q with Lt => NegInf | _ => PosInf end
  | NegInf, Fin q =>
      match Qsign q with Lt => PosInf | _ => NegInf end
  | _, _ => NaN
  end.

(** Conversion of a value of another format, and of a decimal literal. *)
Definition convert (a : F) : F :=
  match a with
  | Fin q => roundTo fmt q
  | _ => a
  end.

End Arithmetic.

(** The operations of [float]. *)
Definition fadd : F -> F -> F := add binary32.
Definition fsub : F -> F -> F := sub binary32.
Definition fmul : F -> F -> F := mul binary32.
Definition fdiv : F -> F -> F := div binary32.

(** The operations of [double]. *)
Definition dadd : F -> F -> F := add binary64.
Definition dsub : F -> F -> F := sub binary64.
Definition ddiv : F -> F -> F := div binary64.

(** A [float] literal such as [0.9f], a [double] literal such as [0.012],
    and the conversion of a [double] to [float]. *)
Definition float (q : Q) : F := roundTo binary32 q.
Definition double (q : Q) : F := roundTo binary64 q.
Definition toFloat (a : F) : F := convert binary32 a.

(** [fabsf]. *)
Definition fabsf (a : F) : F :=
  match a with
  | NegInf | PosInf => PosInf
  | Fin q => Fin (Qabs q)
  | NaN => NaN
  end.

(** [a < b]. *)
Definition flt (a b : F) : bool :=
  match a, b with
  | NaN, _ | _, NaN => false
  | _, NegInf => false
  | NegInf, _ => true
  | PosInf, _ => false
  | Fin _, PosInf => true
  | Fin p, Fin q => Qlt_bool p q
  end.

(** [a == b]. *)
Definition feqb (a b : F) : bool :=
  match a, b with
  | NegInf, NegInf | PosInf, PosInf => true
  | Fin p, Fin q => Qeq_bool p q
  | _, _ => false
  end.

(** [a > b], [a <= b], [a >= b]. *)
Definition fgt (a b : F) : bool := flt b a.
Definition fle (a b : F) : bool := flt a b || feqb a b.
Definition fge (a b : F) : bool := fle b a.

(** [std::max(a, b)] is [(a < b) ? b : a]; [std::min(a, b)] is
    [(b < a) ? b : a]. *)
Definition fmax (a b : F) : F := if flt a b then b else a.
Definition fmin (a b : F) : F := if flt b a then b else a.

Infix "+" := fadd : F_scope.
Infix "-" := fsub : F_scope.
Infix "*" := fmul : F_scope.
Infix "/" := fdiv : F_scope.
Notation "- a" := (fopp a) : F_scope.
Infix "<?" := flt (at level 70, no associativity) : F_scope.
Infix ">?" := fgt (at level 70, no associativity) : F_scope.
Infix "<=?" := fle (at level 70, no associativity) : F_scope.
Infix ">=?" := fge (at level 70, no associativity) : F_scope.
Infix "==?" := feqb (at level 70, no associativity) : F_scope.

(** Equality of values (the rationals of [Q] are not normalised). *)
Definition feq (a b : F) : Prop :=
  match a, b with
  | NegInf, NegInf | PosInf, PosInf | NaN, NaN => True
  | Fin p, Fin q => p == q
  | _, _ => False
  end.

Definition finite (a : F) : Prop :=
  match a with Fin _ => True | _ => False end.

(** The float literals [0.0f], [1.0f], [2.0f] and [-1.0f] of the program,
    which are numbers of the format, and
    [std::numeric_limits<float>::infinity()]. *)
Definition f0 : F := Fin 0.
Definition f1 : F := Fin 1.
Definition f2 : F := Fin 2.
Definition fm1 : F := Fin (-1).
Definition infinity : F := PosInf.

(* ================================================================== *)
(** ** Vectors and boxes *)

(** [glm::vec3]. *)
Record vec3 : Type := mk_vec3 { x : F; y : F; z : F }.

(** The [AABB] struct: minimum and maximum corner. *)
Record AABB : Type := mk_AABB { min : vec3; max : vec3 }.

Definition vzero : vec3 := mk_vec3 f0 f0 f0.

(** [glm::vec3 * float] and [glm::vec3 + glm::vec3]. *)
Definition vscale (v : vec3) (s : F) : vec3 :=
  mk_vec3 (x v * s)%F (y v * s)%F (z v * s)%F.
Definition vadd (u v : vec3) : vec3 :=
  mk_vec3 (x u + x v)%F (y u + y v)%F (z u + z v)%F.
Definition dot (u v : vec3) : F :=
  (x u * x v + y u * y v + z u * z v)%F.

Definition veq (u v : vec3) : Prop :=
  feq (x u) (x v) /\ feq (y u) (y v) /\ feq (z u) (z v).

(* ================================================================== *)
(** ** [TestAABB] (Main.cpp, lines 66-74) *)

Definition TestAABB (a b : AABB) : bool :=
  if (x (max a) <? x (min b))%F || (x (min a) >? x (max b))%F then false
  else if (y (max a) <? y (min b))%F || (y (min a) >? y (max b))%F then false
  else if (z (max a) <? z (min b))%F || (z (min a) >? z (max b))%F then false
  else true.

(* ================================================================== *)
(** ** [SweptAABB] (Main.cpp, lines 77-266)

    The source repeats the same code for the three axes; [sweepAxis] is that
    code for one axis.  Besides the four locals of the axis it records, as
    ghost state, the divisors of the divisions it performed. *)

Record AxisSweep : Type := mk_AxisSweep {
  DistanceEntry : F;
  DistanceExit : F;
  EntryTime : F;
  ExitTime : F;
  divisors : list F
}.

(** Lines 87-96 (x), 98-107 (y), 109-118 (z). *)
Definition axisDistances (min1 max1 min2 max2 vel : F) : F * F :=
  if (vel >? f0)%F
  then ((min2 - max1)%F, (max2 - min1)%F)
  else ((max2 - min1)%F, (min2 - max1)%F).

(** Lines 125-147 (x), 149-166 (y), 168-185 (z). *)
Definition sweepAxis (min1 max1 min2 max2 vel : F) : AxisSweep :=
  let (DistanceEntry, DistanceExit) := axisDistances min1 max1 min2 max2 vel in
  if (vel ==? f0)%F then
    mk_AxisSweep DistanceEntry DistanceExit
      (if (fmax (fabsf DistanceEntry) (fabsf DistanceExit)
           >? (max1 - min1) + (max2 - min2))%F
       then f2
       else (- infinity)%F)
      infinity
      []
  else
    mk_AxisSweep DistanceEntry DistanceExit
      (DistanceEntry / vel)%F
      (DistanceExit / vel)%F
      [vel; vel].

Definition xAxis (box1 box2 : AABB) (vel1 : vec3) : AxisSweep :=
  sweepAxis (x (min box1)) (x (max box1)) (x (min box2)) (x (max box2)) (x vel1).
Definition yAxis (box1 box2 : AABB) (vel1 : vec3) : AxisSweep :=
  sweepAxis (y (min box1)) (y (max box1)) (y (min box2)) (y (max box2)) (y vel1).
Definition zAxis (box1 box2 : AABB) (vel1 : vec3) : AxisSweep :=
  sweepAxis (z (min box1)) (z (max box1)) (z (min box2)) (z (max box2)) (z vel1).

(** Line 188. *)
Definition entryTime (xEntryTime yEntryTime zEntryTime : F) : F :=
  fmax (fmax xEntryTime yEntryTime) zEntryTime.

(** Line 191. *)
Definition exitTime (xExitTime yExitTime zExitTime : F) : F :=
  fmin (fmin xExitTime yExitTime) zExitTime.

(** The condition of line 197 ([&&] binds tighter than [||]). *)
Definition noCollision (X Y Z : AxisSweep) : bool :=
  (entryTime (EntryTime X) (EntryTime Y) (EntryTime Z)
     >? exitTime (ExitTime X) (ExitTime Y) (ExitTime Z))%F
  || ((EntryTime X <? f0)%F && (EntryTime Y <? f0)%F && (EntryTime Z <? f0)%F)
  || (EntryTime X >? f1)%F
  || (EntryTime Y >? f1)%F
  || (EntryTime Z >? f1)%F.

(** The axis whose arm of the cascade of lines 217, 232 and 247 is taken;
    [None] when no condition of the cascade holds. *)
Inductive Axis : Type := AxisX | AxisY | AxisZ.

Definition cascade (xEntryTime yEntryTime zEntryTime : F) : option Axis :=
  if (xEntryTime >? yEntryTime)%F && (xEntryTime >? zEntryTime)%F then Some AxisX
  else if (yEntryTime >? xEntryTime)%F && (yEntryTime >? zEntryTime)%F then Some AxisY
  else if (zEntryTime >? xEntryTime)%F && (zEntryTime >? yEntryTime)%F then Some AxisZ
  else None.

(** What the function hands back: the returned float and the contents of the
    three reference parameters on return. *)
Record Swept : Type := mk_Swept {
  collisionTime : F;
  normalx : F;
  normaly : F;
  normalz : F
}.

Definition normalOf (r : Swept) : vec3 :=
  mk_vec3 (normalx r) (normaly r) (normalz r).

(** [normal] holds the contents of the reference parameters [normalx],
    [normaly], [normalz] on entry. *)
Definition SweptAABB (box1 box2 : AABB) (vel1 : vec3) (normal : vec3) : Swept :=
  let X := xAxis box1 box2 vel1 in
  let Y := yAxis box1 box2 vel1 in
  let Z := zAxis box1 box2 vel1 in
  if noCollision X Y Z then
    mk_Swept f2 f0 f0 f0
  else
    let t := entryTime (EntryTime X) (EntryTime Y) (EntryTime Z) in
    match cascade (EntryTime X) (EntryTime Y) (EntryTime Z) with
    | Some AxisX =>
        if (DistanceEntry X <? f0)%F
        then mk_Swept t f1 f0 f0
        else mk_Swept t fm1 f0 f0
    | Some AxisY =>
        if (DistanceEntry Y <? f0)%F
        then mk_Swept t f0 f1 f0
        else mk_Swept t f0 fm1 f0
    | Some AxisZ =>
        if (DistanceEntry Z <? f0)%F
        then mk_Swept t f0 f0 f1
        else mk_Swept t f0 f0 fm1
    | None => mk_Swept t (x normal) (y normal) (z normal)
    end.

(** Ghost: the divisors of all divisions of one call, in program order. *)
Definition SweptAABB_divisors (box1 box2 : AABB) (vel1 : vec3) : list F :=
  divisors (xAxis box1 box2 vel1) ++ divisors (yAxis box1 box2 vel1)
  ++ divisors (zAxis box1 box2 vel1).

(* ================================================================== *)
(** ** Game objects and program state

    [GameObject.h] and [GLRender.h] are not among the sources.  What
    [Main.cpp] uses of them is modelled here; the body's geometry enters
    through three parameters. *)

Section Simulation.

(** The orientation a body accumulates through [Rotate]. *)
Variable Orientation : Type.
(** The orientation after [Rotate(rotation)]. *)
Variable rotated : vec3 -> Orientation -> Orientation.
(** The box [CalculateAABB] computes for an orientation and a position. *)
Variable boundsOf : Orientation -> vec3 -> AABB.
(** [glm::radians]. *)
Variable radians : F -> F.
(** The indeterminate contents of the uninitialised locals [normalx],
    [normaly], [normalz] of the [k]-th invocation of [update]. *)
Variable indeterminate : nat -> vec3.

(** Modelled from the spec: the [GameObject] class, a body with a position,
    an orientation, a velocity and its bounding box. *)
Record GameObject : Type := mk_GameObject {
  position : vec3;
  velocity : vec3;
  orientation : Orientation;
  aabb : AABB
}.

(** The two bodies of the program. *)
Inductive Obj : Type := Obj1 | Obj2.

(** Calls that act on a body or on the window, and the calls of
    [SweptAABB] and [update]: the ghost call log of a run. *)
Inductive Call : Type :=
| Call_update (dt : F)
| Call_SetVelocity (o : Obj) (v : vec3)
| Call_Rotate (o : Obj) (rotation : vec3)
| Call_CalculateAABB (o : Obj)
| Call_SweptAABB (box1 box2 : AABB) (vel1 : vec3)
| Call_Update (o : Obj) (dt : F)
| Call_glfwSetWindowTitle (fps : Z).

(** The globals of [Main.cpp] (lines 50-56) and the two bodies, with the
    call log and the number of invocations of [update] as ghost state.
    [physicsStep] is never assigned and is a constant below.  The two [int]
    counters are modelled by unbounded integers. *)
Record State : Type := mk_State {
  obj1 : GameObject;
  obj2 : GameObject;
  frame : Z;
  time : F;
  timebase : F;
  accumulator : F;
  fps : Z;
  FPSTime : F;
  calls : list Call;
  updates : nat
}.

Definition physicsStep : F := double 0.012.

Definition get_obj (o : Obj) (s : State) : GameObject :=
  match o with Obj1 => obj1 s | Obj2 => obj2 s end.

Definition set_obj (o : Obj) (g : GameObject) (s : State) : State :=
  match o with
  | Obj1 => mk_State g (obj2 s) (frame s) (time s) (timebase s)
              (accumulator s) (fps s) (FPSTime s) (calls s) (updates s)
  | Obj2 => mk_State (obj1 s) g (frame s) (time s) (timebase s)
              (accumulator s) (fps s) (FPSTime s) (calls s) (updates s)
  end.

Definition log (c : Call) (s : State) : State :=
  mk_State (obj1 s) (obj2 s) (frame s) (time s) (timebase s)
    (accumulator s) (fps s) (FPSTime s) (calls s ++ [c]) (updates s).

Definition set_accumulator (a : F) (s : State) : State :=
  mk_State (obj1 s) (obj2 s) (frame s) (time s) (timebase s)
    a (fps s) (FPSTime s) (calls s) (updates s).

Definition set_time (t : F) (s : State) : State :=
  mk_State (obj1 s) (obj2 s) (frame s) t (timebase s)
    (accumulator s) (fps s) (FPSTime s) (calls s) (updates s).

Definition set_timebase (t : F) (s : State) : State :=
  mk_State (obj1 s) (obj2 s) (frame s) (time s) t
    (accumulator s) (fps s) (FPSTime s) (calls s) (updates s).

Definition set_frame (n : Z) (s : State) : State :=
  mk_State (obj1 s) (obj2 s) n (time s) (timebase s)
    (accumulator s) (fps s) (FPSTime s) (calls s) (updates s).

Definition set_fps (n : Z) (s : State) : State :=
  mk_State (obj1 s) (obj2 s) (frame s) (time s) (timebase s)
    (accumulator s) n (FPSTime s) (calls s) (updates s).

Definition set_FPSTime (t : F) (s : State) : State :=
  mk_State (obj1 s) (obj2 s) (frame s) (time s) (timebase s)
    (accumulator s) (fps s) t (calls s) (updates s).

Definition set_updates (n : nat) (s : State) : State :=
  mk_State (obj1 s) (obj2 s) (frame s) (time s) (timebase s)
    (accumulator s) (fps s) (FPSTime s) (calls s) n.

(** *** A state monad for the statements of [update] *)

Definition Sim (A : Type) : Type := State -> A * State.

Definition ret {A : Type} (a : A) : Sim A := fun s => (a, s).

Definition bind {A B : Type} (m : Sim A) (k : A -> Sim B) : Sim B :=
  fun s => k (fst (m s)) (snd (m s)).

Definition when (b : bool) (m : Sim unit) : Sim unit :=
  if b then m else ret tt.

Definition exec {A : Type} (m : Sim A) (s : State) : State := snd (m s).

Notation "v <- m ;; k" := (bind m (fun v => k))
  (at level 61, m at next level, right associativity).
Notation "m ;; k" := (bind m (fun _ => k))
  (at level 61, right associativity).

(** *** The methods of [GameObject] that [Main.cpp] calls *)

Definition GetPosition (o : Obj) : Sim vec3 :=
  fun s => (position (get_obj o s), s).

Definition GetVelocity (o : Obj) : Sim vec3 :=
  fun s => (velocity (get_obj o s), s).

Definition GetAABB (o : Obj) : Sim AABB :=
  fun s => (aabb (get_obj o s), s).

Definition SetVelocity (o : Obj) (v : vec3) : Sim unit :=
  fun s =>
    let g := get_obj o s in
    (tt, log (Call_SetVelocity o v)
           (set_obj o (mk_GameObject (position g) v (orientation g) (aabb g)) s)).

(** Modelled from the spec: [GameObject::Rotate] applies the rotation to the
    body's orientation and to nothing else. *)
Definition Rotate (o : Obj) (rotation : vec3) : Sim unit :=
  fun s =>
    let g := get_obj o s in
    (tt, log (Call_Rotate o rotation)
           (set_obj o (mk_GameObject (position g) (velocity g)
                         (rotated rotation (orientation g)) (aabb g)) s)).

(** Modelled from the spec: [GameObject::CalculateAABB] recomputes the box
    in full from the body's current orientation and position. *)
Definition CalculateAABB (o : Obj) : Sim unit :=
  fun s =>
    let g := get_obj o s in
    (tt, log (Call_CalculateAABB o)
           (set_obj o (mk_GameObject (position g) (velocity g) (orientation g)
                         (boundsOf (orientation g) (position g))) s)).

(** Modelled from the spec: [GameObject::Update] integrates the body by
    [dt], that is, adds [velocity * dt] to the position. *)
Definition Update (o : Obj) (dt : F) : Sim unit :=
  fun s =>
    let g := get_obj o s in
    (tt, log (Call_Update o dt)
           (set_obj o (mk_GameObject (vadd (position g) (vscale (velocity g) dt))
                         (velocity g) (orientation g) (aabb g)) s)).

(** The call of [SweptAABB] at line 309, entered in the log. *)
Definition call_SweptAABB (box1 box2 : AABB) (vel1 normal : vec3) : Sim Swept :=
  fun s => (SweptAABB box1 box2 vel1 normal,
            log (Call_SweptAABB box1 box2 vel1) s).

(** Entry of [update]: the call is logged and counted, and the three
    uninitialised locals of line 305 get their indeterminate contents. *)
Definition enter_update (dt : F) : Sim vec3 :=
  fun s => (indeterminate (updates s),
            set_updates (S (updates s)) (log (Call_update dt) s)).

(** The float literals of [update]. *)
Definition boundary : vec3 := mk_vec3 (float 0.9) (float 0.8) (float 1.0).
Definition epsilon : F := float 0.0001.
Definition rotation : vec3 := mk_vec3 (radians f1) (radians f1) (radians f0).

(** *** [update] (Main.cpp, lines 269-358)

    The two assignments to the matrices [MVP] and [MVP2] at the end belong to
    the renderer and are left out. *)

(** Lines 272-290. *)
Definition boundaryCheck : Sim unit :=
  tempPos <- GetPosition Obj2 ;;
  when (fabsf (x tempPos) >? x boundary)%F
    (tempVel <- GetVelocity Obj2 ;;
     SetVelocity Obj2 (mk_vec3 (fm1 * x tempVel)%F (y tempVel) (z tempVel))) ;;
  when (fabsf (y tempPos) >? y boundary)%F
    (tempVel <- GetVelocity Obj2 ;;
     SetVelocity Obj2 (mk_vec3 (x tempVel) (fm1 * y tempVel)%F (z tempVel))) ;;
  when (fabsf (z tempPos) >? z boundary)%F
    (tempVel <- GetVelocity Obj2 ;;
     SetVelocity Obj2 (mk_vec3 (x tempVel) (y tempVel) (fm1 * z tempVel)%F)).

(** Lines 320-335: the velocity bounced along the axes of the normal.  The
    [abs] of the source is taken at type [float]. *)
Definition bounced (velocity : vec3) (normalx normaly normalz : F) : vec3 :=
  let velocity :=
    if (fabsf normalx >? epsilon)%F
    then mk_vec3 (x velocity * fm1)%F (y velocity) (z velocity) else velocity in
  let velocity :=
    if (fabsf normaly >? epsilon)%F
    then mk_vec3 (x velocity) (y velocity * fm1)%F (z velocity) else velocity in
  let velocity :=
    if (fabsf normalz >? epsilon)%F
    then mk_vec3 (x velocity) (y velocity) (z velocity * fm1)%F else velocity in
  velocity.

(** Lines 313-353. *)
Definition respond (dt : F) (r : Swept) : Sim unit :=
  let collisionTime := collisionTime r in
  let remainingTime := (f1 - collisionTime)%F in
  if (remainingTime >=? f0)%F then
    velocity <- GetVelocity Obj2 ;;
    let velocity := bounced velocity (normalx r) (normaly r) (normalz r) in
    Update Obj1 (collisionTime * dt)%F ;;
    Update Obj2 (collisionTime * dt)%F ;;
    SetVelocity Obj2 velocity ;;
    Update Obj1 (remainingTime * dt)%F ;;
    Update Obj2 (remainingTime * dt)%F
  else
    Update Obj1 dt ;;
    Update Obj2 dt.

(** The whole function.  As at line 309, the first box handed to
    [SweptAABB] is the one of the moving body [obj2], the second the one of
    the stationary body [obj1]. *)
Definition update (dt : F) : Sim unit :=
  normal <- enter_update dt ;;
  boundaryCheck ;;
  Rotate Obj1 rotation ;;
  Rotate Obj2 rotation ;;
  CalculateAABB Obj1 ;;
  CalculateAABB Obj2 ;;
  box1 <- GetAABB Obj2 ;;
  box2 <- GetAABB Obj1 ;;
  vel <- GetVelocity Obj2 ;;
  r <- call_SweptAABB box1 box2 (vscale vel dt) normal ;;
  respond dt r.

(* ================================================================== *)
(** ** [checkTime] (Main.cpp, lines 361-408) *)

(** Conversion of an [int] to [double]. *)
Definition intToDouble (n : Z) : F := double (inject_Z n).

(** Conversion of a [double] to [int]: truncation towards zero.  The
    conversion of an infinity or a NaN is undefined in C++; the guard of
    line 374 keeps the quotient of line 376 finite, and the model gives 0
    there. *)
Definition Qtrunc (q : Q) : Z := Z.quot (Qnum q) (Zpos (Qden q)).
Definition doubleToInt (a : F) : Z :=
  match a with
  | Fin q => Qtrunc q
  | _ => 0%Z
  end.

(** The body of the [while] loop (lines 403-405); the [double]
    [physicsStep] is converted to the [float] parameter of [update]. *)
Definition loopBody (s : State) : State :=
  let s := exec (update (toFloat physicsStep)) s in
  set_accumulator (dsub (accumulator s) physicsStep) s.

(** The [while] loop of lines 401-406; [None] when [fuel] iterations do not
    reach its exit. *)
Fixpoint whileAccumulator (fuel : nat) (s : State) : option State :=
  match fuel with
  | O => None
  | S fuel' =>
      if (accumulator s >=? physicsStep)%F
      then whileAccumulator fuel' (loopBody s)
      else Some s
  end.

(** Lines 374-385. *)
Definition sampleFPS (s : State) : State :=
  if (dsub (time s) (FPSTime s) >? double 1.0)%F then
    let s := set_fps (doubleToInt (ddiv (intToDouble (frame s))
                                     (dsub (time s) (FPSTime s)))) s in
    let s := set_FPSTime (time s) s in
    let s := set_frame 0 s in
    log (Call_glfwSetWindowTitle (fps s)) s
  else s.

(** The state in which the [while] loop is entered (lines 374-397);
    [dt] is the local of line 367. *)
Definition beforeLoop (dt : F) (s : State) : State :=
  let s := sampleFPS s in
  let s := set_timebase (time s) s in
  let dt := if (dt >? double 0.25)%F then double 0.25 else dt in
  set_accumulator (dadd (accumulator s) dt) s.

(** [now] is the value [glfwGetTime()] returns. *)
Definition checkTime (fuel : nat) (now : F) (s : State) : option State :=
  let s := set_time now s in
  let dt := dsub (time s) (timebase s) in
  if (dt >? physicsStep)%F
  then whileAccumulator fuel (beforeLoop dt s)
  else Some s.

(** The state the initialisers of lines 50-56 give, for two bodies. *)
Definition initial (o1 o2 : GameObject) : State :=
  mk_State o1 o2 0 (Fin 0) (Fin 0) (Fin 0) 0 (Fin 0) [] 0.

(** One turn of the loop of [main] (lines 438-455): [checkTime], then the
    frame counter is incremented. *)
Definition mainLoopTurn (fuel : nat) (now : F) (s : State) : option State :=
  match checkTime fuel now s with
  | Some s' => Some (set_frame (frame s' + 1) s')
  | None => None
  end.

(** The states a run of [main] passes through at the top of its loop. *)
Inductive Reachable : State -> Prop :=
| Reachable_initial (o1 o2 : GameObject) :
    Reachable (initial o1 o2)
| Reachable_turn (fuel : nat) (now : F) (s s' : State) :
    Reachable s -> mainLoopTurn fuel now s = Some s' -> Reachable s'.

End Simulation.

Arguments mk_GameObject {Orientation}.
Arguments position {Orientation}.
Arguments velocity {Orientation}.
Arguments orientation {Orientation}.
Arguments aabb {Orientation}.
Arguments mk_State {Orientation}.
Arguments obj1 {Orientation}.
Arguments obj2 {Orientation}.
Arguments frame {Orientation}.
Arguments time {Orientation}.
Arguments timebase {Orientation}.
Arguments accumulator {Orientation}.
Arguments fps {Orientation}.
Arguments FPSTime {Orientation}.
Arguments calls {Orientation}.
Arguments updates {Orientation}.
Arguments get_obj {Orientation}.
Arguments set_obj {Orientation}.
Arguments log {Orientation}.
Arguments set_accumulator {Orientation}.
Arguments set_time {Orientation}.
Arguments set_timebase {Orientation}.
Arguments set_frame {Orientation}.
Arguments set_fps {Orientation}.
Arguments set_FPSTime {Orientation}.
Arguments set_updates {Orientation}.
Arguments ret {Orientation A}.
Arguments bind {Orientation A B}.
Arguments when {Orientation}.
Arguments exec {Orientation A}.
Arguments GetPosition {Orientation}.
Arguments GetVelocity {Orientation}.
Arguments GetAABB {Orientation}.
Arguments SetVelocity {Orientation}.
Arguments Rotate {Orientation}.
Arguments CalculateAABB {Orientation}.
Arguments Update {Orientation}.
Arguments call_SweptAABB {Orientation}.
Arguments enter_update {Orientation}.
Arguments boundaryCheck {Orientation}.
Arguments respond {Orientation}.
Arguments update {Orientation}.
Arguments loopBody {Orientation}.
Arguments whileAccumulator {Orientation}.
Arguments sampleFPS {Orientation}.
Arguments beforeLoop {Orientation}.
Arguments checkTime {Orientation}.
Arguments initial {Orientation}.
Arguments mainLoopTurn {Orientation}.
Arguments Reachable {Orientation}.
Arguments Reachable_initial {Orientation}.
Arguments Reachable_turn {Orientation}.
(* ================================================================== *)
(** ** Vocabulary of the statements *)

(** The component of a vector along an axis. *)
Definition component (a : Axis) (v : vec3) : F :=
  match a with AxisX => x v | AxisY => y v | AxisZ => z v end.

(** The vector with [s] along the axis [a] and zero elsewhere. *)
Definition axisVector (a : Axis) (s : F) : vec3 :=
  match a with
  | AxisX => mk_vec3 s f0 f0
  | AxisY => mk_vec3 f0 s f0
  | AxisZ => mk_vec3 f0 f0 s
  end.

(** The locals of [SweptAABB] for the axis [a]. *)
Definition axisSweep (a : Axis) (box1 box2 : AABB) (vel1 : vec3) : AxisSweep :=
  match a with
  | AxisX => xAxis box1 box2 vel1
  | AxisY => yAxis box1 box2 vel1
  | AxisZ => zAxis box1 box2 vel1
  end.

(** The entry time of axis [a] is strictly greater than the other two. *)
Definition strictlyLatest (a : Axis) (xEntryTime yEntryTime zEntryTime : F) : Prop :=
  match a with
  | AxisX => (xEntryTime >? yEntryTime)%F = true /\ (xEntryTime >? zEntryTime)%F = true
  | AxisY => (yEntryTime >? xEntryTime)%F = true /\ (yEntryTime >? zEntryTime)%F = true
  | AxisZ => (zEntryTime >? xEntryTime)%F = true /\ (zEntryTime >? yEntryTime)%F = true
  end.

(** Two different axes have equal entry times and no axis has a greater one:
    a tie for the latest entry time. *)
Definition tiedLatest (xEntryTime yEntryTime zEntryTime : F) : Prop :=
  let entry a := component a (mk_vec3 xEntryTime yEntryTime zEntryTime) in
  exists a b : Axis,
    a <> b /\ feq (entry a) (entry b)
    /\ forall c : Axis, (entry c >? entry a)%F = false.

(** The norm of a vector ([glm::length]), for a square root [sqrt]. *)
Definition norm (sqrt : F -> F) (v : vec3) : F := sqrt (dot v v).

(** The sign of a float: [-1], [0] or [1] ([0] for a NaN). *)
Definition fsgn (a : F) : Z :=
  match a with
  | NegInf => (-1)%Z
  | Fin q => Z.sgn (Qnum q)
  | PosInf => 1%Z
  | NaN => 0%Z
  end.

(** [a] is a finite number within [tol] of [q]. *)
Definition approx (a : F) (q tol : Q) : Prop :=
  match a with
  | Fin t => Qabs (t - q) <= tol
  | _ => False
  end.

Definition finite_vec3 (v : vec3) : Prop :=
  finite (x v) /\ finite (y v) /\ finite (z v).

(** [a] is a value a [float] variable can hold: a number of binary32, an
    infinity or a NaN. *)
Definition isFloat (a : F) : Prop := representable binary32 a.

Definition float_vec3 (v : vec3) : Prop :=
  isFloat (x v) /\ isFloat (y v) /\ isFloat (z v).

(** [a] is a finite number of binary32. *)
Definition finiteFloat (a : F) : Prop := finite a /\ isFloat a.

Definition finiteFloat_vec3 (v : vec3) : Prop :=
  finiteFloat (x v) /\ finiteFloat (y v) /\ finiteFloat (z v).

Definition finite_AABB (b : AABB) : Prop :=
  finite_vec3 (min b) /\ finite_vec3 (max b).

(** The displacement of length [d] along the axis [a]. *)
Definition along (a : Axis) (d : Q) : vec3 := axisVector a (float d).

(** A cube of half-extent [h] centred at [c]. *)
Definition cube (c : vec3) (h : Q) : AABB :=
  mk_AABB (mk_vec3 (x c - float h)%F (y c - float h)%F (z c - float h)%F)
          (mk_vec3 (x c + float h)%F (y c + float h)%F (z c + float h)%F).

(** The velocity of the moving body after the boundary check of one axis:
    reflected along the axis when the magnitude of the position along it
    exceeds the boundary extent. *)
Definition reflectAxis (a : Axis) (pos vel : vec3) : vec3 :=
  if (fabsf (component a pos) >? component a boundary)%F then
    match a with
    | AxisX => mk_vec3 (fm1 * x vel)%F (y vel) (z vel)
    | AxisY => mk_vec3 (x vel) (fm1 * y vel)%F (z vel)
    | AxisZ => mk_vec3 (x vel) (y vel) (fm1 * z vel)%F
    end
  else vel.

(** The velocity after the boundary check of the three axes, in the order
    x, y, z. *)
Definition reflected (pos vel : vec3) : vec3 :=
  reflectAxis AxisZ pos (reflectAxis AxisY pos (reflectAxis AxisX pos vel)).

(** The call the boundary check of one axis makes, if any: [vel] is the
    velocity before the check of that axis. *)
Definition reflectCall (a : Axis) (pos vel : vec3) : list Call :=
  if (fabsf (component a pos) >? component a boundary)%F
  then [Call_SetVelocity Obj2 (reflectAxis a pos vel)]
  else [].

Definition reflectCalls (pos vel : vec3) : list Call :=
  reflectCall AxisX pos vel
  ++ reflectCall AxisY pos (reflectAxis AxisX pos vel)
  ++ reflectCall AxisZ pos (reflectAxis AxisY pos (reflectAxis AxisX pos vel)).

(** A call of [SetVelocity] on the moving body. *)
Definition isSetVelocity (c : Call) : bool :=
  match c with Call_SetVelocity Obj2 _ => true | _ => false end.

Definition isRotate (c : Call) : bool :=
  match c with Call_Rotate _ _ => true | _ => false end.

Definition isCalculateAABB (c : Call) : bool :=
  match c with Call_CalculateAABB _ => true | _ => false end.

Definition isSweptAABB (c : Call) : bool :=
  match c with Call_SweptAABB _ _ _ => true | _ => false end.

(** The position in a log of the first call that satisfies [p]. *)
Fixpoint firstIndex (p : Call -> bool) (l : list Call) : option nat :=
  match l with
  | [] => None
  | c :: l' => if p c then Some O else option_map S (firstIndex p l')
  end.

(** The first call satisfying [p] comes before the first one satisfying
    [q] in the log. *)
Definition firstBefore (p q : Call -> bool) (l : list Call) : bool :=
  match firstIndex p l, firstIndex q l with
  | Some i, Some j => Nat.ltb i j
  | _, _ => false
  end.

(** The order of the steps of a tick as the specification lists them:
    rotation, then recomputation of the boxes, then the boundary reflection,
    then the sweep. *)
Definition listedOrder (l : list Call) : bool :=
  firstBefore isRotate isCalculateAABB l
  && firstBefore isCalculateAABB isSetVelocity l
  && firstBefore isSetVelocity isSweptAABB l.

(** The order of the steps of a tick in the source: boundary reflection,
    then rotation, then recomputation of the boxes, then the sweep. *)
Definition sourceOrder (l : list Call) : bool :=
  firstBefore isSetVelocity isRotate l
  && firstBefore isRotate isCalculateAABB l
  && firstBefore isCalculateAABB isSweptAABB l.

Section TickVocabulary.

Variable Orientation : Type.
Variable rotated : vec3 -> Orientation -> Orientation.
Variable boundsOf : Orientation -> vec3 -> AABB.
Variable radians : F -> F.
Variable indeterminate : nat -> vec3.

(** A body after the rotation of the tick and the recomputation of its
    box. *)
Definition recalculated (g : GameObject Orientation) : GameObject Orientation :=
  mk_GameObject (position g) (velocity g)
    (rotated (rotation radians) (orientation g))
    (boundsOf (rotated (rotation radians) (orientation g)) (position g)).

(** The velocity of the moving body when [SweptAABB] is called: the one the
    boundary check leaves. *)
Definition tickVelocity (s : State Orientation) : vec3 :=
  reflected (position (obj2 s)) (velocity (obj2 s)).

(** The result of the call of [SweptAABB] in the tick that starts in [s]. *)
Definition tickSweep (dt : F) (s : State Orientation) : Swept :=
  SweptAABB (aabb (recalculated (obj2 s))) (aabb (recalculated (obj1 s)))
    (vscale (tickVelocity s) dt) (indeterminate (updates s)).

(** The calls of a tick up to and including the call of [SweptAABB]. *)
Definition tickCalls (dt : F) (s : State Orientation) : list Call :=
  [Call_update dt]
  ++ reflectCalls (position (obj2 s)) (velocity (obj2 s))
  ++ [Call_Rotate Obj1 (rotation radians);
      Call_Rotate Obj2 (rotation radians);
      Call_CalculateAABB Obj1;
      Call_CalculateAABB Obj2;
      Call_SweptAABB (aabb (recalculated (obj2 s)))
        (aabb (recalculated (obj1 s))) (vscale (tickVelocity s) dt)].

(** The tick that starts in [s] works on finite numbers of [float]: the time
    step, the position of the stationary body, the two boxes and the
    displacement handed to [SweptAABB]. *)
Definition finiteTick (dt : F) (s : State Orientation) : Prop :=
  finiteFloat dt
  /\ finiteFloat_vec3 (position (obj1 s))
  /\ finite_AABB (aabb (recalculated (obj1 s)))
  /\ finite_AABB (aabb (recalculated (obj2 s)))
  /\ finite_vec3 (vscale (tickVelocity s) dt).

(** The boundary check of the tick that starts in [s] reflects nothing. *)
Definition insideBoundary (s : State Orientation) : Prop :=
  forall a : Axis,
    (fabsf (component a (position (obj2 s))) >? component a boundary)%F = false.

End TickVocabulary.

Arguments recalculated {Orientation}.
Arguments tickVelocity {Orientation}.
Arguments tickSweep {Orientation}.
Arguments tickCalls {Orientation}.
Arguments insideBoundary {Orientation}.
Arguments finiteTick {Orientation}.

(* ================================================================== *)
(** ** Concrete inputs *)

(** The unit cube and its neighbour on the +x side: the two touch. *)
Definition unitBox : AABB :=
  mk_AABB (mk_vec3 (Fin 0) (Fin 0) (Fin 0)) (mk_vec3 (Fin 1) (Fin 1) (Fin 1)).
Definition neighbourBox : AABB :=
  mk_AABB (mk_vec3 (Fin 1) (Fin 0) (Fin 0)) (mk_vec3 (Fin 2) (Fin 1) (Fin 1)).

(** The unit cube moved two units along +x: one unit away from [unitBox]. *)
Definition apartBox : AABB :=
  mk_AABB (mk_vec3 (Fin 2) (Fin 0) (Fin 0)) (mk_vec3 (Fin 3) (Fin 1) (Fin 1)).

(** A box diagonally off the unit cube in x and y, met corner first by the
    displacement [(2, 2, 0)]: the x and y entry times are both 1/2. *)
Definition cornerBox : AABB :=
  mk_AABB (mk_vec3 (Fin 2) (Fin 2) (Fin 0)) (mk_vec3 (Fin 3) (Fin 3) (Fin 1)).
Definition cornerDisplacement : vec3 := mk_vec3 (Fin 2) (Fin 2) (Fin 0).
Definition sevens : vec3 := mk_vec3 (Fin 7) (Fin 7) (Fin 7).

(** A box that overlaps the unit cube. *)
Definition overlappingBox : AABB :=
  mk_AABB (mk_vec3 (Fin 0.5) (Fin 0.5) (Fin 0.5)) (mk_vec3 (Fin 1.5) (Fin 1.5) (Fin 1.5)).

(** Two boxes that touch along x: a slab from -3 to -2.9 and a wall from
    -2.9 to 1.3 (the numbers of [float] nearest to these decimals). *)
Definition slabBox : AABB :=
  mk_AABB (mk_vec3 (float (-3)) (Fin 0) (Fin 0))
          (mk_vec3 (float (-2.9)) (Fin 1) (Fin 1)).
Definition wallBox : AABB :=
  mk_AABB (mk_vec3 (float (-2.9)) (Fin 0) (Fin 0))
          (mk_vec3 (float 1.3) (Fin 1) (Fin 1)).

(** The tunnelling scenario at the origin: two cubes of half-extent 0.1, the
    stationary one 2.0 away along an axis (on its positive side when
    [forward], on its negative side otherwise), the moving one displaced by
    5.0 towards it. *)
Definition tunnelMoving : AABB := cube vzero 0.1.
Definition tunnelStationary (a : Axis) (forward : bool) : AABB :=
  cube (along a (if forward then 2.0 else - 2.0)) 0.1.
Definition tunnelDisplacement (a : Axis) (forward : bool) : vec3 :=
  along a (if forward then 5.0 else - 5.0).

(** The same scenario away from the origin. *)
Definition tunnelCentre : vec3 := mk_vec3 (float 0.5) (float (-0.3)) (float 0.2).
Definition tunnelMovingAt : AABB := cube tunnelCentre 0.1.
Definition tunnelStationaryAt (a : Axis) (forward : bool) : AABB :=
  cube (vadd tunnelCentre (along a (if forward then 2.0 else - 2.0))) 0.1.

Definition Axis_eqb (a b : Axis) : bool :=
  match a, b with
  | AxisX, AxisX | AxisY, AxisY | AxisZ, AxisZ => true
  | _, _ => false
  end.

(** The tunnelling scenario for boxes anywhere, as far as numbers of [float]
    can meet it: [box1] and [box2] have finite corners and half-extent 0.1 on
    every axis; along the axis [a] the centre of [box2] is 2.0 away from the
    centre of [box1] (on the positive side when [forward]); on the other two
    axes the two boxes are aligned.  The decimals hold up to [tolerance]. *)
Definition tolerance : Q := 0.001.

Definition tunnelScenario (a : Axis) (forward : bool) (box1 box2 : AABB) : Prop :=
  forall b : Axis,
    exists lo1 hi1 lo2 hi2 : Q,
      component b (min box1) = Fin lo1 /\ component b (max box1) = Fin hi1
      /\ component b (min box2) = Fin lo2 /\ component b (max box2) = Fin hi2
      /\ Qabs (hi1 - lo1 - 0.2) <= tolerance
      /\ Qabs (hi2 - lo2 - 0.2) <= tolerance
      /\ if Axis_eqb a b
         then Qabs ((1 # 2) * (lo2 + hi2) - (1 # 2) * (lo1 + hi1)
                    - (if forward then 2.0 else - 2.0)) <= tolerance
         else lo2 = lo1 /\ hi2 = hi1.


(* ================================================================== *)
(** ** A concrete scene

    Cubes of half-extent 0.1 whose box does not depend on the orientation, an
    orientation that accumulates the rotation angles, and degrees converted
    with pi / 180 cut to seven decimals. *)

Definition demoRotated (rotation o : vec3) : vec3 := vadd o rotation.
Definition demoBoundsOf (o position : vec3) : AABB := cube position 0.1.
Definition demoRadians (degrees : F) : F := (degrees * float 0.0174533)%F.
Definition demoIndeterminate (k : nat) : vec3 := sevens.

Definition body (position velocity : vec3) : GameObject vec3 :=
  mk_GameObject position velocity vzero (cube position 0.1).

Definition demoUpdate (dt : F) : Sim vec3 unit :=
  update demoRotated demoBoundsOf demoRadians demoIndeterminate dt.

Definition demoCheckTime (fuel : nat) (now : F) (s : State vec3)
  : option (State vec3) :=
  checkTime demoRotated demoBoundsOf demoRadians demoIndeterminate fuel now s.

(** The stationary body at the origin; the moving body beyond the world
    boundary in x, flying further out, far from the other body. *)
Definition outsideState : State vec3 :=
  initial (body vzero vzero)
    (body (mk_vec3 (float 0.95) (Fin 0.5) (Fin 0.5))
          (mk_vec3 (Fin 1) (Fin 0) (Fin 0))).

(** The moving body 0.5 away from the stationary one along z, flying towards
    it at speed 50. *)
Definition approachState : State vec3 :=
  initial (body vzero vzero)
    (body (mk_vec3 (Fin 0) (Fin 0) (Fin 0.5))
          (mk_vec3 (Fin 0) (Fin 0) (Fin (-50)))).

(** As [approachState], with the moving body 0.45 away and the other body
    drifting at velocity (1, 0.3, 0.7). *)
Definition driftState : State vec3 :=
  initial
    (mk_GameObject vzero (mk_vec3 (Fin 1) (float 0.3) (float 0.7)) vzero
       (cube vzero 0.1))
    (body (mk_vec3 (Fin 0) (Fin 0) (float 0.45))
          (mk_vec3 (Fin 0) (Fin 0) (Fin (-50)))).

(** The time step [update] is called with. *)
Definition tickStep : F := toFloat physicsStep.

Definition demoRotation : vec3 := rotation demoRadians.

(** The calls of one tick of [physicsStep] from [outsideState]. *)
Definition outsideCalls : list Call :=
  [Call_update tickStep;
   Call_SetVelocity Obj2 (mk_vec3 (fm1 * Fin 1)%F (Fin 0) (Fin 0));
   Call_Rotate Obj1 demoRotation;
   Call_Rotate Obj2 demoRotation;
   Call_CalculateAABB Obj1;
   Call_CalculateAABB Obj2;
   Call_SweptAABB
     (cube (mk_vec3 (float 0.95) (Fin 0.5) (Fin 0.5)) 0.1)
     (cube vzero 0.1)
     (vscale (mk_vec3 (fm1 * Fin 1)%F (Fin 0) (Fin 0)) tickStep);
   Call_Update Obj1 tickStep;
   Call_Update Obj2 tickStep].

(* ================================================================== *)
(** ** Vocabulary of the further properties *)

(** The boxes are separated along the axis [a]: the test of one line of
    [TestAABB]. *)
Definition separated (a : Axis) (A B : AABB) : bool :=
  (component a (max A) <? component a (min B))%F
  || (component a (min A) >? component a (max B))%F.

(** The point [p] lies in the box [b], faces included. *)
Definition inside (p : vec3) (b : AABB) : Prop :=
  forall a : Axis,
    (component a (min b) <=? component a p)%F = true
    /\ (component a p <=? component a (max b))%F = true.

(** The minimum corner is not beyond the maximum corner. *)
Definition wellFormed (b : AABB) : Prop :=
  forall a : Axis, (component a (min b) <=? component a (max b))%F = true.

(** The vector [v] with its component along [a] multiplied by -1. *)
Definition flipAxis (a : Axis) (v : vec3) : vec3 :=
  match a with
  | AxisX => mk_vec3 (x v * fm1)%F (y v) (z v)
  | AxisY => mk_vec3 (x v) (y v * fm1)%F (z v)
  | AxisZ => mk_vec3 (x v) (y v) (z v * fm1)%F
  end.

(** A velocity with some of its components negated: what the boundary check
    and the bounce produce from numbers of [float]. *)
Definition flipped (v v' : vec3) : Prop :=
  (x v' = x v \/ x v' = (- x v)%F)
  /\ (y v' = y v \/ y v' = (- y v)%F)
  /\ (z v' = z v \/ z v' = (- z v)%F).

(** The number of [double] nearest to 0.012, the value of [physicsStep]. *)
Definition stepValue : Q := 3458764513820541 # 288230376151711744.

(** [a] is a finite number of magnitude at most [bound]. *)
Definition within (a : F) (bound : Q) : Prop :=
  match a with
  | Fin q => Qabs q <= bound
  | _ => False
  end.

(** [a] and [b] are finite numbers within [tol] of each other. *)
Definition near (a b : F) (tol : Q) : Prop :=
  match a, b with
  | Fin p, Fin q => Qabs (p - q) <= tol
  | _, _ => False
  end.
(* ================================================================== *)
(** ** Facts about the comparisons *)

Lemma Qlt_bool_true (p q : Q) : Qlt_bool p q = true <-> p < q.
Proof.
  unfold Qlt_bool. rewrite negb_true_iff, <- not_true_iff_false, Qle_bool_iff.
  split; [apply Qnot_le_lt | apply Qlt_not_le].
Qed.

Lemma Qlt_bool_false (p q : Q) : Qlt_bool p q = false <-> q <= p.
Proof.
  unfold Qlt_bool. now rewrite negb_false_iff, Qle_bool_iff.
Qed.

Lemma Qeq_bool_false (p q : Q) : Qeq_bool p q = false <-> ~ p == q.
Proof.
  rewrite <- not_true_iff_false, Qeq_bool_iff. tauto.
Qed.

(** Turn the boolean tests of the hypotheses and of the goal into
    propositions over [Q]. *)
Ltac q_props :=
  repeat match goal with
    | H : Qlt_bool _ _ = true |- _ => apply Qlt_bool_true in H
    | H : Qlt_bool _ _ = false |- _ => apply Qlt_bool_false in H
    | H : Qeq_bool _ _ = true |- _ => apply Qeq_bool_iff in H
    | H : Qeq_bool _ _ = false |- _ => apply Qeq_bool_false in H
    | |- Qlt_bool _ _ = true => apply Qlt_bool_true
    | |- Qlt_bool _ _ = false => apply Qlt_bool_false
    | |- Qeq_bool _ _ = true => apply Qeq_bool_iff
    | |- Qeq_bool _ _ = false => apply Qeq_bool_false
    end.

(** Case analysis on the class of every float of the context. *)
Ltac f_cases :=
  repeat match goal with a : F |- _ => destruct a end;
  cbn in *; try discriminate; try tauto; try reflexivity.

Lemma flt_irrefl (a : F) : (a <? a)%F = false.
Proof. f_cases; q_props; lra. Qed.

Lemma flt_asym (a b : F) : (a <? b)%F = true -> (b <? a)%F = false.
Proof. f_cases; intros; q_props; lra. Qed.

Lemma flt_trans (a b c : F) :
  (a <? b)%F = true -> (b <? c)%F = true -> (a <? c)%F = true.
Proof. f_cases; intros; q_props; lra. Qed.

Lemma flt_feqb_l (a b c : F) :
  feq a b -> (a <? c)%F = (b <? c)%F.
Proof.
  f_cases; intros E.
  destruct (Qlt_bool q1 q) eqn:H1, (Qlt_bool q0 q) eqn:H2; q_props;
    try reflexivity; lra.
Qed.

(** [a <= b] holds as soon as [a > b] fails and neither is a NaN. *)
Lemma fle_of_not_fgt (a b : F) :
  (a >? b)%F = false -> a <> NaN -> b <> NaN -> (a <=? b)%F = true.
Proof.
  unfold fgt, fle. f_cases; intros H; intros; try congruence.
  apply orb_true_iff.
  match goal with
  | |- Qlt_bool ?p ?q = true \/ _ => destruct (Qlt_bool p q) eqn:E; [now left | right]
  end.
  q_props. lra.
Qed.

Lemma flt_not_NaN_l (a b : F) : (a <? b)%F = true -> a <> NaN.
Proof. f_cases; congruence. Qed.

Lemma flt_not_NaN_r (a b : F) : (a <? b)%F = true -> b <> NaN.
Proof. f_cases; congruence. Qed.

Lemma fmax_cases (a b : F) : fmax a b = a \/ fmax a b = b.
Proof. unfold fmax. destruct (a <? b)%F; auto. Qed.

Lemma entryTime_cases (a b c : F) :
  entryTime a b c = a \/ entryTime a b c = b \/ entryTime a b c = c.
Proof.
  unfold entryTime.
  destruct (fmax_cases (fmax a b) c) as [-> | ->]; auto.
  destruct (fmax_cases a b) as [-> | ->]; auto.
Qed.

Lemma fmin_cases (a b : F) : fmin a b = a \/ fmin a b = b.
Proof. unfold fmin. destruct (b <? a)%F; auto. Qed.

Lemma exitTime_cases (a b c : F) :
  exitTime a b c = a \/ exitTime a b c = b \/ exitTime a b c = c.
Proof.
  unfold exitTime.
  destruct (fmin_cases (fmin a b) c) as [-> | ->]; auto.
  destruct (fmin_cases a b) as [-> | ->]; auto.
Qed.

(* ================================================================== *)
(** ** Facts about rounding *)

(** *** Powers of two *)
Lemma pow2_pos (z : Z) : 0 < 2 ^ z.
Proof. apply Qpower_0_lt. reflexivity. Qed.

Lemma pow2_succ (z : Z) : 2 ^ (z + 1) == 2 * 2 ^ z.
Proof. rewrite Qpower_plus by (intro H; discriminate H). change (2 ^ 1) with 2. ring. Qed.

Lemma pow2_pred (z : Z) : 2 ^ (z - 1) == 2 ^ z / 2.
Proof.
  rewrite <- (Z.sub_add 1 z) at 2. rewrite pow2_succ. field.
Qed.

Lemma pow2_le (a b : Z) : (a <= b)%Z -> 2 ^ a <= 2 ^ b.
Proof. intros H. apply Qpower_le_compat_l; [exact H | discriminate]. Qed.

Lemma pow2_lt (a b : Z) : (a < b)%Z -> 2 ^ a < 2 ^ b.
Proof. intros H. apply Qpower_lt_compat_l; [exact H | reflexivity]. Qed.

Lemma pow2_lt_inv (a b : Z) : 2 ^ a < 2 ^ b -> (a < b)%Z.
Proof.
  intros H. destruct (Z.lt_ge_cases a b) as [|Hge]; [assumption|].
  apply pow2_le in Hge. lra.
Qed.

Lemma pow2_inject (n : Z) : (0 <= n)%Z -> inject_Z (2 ^ n) == 2 ^ n.
Proof. intros H. apply (Zpower_Qpower 2 n H). Qed.

(** *** The binary logarithm *)
Lemma ilog2_bracket (q N D A B K : Q) :
  0 < D -> 0 < K -> q * D == N -> A <= N -> N < 2 * A ->
  B <= D -> D < 2 * B -> K * B == A ->
  q < 2 * K /\ K / 2 <= q.
Proof.
  intros Pd Pk Hq Hn1 Hn2 Hd1 Hd2 Hk.
  assert (H1 : K * B <= K * D) by (apply Qmult_le_l; assumption).
  assert (H2 : K * D <= 2 * (K * B)).
  { setoid_replace (2 * (K * B)) with (K * (2 * B)) by ring.
    apply Qmult_le_l; [assumption | lra]. }
  split.
  - apply (Qmult_lt_r _ _ D Pd).
    setoid_replace (2 * K * D) with (2 * (K * D)) by ring.
    set (x := K * B) in *. set (y := K * D) in *. set (w := q * D) in *.
    clearbody x y w. lra.
  - apply (Qmult_le_r _ _ D Pd).
    setoid_replace (K / 2 * D) with ((1 # 2) * (K * D)) by field.
    set (x := K * B) in *. set (y := K * D) in *. set (w := q * D) in *.
    clearbody x y w. lra.
Qed.

Lemma ilog2_spec (a : Q) : 0 < a -> 2 ^ ilog2 a <= a /\ a < 2 ^ (ilog2 a + 1).
Proof.
  intros Ha. unfold ilog2.
  destruct a as [n d]. cbn [Qnum Qden].
  assert (Hn : (0 < n)%Z) by (unfold Qlt in Ha; cbn in Ha; lia).
  pose proof (Z.log2_spec n Hn) as [Hn1 Hn2].
  pose proof (Z.log2_spec (Zpos d) (Pos2Z.is_pos d)) as [Hd1 Hd2].
  pose proof (Z.log2_nonneg n) as Hln.
  pose proof (Z.log2_nonneg (Zpos d)) as Hld.
  set (ln := Z.log2 n) in *. set (ld := Z.log2 (Zpos d)) in *.
  rewrite Zle_Qle in Hn1, Hd1. rewrite Zlt_Qlt in Hn2, Hd2.
  rewrite pow2_inject in Hn1, Hn2, Hd1, Hd2 by lia.
  rewrite <- !Z.add_1_r in Hn2, Hd2. rewrite pow2_succ in Hn2, Hd2.
  assert (Hk : 2 ^ (ln - ld) * 2 ^ ld == 2 ^ ln).
  { rewrite <- Qpower_plus by (intro H; discriminate H).
    now replace (ln - ld + ld)%Z with ln by lia. }
  assert (Hq : (n # d) * inject_Z (Zpos d) == inject_Z n).
  { rewrite (Qmake_Qdiv n d). field. intro H. discriminate H. }
  assert (Pd : 0 < inject_Z (Zpos d)) by reflexivity.
  destruct (ilog2_bracket _ _ _ _ _ _ Pd (pow2_pos (ln - ld)) Hq Hn1 Hn2 Hd1 Hd2 Hk)
    as [Hup Hlow].
  destruct (Qle_bool (2 ^ (ln - ld)) (n # d)) eqn:E.
  - apply Qle_bool_iff in E. split; [exact E|].
    rewrite pow2_succ. exact Hup.
  - split.
    + rewrite pow2_pred. exact Hlow.
    + replace (ln - ld - 1 + 1)%Z with (ln - ld)%Z by lia.
      apply Qnot_le_lt. intro H. apply Qle_bool_iff in H. congruence.
Qed.

Lemma ilog2_le (a : Q) (L : Z) : 0 < a -> a < 2 ^ (L + 1) -> (ilog2 a <= L)%Z.
Proof.
  intros Ha Hb. destruct (ilog2_spec a Ha) as [H1 _].
  assert (H : 2 ^ ilog2 a < 2 ^ (L + 1)) by lra.
  apply pow2_lt_inv in H. lia.
Qed.

Lemma ilog2_ge (a : Q) (L : Z) : 2 ^ L <= a -> (L <= ilog2 a)%Z.
Proof.
  intros Hb. pose proof (pow2_pos L) as HL.
  destruct (ilog2_spec a) as [_ H2]; [lra|].
  assert (H : 2 ^ L < 2 ^ (ilog2 a + 1)) by lra.
  apply pow2_lt_inv in H. lia.
Qed.

(** *** Rounding to the nearest integer *)
Lemma rne_cases (q : Q) :
  let f := Qfloor q in
  (rne q = f /\ q - inject_Z f <= 1 # 2)
  \/ (rne q = (f + 1)%Z /\ 1 # 2 <= q - inject_Z f).
Proof.
  cbv zeta. unfold rne.
  destruct (q - inject_Z (Qfloor q) ?= 1 # 2) eqn:E.
  - apply Qeq_alt in E. destruct (Z.even (Qfloor q)); [left | right]; split; auto; lra.
  - apply Qlt_alt in E. left. split; auto; lra.
  - apply Qgt_alt in E. right. split; auto; lra.
Qed.

Lemma rne_error (q : Q) : Qabs (inject_Z (rne q) - q) <= 1 # 2.
Proof.
  pose proof (Qfloor_le q) as H1. pose proof (Qlt_floor q) as H2.
  rewrite inject_Z_plus in H2.
  destruct (rne_cases q) as [[-> H] | [-> H]];
    rewrite ?inject_Z_plus; apply Qabs_case; intros; change (inject_Z 1) with 1 in *; lra.
Qed.

Lemma rne_inject (z : Z) : rne (inject_Z z) = z.
Proof.
  unfold rne. rewrite Qfloor_Z.
  assert (E : (inject_Z z - inject_Z z ?= 1 # 2) = Lt).
  { apply Qlt_alt. setoid_replace (inject_Z z - inject_Z z) with 0 by ring. reflexivity. }
  now rewrite E.
Qed.

Lemma rne_spec (q : Q) :
  let f := Qfloor q in
  (q - inject_Z f < 1 # 2 /\ rne q = f)
  \/ (1 # 2 < q - inject_Z f /\ rne q = (f + 1)%Z)
  \/ (q - inject_Z f == 1 # 2 /\ rne q = if Z.even f then f else (f + 1)%Z).
Proof.
  cbv zeta. unfold rne.
  destruct (q - inject_Z (Qfloor q) ?= 1 # 2) eqn:E.
  - apply Qeq_alt in E. right. right. split; [exact E | reflexivity].
  - apply Qlt_alt in E. left. split; [exact E | reflexivity].
  - apply Qgt_alt in E. right. left. split; [exact E | reflexivity].
Qed.

Lemma rne_mono (p q : Q) : p <= q -> (rne p <= rne q)%Z.
Proof.
  intros H. pose proof (Qfloor_resp_le _ _ H) as Hf.
  destruct (Z.eq_dec (Qfloor p) (Qfloor q)) as [E | NE].
  - pose proof (rne_spec p) as Sp. pose proof (rne_spec q) as Sq.
    cbv zeta in Sp, Sq. rewrite E in Sp.
    set (f := inject_Z (Qfloor q)) in *. clearbody f.
    destruct Sp as [[Hp ->] | [[Hp ->] | [Hp ->]]],
             Sq as [[Hq ->] | [[Hq ->] | [Hq ->]]];
      try destruct (Z.even (Qfloor q)); try lia; exfalso; lra.
  - assert (Hlt : (Qfloor p + 1 <= Qfloor q)%Z) by lia.
    destruct (rne_cases p) as [[-> _] | [-> _]], (rne_cases q) as [[-> _] | [-> _]]; lia.
Qed.

Lemma rne_nonneg (q : Q) : 0 <= q -> (0 <= rne q)%Z.
Proof.
  intros H. rewrite <- (rne_inject 0). apply rne_mono. exact H.
Qed.

Lemma rne_comp (p q : Q) : p == q -> rne p = rne q.
Proof.
  intros E. apply Z.le_antisymm; apply rne_mono; lra.
Qed.

(** *** Rounding to the nearest multiple of the unit in the last place *)
Section Rounding.

Variable fmt : Format.
Hypothesis precision_pos : (1 <= precision fmt)%Z.

Lemma nearest_nonneg (a : Q) : 0 < a -> 0 <= nearest fmt a.
Proof.
  intros Ha. unfold nearest.
  pose proof (pow2_pos (ulpExponent fmt a)) as He.
  apply Qmult_le_0_compat; [|lra].
  change 0 with (inject_Z 0). rewrite <- Zle_Qle.
  apply rne_nonneg. apply Qle_shift_div_l; [exact He | lra].
Qed.

Lemma nearest_error (a : Q) :
  Qabs (nearest fmt a - a) <= (1 # 2) * 2 ^ ulpExponent fmt a.
Proof.
  unfold nearest. set (e := ulpExponent fmt a).
  pose proof (pow2_pos e) as He.
  pose proof (rne_error (a / 2 ^ e)) as H.
  setoid_replace (inject_Z (rne (a / 2 ^ e)) * 2 ^ e - a)
    with ((inject_Z (rne (a / 2 ^ e)) - a / 2 ^ e) * 2 ^ e)
    by (field; lra).
  rewrite Qabs_Qmult, (Qabs_pos (2 ^ e)) by lra.
  apply Qmult_le_compat_r; [exact H | lra].
Qed.

Lemma ulpExponent_le (a : Q) (L : Z) :
  0 < a -> a < 2 ^ (L + 1) ->
  (ulpExponent fmt a <= Z.max (emin fmt) (L - precision fmt + 1))%Z.
Proof.
  intros Ha Hb. unfold ulpExponent. pose proof (ilog2_le a L Ha Hb). lia.
Qed.

(** Scaling by the unit in the last place. *)
Lemma scaled_lt (a : Q) (e j : Z) :
  a < 2 ^ (e + j) -> a / 2 ^ e < 2 ^ j.
Proof.
  intros H. pose proof (pow2_pos e) as He.
  apply Qlt_shift_div_r; [exact He|].
  rewrite <- Qpower_plus by (intro X; discriminate X).
  now rewrite Z.add_comm.
Qed.

Lemma scaled_ge (a : Q) (e j : Z) :
  2 ^ (e + j) <= a -> 2 ^ j <= a / 2 ^ e.
Proof.
  intros H. pose proof (pow2_pos e) as He.
  apply Qle_shift_div_l; [exact He|].
  rewrite <- Qpower_plus by (intro X; discriminate X).
  now rewrite Z.add_comm.
Qed.

Lemma nearest_upper (a : Q) (U : Z) :
  0 < a -> a <= 2 ^ U -> (ulpExponent fmt a <= U)%Z -> nearest fmt a <= 2 ^ U.
Proof.
  intros Ha Hb He. unfold nearest. set (e := ulpExponent fmt a) in *.
  pose proof (pow2_pos e) as Pe.
  assert (Hj : (0 <= U - e)%Z) by lia.
  assert (Hs : a / 2 ^ e <= inject_Z (2 ^ (U - e))).
  { rewrite pow2_inject by exact Hj.
    apply Qle_shift_div_r; [exact Pe|].
    rewrite <- Qpower_plus by (intro X; discriminate X).
    now replace (U - e + e)%Z with U by lia. }
  apply rne_mono in Hs. rewrite rne_inject in Hs.
  rewrite Zle_Qle, pow2_inject in Hs by exact Hj.
  setoid_replace (2 ^ U) with (2 ^ (U - e) * 2 ^ e).
  - apply Qmult_le_compat_r; [exact Hs | lra].
  - rewrite <- Qpower_plus by (intro X; discriminate X).
    now replace (U - e + e)%Z with U by lia.
Qed.

Lemma nearest_lower (a : Q) (L : Z) :
  2 ^ L <= a -> (ulpExponent fmt a <= L)%Z -> 2 ^ L <= nearest fmt a.
Proof.
  intros Hb He. unfold nearest. set (e := ulpExponent fmt a) in *.
  pose proof (pow2_pos e) as Pe.
  assert (Hj : (0 <= L - e)%Z) by lia.
  assert (Hs : inject_Z (2 ^ (L - e)) <= a / 2 ^ e).
  { rewrite pow2_inject by exact Hj.
    apply Qle_shift_div_l; [exact Pe|].
    rewrite <- Qpower_plus by (intro X; discriminate X).
    now replace (L - e + e)%Z with L by lia. }
  apply rne_mono in Hs. rewrite rne_inject in Hs.
  rewrite Zle_Qle, pow2_inject in Hs by exact Hj.
  setoid_replace (2 ^ L) with (2 ^ (L - e) * 2 ^ e).
  - apply Qmult_le_compat_r; [exact Hs | lra].
  - rewrite <- Qpower_plus by (intro X; discriminate X).
    now replace (L - e + e)%Z with L by lia.
Qed.

Lemma ilog2_mono (a b : Q) : 0 < a -> a <= b -> (ilog2 a <= ilog2 b)%Z.
Proof.
  intros Ha Hab.
  destruct (ilog2_spec a Ha) as [H1 _].
  destruct (ilog2_spec b) as [_ H2]; [lra|].
  assert (H : 2 ^ ilog2 a < 2 ^ (ilog2 b + 1)) by lra.
  apply pow2_lt_inv in H. lia.
Qed.

Lemma nearest_mono (a b : Q) : 0 < a -> a <= b -> nearest fmt a <= nearest fmt b.
Proof.
  intros Ha Hab.
  assert (Hb : 0 < b) by lra.
  pose proof (ilog2_mono a b Ha Hab) as Hl.
  destruct (ilog2_spec a Ha) as [La Ua].
  destruct (ilog2_spec b Hb) as [Lb Ub].
  destruct (Z.eq_dec (ulpExponent fmt a) (ulpExponent fmt b)) as [E | NE].
  - unfold nearest. rewrite E. set (e := ulpExponent fmt b).
    pose proof (pow2_pos e) as Pe.
    apply Qmult_le_compat_r; [|lra].
    rewrite <- Zle_Qle. apply rne_mono.
    apply Qmult_le_compat_r; [exact Hab|].
    apply Qlt_le_weak, Qinv_lt_0_compat, Pe.
  - assert (Hlt : (ilog2 a + 1 <= ilog2 b)%Z /\ (ulpExponent fmt a <= ilog2 b)%Z
                  /\ (ulpExponent fmt b <= ilog2 b)%Z).
    { unfold ulpExponent in *. lia. }
    destruct Hlt as (H1 & H2 & H3).
    apply Qle_trans with (2 ^ ilog2 b).
    + apply nearest_upper; [exact Ha | | exact H2].
      apply Qle_trans with (2 ^ (ilog2 a + 1)); [lra | apply pow2_le, H1].
    + apply nearest_lower; assumption.
Qed.

Lemma nearest_comp (a b : Q) : a == b -> 0 < a -> nearest fmt a == nearest fmt b.
Proof.
  intros E Ha. apply Qle_antisym; apply nearest_mono; lra.
Qed.

End Rounding.

Lemma fle_Fin (p q : Q) : (Fin p <=? Fin q)%F = true <-> p <= q.
Proof.
  unfold fle. cbn [flt feqb]. rewrite orb_true_iff, Qlt_bool_true, Qeq_bool_iff.
  split; [intros [H | H]; lra|].
  intros H. destruct (Qlt_le_dec p q) as [Hlt | Hge]; [now left | right; lra].
Qed.

Lemma flt_Fin (p q : Q) : (Fin p <? Fin q)%F = true <-> p < q.
Proof. cbn [flt]. apply Qlt_bool_true. Qed.

Lemma fopp_involutive (a : F) : (- - a)%F = a.
Proof.
  destruct a as [|[n d]| |]; try reflexivity.
  cbn. unfold Qopp. cbn. now rewrite Z.opp_involutive.
Qed.

(** *** Rounding to a format *)

Section RoundTo.

Variable fmt : Format.
Hypothesis precision_pos : (1 <= precision fmt)%Z.

Lemma roundPositive_cases (a : Q) :
  (roundPositive fmt a = PosInf /\ 2 ^ emax fmt <= nearest fmt a)
  \/ (roundPositive fmt a = Fin (Qred (nearest fmt a))
      /\ nearest fmt a < 2 ^ emax fmt).
Proof.
  unfold roundPositive.
  destruct (Qle_bool (2 ^ emax fmt) (nearest fmt a)) eqn:E.
  - left. split; [reflexivity | now apply Qle_bool_iff].
  - right. split; [reflexivity|].
    apply Qnot_le_lt. intro H. apply Qle_bool_iff in H. congruence.
Qed.

Lemma roundTo_comp (p q : Q) : p == q -> roundTo fmt p = roundTo fmt q.
Proof. intros E. unfold roundTo. now rewrite (Qred_complete p q E). Qed.

Lemma roundTo_opp (q : Q) : roundTo fmt (- q) = (- roundTo fmt q)%F.
Proof.
  unfold roundTo. cbv zeta. rewrite Qred_opp.
  destruct (Qred q) as [[|n|n] d]; cbn [Qnum Qopp Z.opp fopp].
  - reflexivity.
  - reflexivity.
  - now rewrite fopp_involutive.
Qed.

Lemma roundTo_zero (q : Q) : q == 0 -> roundTo fmt q = Fin 0.
Proof. intros E. now rewrite (roundTo_comp q 0 E). Qed.

Lemma roundTo_positive (q : Q) :
  0 < q -> roundTo fmt q = roundPositive fmt (Qred q) /\ 0 < Qred q.
Proof.
  intros H. assert (Hr : 0 < Qred q) by now rewrite Qred_correct.
  split; [|exact Hr]. unfold roundTo. cbv zeta.
  destruct (Qred q) as [[|n|n] d]; cbn [Qnum]; try reflexivity;
    unfold Qlt in Hr; cbn in Hr; lia.
Qed.

(** The sign of the exact result is kept, weakly. *)
Lemma roundTo_nonneg (q : Q) :
  0 <= q ->
  roundTo fmt q = PosInf \/ exists r : Q, roundTo fmt q = Fin r /\ 0 <= r.
Proof.
  intros H. destruct (Qle_lt_or_eq _ _ H) as [Hpos | Hzero].
  - destruct (roundTo_positive q Hpos) as [-> Hr].
    destruct (roundPositive_cases (Qred q)) as [[-> _] | [-> _]]; [now left | right].
    eexists. split; [reflexivity|]. rewrite Qred_correct.
    now apply nearest_nonneg.
  - right. exists 0. split; [|lra]. apply roundTo_zero. lra.
Qed.

Lemma roundTo_nonpos (q : Q) :
  q <= 0 ->
  roundTo fmt q = NegInf \/ exists r : Q, roundTo fmt q = Fin r /\ r <= 0.
Proof.
  intros H.
  assert (E : roundTo fmt q = (- roundTo fmt (- q))%F)
    by now rewrite roundTo_opp, fopp_involutive.
  destruct (roundTo_nonneg (- q)) as [H1 | (r & H1 & Hr)]; [lra | |];
    rewrite E, H1; [now left | right].
  exists (- r). split; [reflexivity | lra].
Qed.

Lemma roundTo_not_NaN (q : Q) : roundTo fmt q <> NaN.
Proof.
  destruct (Qlt_le_dec q 0) as [H | H].
  - destruct (roundTo_nonpos q) as [-> | (r & -> & _)]; [lra | |]; discriminate.
  - destruct (roundTo_nonneg q H) as [-> | (r & -> & _)]; discriminate.
Qed.

(** Rounding is monotone. *)
Lemma roundPositive_mono (a b : Q) :
  0 < a -> a <= b -> (roundPositive fmt a <=? roundPositive fmt b)%F = true.
Proof.
  intros Ha Hab. pose proof (nearest_mono fmt precision_pos a b Ha Hab) as H.
  destruct (roundPositive_cases a) as [[-> Ea] | [-> Ea]],
           (roundPositive_cases b) as [[-> Eb] | [-> Eb]];
    try reflexivity.
  - exfalso. lra.
  - apply fle_Fin. now rewrite !Qred_correct.
Qed.

Lemma fle_fopp (a b : F) : (a <=? b)%F = true -> (- b <=? - a)%F = true.
Proof.
  destruct a, b; try reflexivity; try discriminate.
  cbn [fopp]. rewrite !fle_Fin. lra.
Qed.

Lemma roundTo_mono (p q : Q) :
  p <= q -> (roundTo fmt p <=? roundTo fmt q)%F = true.
Proof.
  intros H. destruct (Qlt_le_dec 0 p) as [Hp | Hp].
  - destruct (roundTo_positive p Hp) as [-> Hp'].
    destruct (roundTo_positive q) as [-> Hq']; [lra|].
    apply roundPositive_mono; [exact Hp' | now rewrite !Qred_correct].
  - destruct (Qlt_le_dec q 0) as [Hq | Hq].
    + rewrite <- (fopp_involutive (roundTo fmt p)), <- (fopp_involutive (roundTo fmt q)).
      rewrite <- (roundTo_opp p), <- (roundTo_opp q). apply fle_fopp.
      destruct (roundTo_positive (- q)) as [-> Hq']; [lra|].
      destruct (roundTo_positive (- p)) as [-> Hp']; [lra|].
      apply roundPositive_mono; [exact Hq' | rewrite !Qred_correct; lra].
    + destruct (roundTo_nonpos p Hp) as [-> | (r & -> & Hr)],
               (roundTo_nonneg q Hq) as [-> | (r' & -> & Hr')];
        try reflexivity.
      apply fle_Fin. lra.
Qed.

(** The error of rounding below the overflow threshold. *)
Lemma roundTo_error (q : Q) (L : Z) :
  Qabs q < 2 ^ (L + 1) ->
  (L + 1 < emax fmt)%Z -> (emin fmt < emax fmt)%Z ->
  exists r : Q,
    roundTo fmt q = Fin r
    /\ Qabs (r - q) <= (1 # 2) * 2 ^ Z.max (emin fmt) (L - precision fmt + 1).
Proof.
  intros Hq HL Hfmt.
  set (E := Z.max (emin fmt) (L - precision fmt + 1)).
  assert (Hpos : forall a : Q, 0 < a -> a < 2 ^ (L + 1) ->
            exists r : Q, roundTo fmt a = Fin r /\ Qabs (r - a) <= (1 # 2) * 2 ^ E).
  { intros a Ha Hb.
    destruct (roundTo_positive a Ha) as [-> Ha'].
    assert (Hb' : Qred a < 2 ^ (L + 1)) by now rewrite Qred_correct.
    pose proof (ulpExponent_le fmt (Qred a) L Ha' Hb') as He. fold E in He.
    assert (Hup : nearest fmt (Qred a) <= 2 ^ Z.max (L + 1) (emin fmt)).
    { apply nearest_upper; [exact Ha' | | lia].
      apply Qle_trans with (2 ^ (L + 1)); [lra | apply pow2_le; lia]. }
    assert (Hlt : 2 ^ Z.max (L + 1) (emin fmt) < 2 ^ emax fmt) by (apply pow2_lt; lia).
    destruct (roundPositive_cases (Qred a)) as [[_ Ho] | [-> _]]; [lra|].
    eexists. split; [reflexivity|].
    rewrite Qred_correct.
    apply Qle_trans with (Qabs (nearest fmt (Qred a) - Qred a)).
    { pose proof (Qred_correct a) as Ea.
      set (n := nearest fmt (Qred a)). set (a' := Qred a) in *. clearbody n a'.
      rewrite Ea. apply Qle_refl. }
    eapply Qle_trans; [apply nearest_error|].
    apply Qmult_le_l; [reflexivity | apply pow2_le, He]. }
  destruct (Q_dec q 0) as [[Hneg | Hgt] | Hz].
  - destruct (Hpos (- q)) as (r & Hr & He); [lra | | ].
    { rewrite Qabs_neg in Hq by lra. exact Hq. }
    exists (- r). split.
    + rewrite <- (fopp_involutive (roundTo fmt q)), <- roundTo_opp, Hr. reflexivity.
    + setoid_replace (- r - q) with (- (r - - q)) by ring. now rewrite Qabs_opp.
  - apply Hpos; [exact Hgt|]. rewrite Qabs_pos in Hq by lra. exact Hq.
  - exists 0. split; [now apply roundTo_zero|].
    pose proof (pow2_pos E).
    setoid_replace (0 - q) with 0 by (rewrite Hz; ring).
    cbn. lra.
Qed.

End RoundTo.


(* ================================================================== *)
(** ** The collision branch of [SweptAABB] *)

Lemma cascade_strictlyLatest (a : Axis) (xE yE zE : F) :
  cascade xE yE zE = Some a <-> strictlyLatest a xE yE zE.
Proof.
  unfold cascade, strictlyLatest, fgt.
  destruct (yE <? xE)%F eqn:Hyx, (zE <? xE)%F eqn:Hzx,
           (xE <? yE)%F eqn:Hxy, (zE <? yE)%F eqn:Hzy,
           (xE <? zE)%F eqn:Hxz, (yE <? zE)%F eqn:Hyz;
    cbn; destruct a; split; try intros [? ?]; try congruence; auto;
    try (apply flt_asym in Hyx; congruence);
    try (apply flt_asym in Hzx; congruence);
    try (apply flt_asym in Hzy; congruence).
Qed.

Lemma strictlyLatest_unique (a b : Axis) (xE yE zE : F) :
  strictlyLatest a xE yE zE -> strictlyLatest b xE yE zE -> a = b.
Proof.
  destruct a, b; cbn; unfold fgt; intros [H1 H2] [H3 H4]; try reflexivity;
    repeat match goal with
      | H : (?u <? ?v)%F = true, H' : (?v <? ?u)%F = true |- _ =>
          apply flt_asym in H; congruence
      end.
Qed.

(** The entry time of the strictly latest axis is what line 188 computes. *)
Lemma entryTime_strictlyLatest (a : Axis) (xE yE zE : F) :
  strictlyLatest a xE yE zE ->
  entryTime xE yE zE = component a (mk_vec3 xE yE zE).
Proof.
  unfold entryTime, fmax.
  destruct a; cbn; unfold fgt; intros [H1 H2].
  - rewrite (flt_asym _ _ H1), (flt_asym _ _ H2). reflexivity.
  - rewrite H1, (flt_asym _ _ H2). reflexivity.
  - destruct (xE <? yE)%F; [rewrite H2 | rewrite H1]; reflexivity.
Qed.

(** In the collision branch the strictly latest entry time is in [0, 1]. *)
Lemma strictlyLatest_in_range (a : Axis) (X Y Z : AxisSweep) :
  noCollision X Y Z = false ->
  strictlyLatest a (EntryTime X) (EntryTime Y) (EntryTime Z) ->
  let t := component a (mk_vec3 (EntryTime X) (EntryTime Y) (EntryTime Z)) in
  (f0 <=? t)%F = true /\ (t <=? f1)%F = true.
Proof.
  unfold noCollision.
  destruct X as [? ? xE ? ?], Y as [? ? yE ? ?], Z as [? ? zE ? ?];
    cbn [EntryTime component].
  intros Hno Hlate.
  apply orb_false_elim in Hno; destruct Hno as [Hno Hz1].
  apply orb_false_elim in Hno; destruct Hno as [Hno Hy1].
  apply orb_false_elim in Hno; destruct Hno as [Hno Hx1].
  apply orb_false_elim in Hno; destruct Hno as [_ Hneg].
  assert (Hge : forall u : F, (u <? f0)%F = false -> u <> NaN ->
                              (f0 <=? u)%F = true).
  { intros u Hu Hn. apply fle_of_not_fgt; [exact Hu | discriminate | exact Hn]. }
  assert (Hle : forall u : F, (u >? f1)%F = false -> u <> NaN ->
                              (u <=? f1)%F = true).
  { intros u Hu Hn. apply fle_of_not_fgt; [exact Hu | exact Hn | discriminate]. }
  destruct a; cbn [strictlyLatest component x y z] in Hlate |- *;
    unfold fgt in Hlate; destruct Hlate as [Ha Hb];
    pose proof (flt_not_NaN_r _ _ Ha) as Hnan; split;
    try (apply Hle; assumption);
    apply Hge; try assumption;
    match goal with
    | |- (?u <? f0)%F = false =>
        destruct (u <? f0)%F eqn:Hu; [|reflexivity];
        rewrite ?Hu, ?(flt_trans _ _ _ Ha Hu), ?(flt_trans _ _ _ Hb Hu) in Hneg;
        discriminate Hneg
    end.
Qed.

(** X17: when [SweptAABB] takes its collision branch and the axis [a]
    strictly achieves the maximum entry time, the returned time is that
    axis's entry time and lies in [0, 1]; the returned normal is zero in the
    other two components and, along [a], is +1.0 when the entry distance of
    [a] tests negative at lines 219, 234 and 249 and -1.0 otherwise. *)
Theorem SweptAABB_collision_normal
  (box1 box2 : AABB) (vel1 normal : vec3) (a : Axis) :
  let X := xAxis box1 box2 vel1 in
  let Y := yAxis box1 box2 vel1 in
  let Z := zAxis box1 box2 vel1 in
  noCollision X Y Z = false ->
  strictlyLatest a (EntryTime X) (EntryTime Y) (EntryTime Z) ->
  let r := SweptAABB box1 box2 vel1 normal in
  collisionTime r = EntryTime (axisSweep a box1 box2 vel1)
  /\ (f0 <=? collisionTime r)%F = true
  /\ (collisionTime r <=? f1)%F = true
  /\ normalOf r
     = axisVector a
         (if (DistanceEntry (axisSweep a box1 box2 vel1) <? f0)%F
          then f1 else fm1).
Proof.
  intros X Y Z Hno Hlate r.
  pose proof (strictlyLatest_in_range a X Y Z Hno Hlate) as [Hlo Hhi].
  pose proof (entryTime_strictlyLatest a _ _ _ Hlate) as Ht.
  pose proof (proj2 (cascade_strictlyLatest a _ _ _) Hlate) as Hc.
  assert (Hr : collisionTime r = entryTime (EntryTime X) (EntryTime Y) (EntryTime Z)
               /\ normalOf r
                  = axisVector a
                      (if (DistanceEntry (axisSweep a box1 box2 vel1) <? f0)%F
                       then f1 else fm1)).
  { subst r. unfold SweptAABB. fold X Y Z. rewrite Hno, Hc.
    destruct a; cbn [axisSweep]; fold X Y Z;
      match goal with
      | |- context [(DistanceEntry ?A <? f0)%F] =>
          destruct (DistanceEntry A <? f0)%F
      end; split; reflexivity. }
  destruct Hr as [Hr1 Hr2].
  rewrite Hr1, Ht.
  repeat split; try assumption.
  destruct a; reflexivity.
Qed.

Lemma SweptAABB_collision_normal_witness :
  noCollision (xAxis unitBox neighbourBox (along AxisX 1))
              (yAxis unitBox neighbourBox (along AxisX 1))
              (zAxis unitBox neighbourBox (along AxisX 1)) = false
  /\ strictlyLatest AxisX
       (EntryTime (xAxis unitBox neighbourBox (along AxisX 1)))
       (EntryTime (yAxis unitBox neighbourBox (along AxisX 1)))
       (EntryTime (zAxis unitBox neighbourBox (along AxisX 1)))
  /\ (collisionTime (SweptAABB unitBox neighbourBox (along AxisX 1) vzero)
      = EntryTime (axisSweep AxisX unitBox neighbourBox (along AxisX 1))
      /\ (f0 <=? collisionTime (SweptAABB unitBox neighbourBox (along AxisX 1) vzero))%F
         = true
      /\ (collisionTime (SweptAABB unitBox neighbourBox (along AxisX 1) vzero) <=? f1)%F
         = true
      /\ normalOf (SweptAABB unitBox neighbourBox (along AxisX 1) vzero)
         = axisVector AxisX
             (if (DistanceEntry (axisSweep AxisX unitBox neighbourBox (along AxisX 1))
                  <? f0)%F
              then f1 else fm1)).
Proof.
  split; [vm_compute; reflexivity|].
  split; [split; vm_compute; reflexivity|].
  apply (SweptAABB_collision_normal unitBox neighbourBox (along AxisX 1)
           vzero AxisX).
  - vm_compute. reflexivity.
  - split; vm_compute; reflexivity.
Defined.

(** C1: the claim fails on the code where the two boxes touch and the moving
    one approaches from the positive side.  [neighbourBox], in contact with
    [unitBox], moves towards it along -x: the collision branch is taken at
    time 0, x is strictly the latest axis and its entry distance is zero, so
    the test [xDistanceEntry < 0.0f] of line 219 fails and the normal is -1.0
    along x, in the direction of the motion.  From one unit further away
    ([apartBox], same direction of motion) the entry distance is negative and
    the normal is +1.0, against the motion, as the claim says. *)
Theorem SweptAABB_touching_normal :
  (x (along AxisX (-1)) <? f0)%F = true
  /\ noCollision (xAxis neighbourBox unitBox (along AxisX (-1)))
                 (yAxis neighbourBox unitBox (along AxisX (-1)))
                 (zAxis neighbourBox unitBox (along AxisX (-1))) = false
  /\ strictlyLatest AxisX
       (EntryTime (xAxis neighbourBox unitBox (along AxisX (-1))))
       (EntryTime (yAxis neighbourBox unitBox (along AxisX (-1))))
       (EntryTime (zAxis neighbourBox unitBox (along AxisX (-1))))
  /\ DistanceEntry (xAxis neighbourBox unitBox (along AxisX (-1))) = f0
  /\ SweptAABB neighbourBox unitBox (along AxisX (-1)) vzero
     = mk_Swept f0 fm1 f0 f0
  /\ fsgn (normalx (SweptAABB neighbourBox unitBox (along AxisX (-1)) vzero))
     <> (- fsgn (DistanceEntry (xAxis neighbourBox unitBox (along AxisX (-1)))))%Z
  /\ (DistanceEntry (xAxis apartBox unitBox (along AxisX (-1))) <? f0)%F = true
  /\ SweptAABB apartBox unitBox (along AxisX (-1)) vzero
     = mk_Swept f1 f1 f0 f0.
Proof.
  repeat split; try (vm_compute; reflexivity).
  vm_compute. discriminate.
Qed.

(* ================================================================== *)
(** ** The no-collision branch of [SweptAABB] *)

(** The condition of line 197, as a proposition. *)
Lemma noCollision_true_iff (X Y Z : AxisSweep) :
  noCollision X Y Z = true <->
  (entryTime (EntryTime X) (EntryTime Y) (EntryTime Z)
     >? exitTime (ExitTime X) (ExitTime Y) (ExitTime Z))%F = true
  \/ ((EntryTime X <? f0)%F = true /\ (EntryTime Y <? f0)%F = true
      /\ (EntryTime Z <? f0)%F = true)
  \/ (EntryTime X >? f1)%F = true
  \/ (EntryTime Y >? f1)%F = true
  \/ (EntryTime Z >? f1)%F = true.
Proof.
  unfold noCollision.
  rewrite !orb_true_iff, !andb_true_iff. tauto.
Qed.

(** An entry time equal to 2.0 exceeds 1.0. *)
Lemma feq_f2_fgt_f1 (t : F) : feq t f2 -> (t >? f1)%F = true.
Proof.
  destruct t; cbn; try tauto. intros H. q_props. lra.
Qed.

(** [std::max] of two numbers is the greater one, [std::min] the smaller. *)
Lemma fmax_upper (a b : F) :
  a <> NaN -> b <> NaN ->
  (a <=? fmax a b)%F = true /\ (b <=? fmax a b)%F = true.
Proof.
  unfold fmax. intros Ha Hb.
  destruct a as [|p| |], b as [|q| |]; try congruence; cbn [flt];
    try destruct (Qlt_bool p q) eqn:E; q_props;
    split; try reflexivity; apply fle_Fin; lra.
Qed.

Lemma fmin_lower (a b : F) :
  a <> NaN -> b <> NaN ->
  (fmin a b <=? a)%F = true /\ (fmin a b <=? b)%F = true.
Proof.
  unfold fmin. intros Ha Hb.
  destruct a as [|p| |], b as [|q| |]; try congruence; cbn [flt];
    try destruct (Qlt_bool q p) eqn:E; q_props;
    split; try reflexivity; apply fle_Fin; lra.
Qed.

Lemma fmax_not_NaN (a b : F) : a <> NaN -> b <> NaN -> fmax a b <> NaN.
Proof. unfold fmax. destruct (a <? b)%F; auto. Qed.

Lemma fmin_not_NaN (a b : F) : a <> NaN -> b <> NaN -> fmin a b <> NaN.
Proof. unfold fmin. destruct (b <? a)%F; auto. Qed.

Lemma fle_trans (a b c : F) :
  (a <=? b)%F = true -> (b <=? c)%F = true -> (a <=? c)%F = true.
Proof.
  destruct a, b, c; try reflexivity; try discriminate.
  rewrite !fle_Fin. lra.
Qed.

(** C2: the overall entry time is the greatest of the three per-axis entry
    times and the overall exit time the least of the three per-axis exit
    times (as [std::max] and [std::min] compute them).  [SweptAABB] returns
    time = 2.0 with normal = (0,0,0) if and only if the overall entry time
    exceeds the overall exit time, or all three per-axis entry times are
    negative, or some per-axis entry time exceeds 1.0; otherwise it returns
    the overall entry time. *)
Theorem SweptAABB_no_collision_iff (box1 box2 : AABB) (vel1 normal : vec3) :
  let xEntryTime := EntryTime (xAxis box1 box2 vel1) in
  let yEntryTime := EntryTime (yAxis box1 box2 vel1) in
  let zEntryTime := EntryTime (zAxis box1 box2 vel1) in
  let xExitTime := ExitTime (xAxis box1 box2 vel1) in
  let yExitTime := ExitTime (yAxis box1 box2 vel1) in
  let zExitTime := ExitTime (zAxis box1 box2 vel1) in
  let overallEntry := fmax (fmax xEntryTime yEntryTime) zEntryTime in
  let overallExit := fmin (fmin xExitTime yExitTime) zExitTime in
  let no_collision :=
    (overallEntry >? overallExit)%F = true
    \/ ((xEntryTime <? f0)%F = true /\ (yEntryTime <? f0)%F = true
        /\ (zEntryTime <? f0)%F = true)
    \/ (xEntryTime >? f1)%F = true
    \/ (yEntryTime >? f1)%F = true
    \/ (zEntryTime >? f1)%F = true in
  let r := SweptAABB box1 box2 vel1 normal in
  (overallEntry = xEntryTime \/ overallEntry = yEntryTime
   \/ overallEntry = zEntryTime)
  /\ (xEntryTime <> NaN -> yEntryTime <> NaN -> zEntryTime <> NaN ->
      (xEntryTime <=? overallEntry)%F = true
      /\ (yEntryTime <=? overallEntry)%F = true
      /\ (zEntryTime <=? overallEntry)%F = true)
  /\ (overallExit = xExitTime \/ overallExit = yExitTime
      \/ overallExit = zExitTime)
  /\ (xExitTime <> NaN -> yExitTime <> NaN -> zExitTime <> NaN ->
      (overallExit <=? xExitTime)%F = true
      /\ (overallExit <=? yExitTime)%F = true
      /\ (overallExit <=? zExitTime)%F = true)
  /\ (no_collision <-> feq (collisionTime r) f2 /\ veq (normalOf r) vzero)
  /\ (no_collision -> r = mk_Swept f2 f0 f0 f0)
  /\ (~ no_collision -> collisionTime r = overallEntry).
Proof.
  intros xE yE zE xX yX zX overallEntry overallExit no_collision r.
  set (X := xAxis box1 box2 vel1) in *.
  set (Y := yAxis box1 box2 vel1) in *.
  set (Z := zAxis box1 box2 vel1) in *.
  assert (Hiff : noCollision X Y Z = true <-> no_collision)
    by apply noCollision_true_iff.
  assert (Hyes : noCollision X Y Z = true -> r = mk_Swept f2 f0 f0 f0).
  { intros H. subst r. unfold SweptAABB. fold X Y Z. now rewrite H. }
  assert (Hnot : noCollision X Y Z = false -> collisionTime r = overallEntry).
  { intros H. subst r. unfold SweptAABB. fold X Y Z. rewrite H.
    destruct (cascade (EntryTime X) (EntryTime Y) (EntryTime Z)) as [[ | | ]|];
      repeat match goal with
        | |- context [if ?b then _ else _] => destruct b
        end; reflexivity. }
  split; [apply entryTime_cases|].
  split.
  { intros Hx Hy Hz. subst overallEntry.
    destruct (fmax_upper xE yE Hx Hy) as [H1 H2].
    destruct (fmax_upper (fmax xE yE) zE (fmax_not_NaN _ _ Hx Hy) Hz) as [H3 H4].
    repeat split; [exact (fle_trans _ _ _ H1 H3) | exact (fle_trans _ _ _ H2 H3)
                  | exact H4]. }
  split; [apply exitTime_cases|].
  split.
  { intros Hx Hy Hz. subst overallExit.
    destruct (fmin_lower xX yX Hx Hy) as [H1 H2].
    destruct (fmin_lower (fmin xX yX) zX (fmin_not_NaN _ _ Hx Hy) Hz) as [H3 H4].
    repeat split; [exact (fle_trans _ _ _ H3 H1) | exact (fle_trans _ _ _ H3 H2)
                  | exact H4]. }
  split; [split|split].
  - intros H. apply Hiff in H. rewrite (Hyes H).
    cbn. repeat split; reflexivity.
  - intros [Ht _].
    destruct (noCollision X Y Z) eqn:Hnc; [now apply Hiff|].
    exfalso. rewrite (Hnot eq_refl) in Ht.
    apply orb_false_elim in Hnc; destruct Hnc as [Hnc Hz1].
    apply orb_false_elim in Hnc; destruct Hnc as [Hnc Hy1].
    apply orb_false_elim in Hnc; destruct Hnc as [_ Hx1].
    subst overallEntry xE yE zE.
    destruct (entryTime_cases (EntryTime X) (EntryTime Y) (EntryTime Z))
      as [E | [E | E]];
      unfold entryTime in E; rewrite E in Ht; apply feq_f2_fgt_f1 in Ht;
      congruence.
  - intros H. apply Hyes, Hiff, H.
  - intros H. apply Hnot.
    destruct (noCollision X Y Z) eqn:Hnc; [|reflexivity].
    exfalso. apply H, Hiff. reflexivity.
Qed.

(** At rest (all three displacement components zero) every axis has entry
    time 2.0 or minus infinity, and [SweptAABB] reports no collision. *)
Lemma sweepAxis_at_rest (min1 max1 min2 max2 : F) :
  EntryTime (sweepAxis min1 max1 min2 max2 f0) = f2
  \/ EntryTime (sweepAxis min1 max1 min2 max2 f0) = NegInf.
Proof.
  unfold sweepAxis. destruct (axisDistances min1 max1 min2 max2 f0) as [dE dX].
  change (f0 ==? f0)%F with true. cbn [EntryTime].
  match goal with |- context [if ?b then _ else _] => destruct b end; auto.
Qed.

Lemma SweptAABB_at_rest (box1 box2 : AABB) (normal : vec3) :
  SweptAABB box1 box2 vzero normal = mk_Swept f2 f0 f0 f0.
Proof.
  unfold SweptAABB.
  assert (H : noCollision (xAxis box1 box2 vzero) (yAxis box1 box2 vzero)
                (zAxis box1 box2 vzero) = true).
  { apply noCollision_true_iff. unfold xAxis, yAxis, zAxis. cbn [vzero x y z].
    destruct (sweepAxis_at_rest (x (min box1)) (x (max box1))
                (x (min box2)) (x (max box2))) as [Ex | Ex];
      [right; right; left; rewrite Ex; reflexivity|].
    destruct (sweepAxis_at_rest (y (min box1)) (y (max box1))
                (y (min box2)) (y (max box2))) as [Ey | Ey];
      [right; right; right; left; rewrite Ey; reflexivity|].
    destruct (sweepAxis_at_rest (z (min box1)) (z (max box1))
                (z (min box2)) (z (max box2))) as [Ez | Ez];
      [right; right; right; right; rewrite Ez; reflexivity|].
    right; left. rewrite Ex, Ey, Ez. repeat split; reflexivity. }
  now rewrite H.
Qed.

(* ================================================================== *)
(** ** Boxes at rest *)

Lemma sweepAxis_ExitTime_at_rest (min1 max1 min2 max2 : F) :
  ExitTime (sweepAxis min1 max1 min2 max2 f0) = PosInf.
Proof.
  unfold sweepAxis. destruct (axisDistances min1 max1 min2 max2 f0) as [dE dX].
  reflexivity.
Qed.

(** C4, as amended: for all pairs of boxes whose extents overlap on every axis
    ([TestAABB] holds) and the all-zero displacement, every axis has exit time
    plus infinity and an entry time that is minus infinity or the sentinel
    2.0, never a time of [0, 1], and [SweptAABB] returns the no-collision
    sentinel 2.0 with a zero normal: boxes overlapping at rest are not
    reported as colliding. *)
Theorem SweptAABB_overlapping_at_rest (box1 box2 : AABB) (normal : vec3) :
  TestAABB box1 box2 = true ->
  (forall a : Axis,
      (EntryTime (axisSweep a box1 box2 vzero) = NegInf
       \/ EntryTime (axisSweep a box1 box2 vzero) = f2)
      /\ ExitTime (axisSweep a box1 box2 vzero) = PosInf)
  /\ SweptAABB box1 box2 vzero normal = mk_Swept f2 f0 f0 f0.
Proof.
  intros _. split; [|apply SweptAABB_at_rest].
  intros [ | | ]; cbn [axisSweep]; unfold xAxis, yAxis, zAxis;
    cbn [vzero x y z]; (split; [|apply sweepAxis_ExitTime_at_rest]);
    match goal with
    | |- EntryTime (sweepAxis ?a ?b ?c ?d f0) = _ \/ _ =>
        destruct (sweepAxis_at_rest a b c d) as [-> | ->]; auto
    end.
Qed.

Lemma SweptAABB_overlapping_at_rest_witness :
  TestAABB unitBox overlappingBox = true
  /\ ((forall a : Axis,
          (EntryTime (axisSweep a unitBox overlappingBox vzero) = NegInf
           \/ EntryTime (axisSweep a unitBox overlappingBox vzero) = f2)
          /\ ExitTime (axisSweep a unitBox overlappingBox vzero) = PosInf)
      /\ SweptAABB unitBox overlappingBox vzero sevens = mk_Swept f2 f0 f0 f0).
Proof.
  split; [vm_compute; reflexivity|].
  apply (SweptAABB_overlapping_at_rest unitBox overlappingBox sevens).
  vm_compute. reflexivity.
Defined.

(** C4 as stated fails: [unitBox] and [overlappingBox] overlap on every axis,
    the displacement is zero, and the returned time is the sentinel 2.0,
    which is not in [0, 1]. *)
Lemma SweptAABB_overlapping_at_rest_counterexample :
  TestAABB unitBox overlappingBox = true
  /\ collisionTime (SweptAABB unitBox overlappingBox vzero vzero) = f2
  /\ (collisionTime (SweptAABB unitBox overlappingBox vzero vzero) <=? f1)%F = false.
Proof. repeat split; vm_compute; reflexivity. Qed.

(** Both entry times occur for overlapping boxes.  [unitBox] and
    [overlappingBox] get minus infinity on every axis.  [wallBox] and
    [slabBox] touch along x, and the sum of their extents along x rounds
    to less than the distance between their far sides: the test of line 128
    succeeds and the entry time of x is 2.0. *)
Lemma sweepAxis_at_rest_entry_times :
  EntryTime (xAxis unitBox overlappingBox vzero) = NegInf
  /\ TestAABB slabBox wallBox = true
  /\ EntryTime (xAxis slabBox wallBox vzero) = f2.
Proof. repeat split; vm_compute; reflexivity. Qed.

(* ================================================================== *)
(** ** Zero displacement components *)

Lemma sweepAxis_zero (min1 max1 min2 max2 vel : F) :
  (vel ==? f0)%F = true ->
  let A := sweepAxis min1 max1 min2 max2 vel in
  divisors A = []
  /\ ExitTime A = infinity
  /\ EntryTime A
     = if (fmax (fabsf (DistanceEntry A)) (fabsf (DistanceExit A))
           >? (max1 - min1) + (max2 - min2))%F
       then f2 else NegInf.
Proof.
  intros H. unfold sweepAxis.
  destruct (axisDistances min1 max1 min2 max2 vel) as [dE dX].
  rewrite H. cbn. repeat split; reflexivity.
Qed.

Lemma sweepAxis_nonzero (min1 max1 min2 max2 vel : F) :
  (vel ==? f0)%F = false ->
  let A := sweepAxis min1 max1 min2 max2 vel in
  divisors A = [vel; vel]
  /\ EntryTime A = (DistanceEntry A / vel)%F
  /\ ExitTime A = (DistanceExit A / vel)%F.
Proof.
  intros H. unfold sweepAxis.
  destruct (axisDistances min1 max1 min2 max2 vel) as [dE dX].
  rewrite H. cbn. repeat split; reflexivity.
Qed.

Lemma sweepAxis_divisors (min1 max1 min2 max2 vel : F) :
  Forall (fun d => (d ==? f0)%F = false)
    (divisors (sweepAxis min1 max1 min2 max2 vel)).
Proof.
  unfold sweepAxis.
  destruct (axisDistances min1 max1 min2 max2 vel) as [dE dX].
  destruct (vel ==? f0)%F eqn:H; cbn [divisors]; repeat constructor; exact H.
Qed.

Lemma axisSweep_unfold (a : Axis) (box1 box2 : AABB) (vel1 : vec3) :
  axisSweep a box1 box2 vel1
  = sweepAxis (component a (min box1)) (component a (max box1))
      (component a (min box2)) (component a (max box2)) (component a vel1).
Proof. destruct a; reflexivity. Qed.

(** An axis with entry time 2.0 forces the no-collision result. *)
Lemma SweptAABB_sentinel_axis
  (a : Axis) (box1 box2 : AABB) (vel1 normal : vec3) :
  EntryTime (axisSweep a box1 box2 vel1) = f2 ->
  SweptAABB box1 box2 vel1 normal = mk_Swept f2 f0 f0 f0.
Proof.
  intros H. unfold SweptAABB.
  assert (E : noCollision (xAxis box1 box2 vel1) (yAxis box1 box2 vel1)
                (zAxis box1 box2 vel1) = true).
  { apply noCollision_true_iff.
    destruct a; cbn [axisSweep] in H; rewrite H; cbn; tauto. }
  now rewrite E.
Qed.

Lemma feqb_f0_not_fgt (vel : F) : (vel ==? f0)%F = true -> (vel >? f0)%F = false.
Proof.
  destruct vel as [|v| |]; try discriminate. cbn. intros H. q_props. lra.
Qed.

Lemma sweepAxis_distances (min1 max1 min2 max2 vel : F) :
  let A := sweepAxis min1 max1 min2 max2 vel in
  (DistanceEntry A, DistanceExit A)
  = if (vel >? f0)%F
    then ((min2 - max1)%F, (max2 - min1)%F)
    else ((max2 - min1)%F, (min2 - max1)%F).
Proof.
  unfold sweepAxis, axisDistances.
  destruct (vel >? f0)%F, (vel ==? f0)%F; reflexivity.
Qed.

(** C6: no division of [SweptAABB] has a zero divisor.  For an axis whose
    displacement component is zero no division is performed at all: the
    entry distance is [box2.max - box1.min] and the exit distance
    [box2.min - box1.max]; the exit time is plus infinity, and the entry time
    is the sentinel 2.0 (which forces the no-collision result) if the larger
    absolute value of the two distances exceeds the sum of the two boxes'
    extents on the axis, and minus infinity otherwise.  For a nonzero
    component the two times are the quotients of the distances by the
    component, the distances being [box2.min - box1.max] and
    [box2.max - box1.min] for a positive component and the other way round
    for a negative one. *)
Theorem SweptAABB_zero_displacement_component
  (a : Axis) (box1 box2 : AABB) (vel1 normal : vec3) :
  let A := axisSweep a box1 box2 vel1 in
  let vel := component a vel1 in
  let min1 := component a (min box1) in
  let max1 := component a (max box1) in
  let min2 := component a (min box2) in
  let max2 := component a (max box2) in
  Forall (fun d => (d ==? f0)%F = false) (SweptAABB_divisors box1 box2 vel1)
  /\ ((vel ==? f0)%F = true ->
      DistanceEntry A = (max2 - min1)%F
      /\ DistanceExit A = (min2 - max1)%F
      /\ divisors A = []
      /\ ExitTime A = infinity
      /\ ((fmax (fabsf (max2 - min1)) (fabsf (min2 - max1))
           >? (max1 - min1) + (max2 - min2))%F = true ->
          EntryTime A = f2
          /\ SweptAABB box1 box2 vel1 normal = mk_Swept f2 f0 f0 f0)
      /\ ((fmax (fabsf (max2 - min1)) (fabsf (min2 - max1))
           >? (max1 - min1) + (max2 - min2))%F = false ->
          EntryTime A = (- infinity)%F))
  /\ ((vel ==? f0)%F = false ->
      divisors A = [vel; vel]
      /\ ((vel >? f0)%F = true ->
          EntryTime A = ((min2 - max1) / vel)%F
          /\ ExitTime A = ((max2 - min1) / vel)%F)
      /\ ((vel >? f0)%F = false ->
          EntryTime A = ((max2 - min1) / vel)%F
          /\ ExitTime A = ((min2 - max1) / vel)%F)).
Proof.
  intros A vel min1 max1 min2 max2.
  pose proof (axisSweep_unfold a box1 box2 vel1) as HA.
  fold A vel min1 max1 min2 max2 in HA.
  pose proof (sweepAxis_distances min1 max1 min2 max2 vel) as Hd.
  cbv zeta in Hd. rewrite <- HA in Hd.
  split; [|split].
  - unfold SweptAABB_divisors, xAxis, yAxis, zAxis.
    rewrite !Forall_app. repeat split; apply sweepAxis_divisors.
  - intros Hz. rewrite (feqb_f0_not_fgt vel Hz) in Hd.
    injection Hd as HdE HdX.
    destruct (sweepAxis_zero min1 max1 min2 max2 vel Hz) as (Hdiv & Hx & He).
    rewrite <- HA in Hdiv, Hx, He. rewrite HdE, HdX in He.
    split; [exact HdE | split; [exact HdX | split; [exact Hdiv | split; [exact Hx | split]]]].
    + intros Hfar. rewrite Hfar in He. split; [exact He|].
      apply (SweptAABB_sentinel_axis a). exact He.
    + intros Hnear. rewrite Hnear in He. exact He.
  - intros Hnz.
    destruct (sweepAxis_nonzero min1 max1 min2 max2 vel Hnz) as (Hdiv & He & Hx).
    rewrite <- HA in Hdiv, He, Hx.
    split; [exact Hdiv|].
    split; intros Hv; rewrite Hv in Hd; injection Hd as HdE HdX;
      rewrite He, Hx, HdE, HdX; split; reflexivity.
Qed.

(* ================================================================== *)
(** ** The cascade of the collision branch *)

Lemma feq_not_flt (u v : F) : feq u v -> (v <? u)%F = false.
Proof. f_cases. intros H. q_props. lra. Qed.

Lemma tiedLatest_not_strictlyLatest (xE yE zE : F) (d : Axis) :
  tiedLatest xE yE zE -> ~ strictlyLatest d xE yE zE.
Proof.
  intros (a & b & Hab & Heq & Hmax) Hd.
  apply feq_not_flt in Heq.
  pose proof (Hmax d) as Hda.
  destruct a, b, d; try congruence;
    cbn [component x y z strictlyLatest] in *; unfold fgt in *;
    destruct Hd as [H1 H2]; congruence.
Qed.

Lemma cascade_None (xE yE zE : F) :
  cascade xE yE zE = None <-> forall a : Axis, ~ strictlyLatest a xE yE zE.
Proof.
  split.
  - intros H a Ha. apply cascade_strictlyLatest in Ha. congruence.
  - intros H. destruct (cascade xE yE zE) as [a|] eqn:E; [|reflexivity].
    apply cascade_strictlyLatest in E. now apply H in E.
Qed.

Lemma SweptAABB_cascade_None (box1 box2 : AABB) (vel1 normal : vec3) :
  noCollision (xAxis box1 box2 vel1) (yAxis box1 box2 vel1)
    (zAxis box1 box2 vel1) = false ->
  cascade (EntryTime (xAxis box1 box2 vel1)) (EntryTime (yAxis box1 box2 vel1))
    (EntryTime (zAxis box1 box2 vel1)) = None ->
  normalOf (SweptAABB box1 box2 vel1 normal) = normal.
Proof.
  intros Hno Hc. unfold SweptAABB. rewrite Hno, Hc.
  destruct normal; reflexivity.
Qed.

(** C9, as amended: on every input on which [SweptAABB] takes the collision
    branch at most one arm of the cascade can execute.  When an axis strictly
    achieves the latest entry time, exactly the arm of that axis executes and
    assigns the three normal out-parameters.  When two axes tie for the latest
    entry time no arm executes and the three out-parameters keep the values
    they had on entry, whatever these are: they are not set to zero. *)
Theorem SweptAABB_cascade_arms (box1 box2 : AABB) (vel1 normal : vec3) :
  let X := xAxis box1 box2 vel1 in
  let Y := yAxis box1 box2 vel1 in
  let Z := zAxis box1 box2 vel1 in
  let r := SweptAABB box1 box2 vel1 normal in
  noCollision X Y Z = false ->
  (forall a b : Axis,
      strictlyLatest a (EntryTime X) (EntryTime Y) (EntryTime Z) ->
      strictlyLatest b (EntryTime X) (EntryTime Y) (EntryTime Z) -> a = b)
  /\ (forall a : Axis,
        strictlyLatest a (EntryTime X) (EntryTime Y) (EntryTime Z) ->
        cascade (EntryTime X) (EntryTime Y) (EntryTime Z) = Some a
        /\ normalOf r
           = axisVector a
               (if (DistanceEntry (axisSweep a box1 box2 vel1) <? f0)%F
                then f1 else fm1))
  /\ (tiedLatest (EntryTime X) (EntryTime Y) (EntryTime Z) ->
      cascade (EntryTime X) (EntryTime Y) (EntryTime Z) = None
      /\ normalOf r = normal).
Proof.
  intros X Y Z r Hno. split; [|split].
  - intros a b. apply strictlyLatest_unique.
  - intros a Ha. split; [now apply cascade_strictlyLatest|].
    subst r. unfold SweptAABB. fold X Y Z.
    rewrite Hno, (proj2 (cascade_strictlyLatest a _ _ _) Ha).
    destruct a; cbn [axisSweep]; fold X Y Z;
      match goal with
      | |- context [(DistanceEntry ?A <? f0)%F] =>
          destruct (DistanceEntry A <? f0)%F
      end; reflexivity.
  - intros Htie.
    assert (Hc : cascade (EntryTime X) (EntryTime Y) (EntryTime Z) = None).
    { apply cascade_None. intros a.
      now apply tiedLatest_not_strictlyLatest. }
    split; [exact Hc|]. now apply SweptAABB_cascade_None.
Qed.

Lemma SweptAABB_cascade_arms_witness :
  noCollision (xAxis unitBox cornerBox cornerDisplacement)
    (yAxis unitBox cornerBox cornerDisplacement)
    (zAxis unitBox cornerBox cornerDisplacement) = false
  /\ tiedLatest (EntryTime (xAxis unitBox cornerBox cornerDisplacement))
       (EntryTime (yAxis unitBox cornerBox cornerDisplacement))
       (EntryTime (zAxis unitBox cornerBox cornerDisplacement))
  /\ normalOf (SweptAABB unitBox cornerBox cornerDisplacement sevens) = sevens.
Proof.
  assert (Htie : tiedLatest
                   (EntryTime (xAxis unitBox cornerBox cornerDisplacement))
                   (EntryTime (yAxis unitBox cornerBox cornerDisplacement))
                   (EntryTime (zAxis unitBox cornerBox cornerDisplacement))).
  { exists AxisX, AxisY. split; [discriminate|].
    split; [vm_compute; reflexivity|].
    intros [ | | ]; vm_compute; reflexivity. }
  split; [vm_compute; reflexivity|]. split; [exact Htie|].
  apply (SweptAABB_cascade_arms unitBox cornerBox cornerDisplacement sevens);
    [vm_compute; reflexivity | exact Htie].
Defined.

(** C9 as stated fails: [unitBox] meets [cornerBox] corner first, so the x and
    y entry times tie at 1/2.  The collision branch is taken and no arm of the
    cascade executes, so the out-parameters are not assigned by exactly one
    arm; with the out-parameters holding (7, 7, 7) on entry, the normal on
    return is (7, 7, 7), which has no zero component. *)
Lemma SweptAABB_cascade_counterexample :
  noCollision (xAxis unitBox cornerBox cornerDisplacement)
    (yAxis unitBox cornerBox cornerDisplacement)
    (zAxis unitBox cornerBox cornerDisplacement) = false
  /\ feq (EntryTime (xAxis unitBox cornerBox cornerDisplacement))
         (EntryTime (yAxis unitBox cornerBox cornerDisplacement))
  /\ (forall a : Axis,
         cascade (EntryTime (xAxis unitBox cornerBox cornerDisplacement))
           (EntryTime (yAxis unitBox cornerBox cornerDisplacement))
           (EntryTime (zAxis unitBox cornerBox cornerDisplacement)) <> Some a)
  /\ normalOf (SweptAABB unitBox cornerBox cornerDisplacement sevens) = sevens
  /\ (forall a : Axis,
         (component a
            (normalOf (SweptAABB unitBox cornerBox cornerDisplacement sevens))
          ==? f0)%F = false).
Proof.
  split; [vm_compute; reflexivity|]. split; [vm_compute; reflexivity|].
  split; [intros a; vm_compute; discriminate|].
  split; [vm_compute; reflexivity|]. intros [ | | ]; vm_compute; reflexivity.
Qed.

(* ================================================================== *)
(** ** Finite inputs *)

Lemma add_not_NaN (fmt : Format) (a b : F) :
  finite a -> finite b -> add fmt a b <> NaN.
Proof.
  destruct a, b; cbn [finite]; try tauto. intros _ _.
  apply roundTo_not_NaN.
Qed.

Lemma sub_not_NaN (fmt : Format) (a b : F) :
  finite a -> finite b -> sub fmt a b <> NaN.
Proof.
  intros Ha Hb. unfold sub. apply add_not_NaN; [exact Ha|].
  destruct b; cbn in *; tauto.
Qed.

Lemma div_not_NaN (fmt : Format) (a b : F) :
  a <> NaN -> finite b -> (b ==? f0)%F = false -> div fmt a b <> NaN.
Proof.
  intros Ha Hb Hz. destruct b as [|q| |]; cbn [finite] in Hb; try tauto.
  cbn [feqb f0] in Hz.
  destruct a as [|p| |]; try congruence; cbn [div].
  - destruct (Qsign q); discriminate.
  - rewrite Hz. apply roundTo_not_NaN.
  - destruct (Qsign q); discriminate.
Qed.

Lemma binary32_precision : (1 <= precision binary32)%Z.
Proof. discriminate. Qed.

Lemma binary64_precision : (1 <= precision binary64)%Z.
Proof. discriminate. Qed.

(** On finite inputs no entry time is a NaN. *)
Lemma sweepAxis_EntryTime_not_NaN (min1 max1 min2 max2 vel : F) :
  finite min1 -> finite max1 -> finite min2 -> finite max2 -> finite vel ->
  EntryTime (sweepAxis min1 max1 min2 max2 vel) <> NaN.
Proof.
  intros H1 H2 H3 H4 Hv. unfold sweepAxis, axisDistances.
  destruct (vel >? f0)%F; destruct (vel ==? f0)%F eqn:Hz; cbn [EntryTime];
    try (match goal with |- (if ?b then _ else _) <> _ => destruct b end;
         discriminate);
    apply div_not_NaN; try assumption;
    apply sub_not_NaN; assumption.
Qed.

Lemma axisSweep_not_NaN (a : Axis) (box1 box2 : AABB) (vel1 : vec3) :
  finite_AABB box1 -> finite_AABB box2 -> finite_vec3 vel1 ->
  EntryTime (axisSweep a box1 box2 vel1) <> NaN.
Proof.
  intros [(?&?&?) (?&?&?)] [(?&?&?) (?&?&?)] (?&?&?).
  destruct a; cbn [axisSweep]; unfold xAxis, yAxis, zAxis;
    apply sweepAxis_EntryTime_not_NaN; assumption.
Qed.

(** In the collision branch, entry times that are not NaNs have a maximum in
    [0, 1]. *)
Lemma collision_time_range (xE yE zE : F) :
  xE <> NaN -> yE <> NaN -> zE <> NaN ->
  (xE <? f0)%F && (yE <? f0)%F && (zE <? f0)%F = false ->
  (xE >? f1)%F = false -> (yE >? f1)%F = false -> (zE >? f1)%F = false ->
  exists t : Q, entryTime xE yE zE = Fin t /\ 0 <= t /\ t <= 1.
Proof.
  intros Hx Hy Hz Hneg Hx1 Hy1 Hz1.
  destruct (fmax_upper xE yE Hx Hy) as [U1 U2].
  destruct (fmax_upper (fmax xE yE) zE (fmax_not_NaN _ _ Hx Hy) Hz) as [U3 U4].
  pose proof (fle_trans _ _ _ U1 U3) as Ux.
  pose proof (fle_trans _ _ _ U2 U3) as Uy.
  fold (entryTime xE yE zE) in *.
  assert (Hhi : (entryTime xE yE zE >? f1)%F = false).
  { destruct (entryTime_cases xE yE zE) as [-> | [-> | ->]]; assumption. }
  assert (Hlo : (entryTime xE yE zE <? f0)%F = false).
  { destruct (entryTime xE yE zE <? f0)%F eqn:E; [|reflexivity].
    assert (Hall : forall u : F,
               (u <=? entryTime xE yE zE)%F = true -> (u <? f0)%F = true).
    { intros u Hu. revert Hu E. generalize (entryTime xE yE zE).
      intros m Hu E. destruct u as [|p| |], m as [|q| |];
        try discriminate; try reflexivity.
      apply fle_Fin in Hu. apply flt_Fin in E. apply flt_Fin. lra. }
    rewrite (Hall _ Ux), (Hall _ Uy), (Hall _ U4) in Hneg. discriminate. }
  assert (Hn : entryTime xE yE zE <> NaN).
  { destruct (entryTime_cases xE yE zE) as [-> | [-> | ->]]; assumption. }
  revert Hhi Hlo Hn. generalize (entryTime xE yE zE). intros m.
  destruct m as [|t| |]; cbn; try discriminate; try congruence.
  intros. exists t. q_props. split; [reflexivity | split; lra].
Qed.

Lemma SweptAABB_collision_time (box1 box2 : AABB) (vel1 normal : vec3) :
  noCollision (xAxis box1 box2 vel1) (yAxis box1 box2 vel1)
    (zAxis box1 box2 vel1) = false ->
  collisionTime (SweptAABB box1 box2 vel1 normal)
  = entryTime (EntryTime (xAxis box1 box2 vel1))
      (EntryTime (yAxis box1 box2 vel1)) (EntryTime (zAxis box1 box2 vel1)).
Proof.
  intros H. unfold SweptAABB. rewrite H.
  destruct (cascade _ _ _) as [[ | | ]|];
    repeat match goal with
      | |- context [if ?b then _ else _] => destruct b
      end; reflexivity.
Qed.

Lemma SweptAABB_no_collision (box1 box2 : AABB) (vel1 normal : vec3) :
  noCollision (xAxis box1 box2 vel1) (yAxis box1 box2 vel1)
    (zAxis box1 box2 vel1) = true ->
  SweptAABB box1 box2 vel1 normal = mk_Swept f2 f0 f0 f0.
Proof. intros H. unfold SweptAABB. now rewrite H. Qed.

(** On finite inputs the returned time is the sentinel or a time of
    [0, 1]. *)
Lemma SweptAABB_finite_time (box1 box2 : AABB) (vel1 normal : vec3) :
  finite_AABB box1 -> finite_AABB box2 -> finite_vec3 vel1 ->
  let r := SweptAABB box1 box2 vel1 normal in
  (noCollision (xAxis box1 box2 vel1) (yAxis box1 box2 vel1)
     (zAxis box1 box2 vel1) = true /\ r = mk_Swept f2 f0 f0 f0)
  \/ (noCollision (xAxis box1 box2 vel1) (yAxis box1 box2 vel1)
        (zAxis box1 box2 vel1) = false
      /\ exists t : Q, collisionTime r = Fin t /\ 0 <= t /\ t <= 1).
Proof.
  intros H1 H2 Hv r.
  destruct (noCollision _ _ _) eqn:Hno.
  - left. split; [reflexivity|]. now apply SweptAABB_no_collision.
  - right. split; [reflexivity|]. subst r.
    rewrite (SweptAABB_collision_time _ _ _ _ Hno).
    apply orb_false_elim in Hno; destruct Hno as [Hno Hz1].
    apply orb_false_elim in Hno; destruct Hno as [Hno Hy1].
    apply orb_false_elim in Hno; destruct Hno as [Hno Hx1].
    apply orb_false_elim in Hno; destruct Hno as [_ Hneg].
    apply collision_time_range; try assumption;
      [apply (axisSweep_not_NaN AxisX) | apply (axisSweep_not_NaN AxisY)
       | apply (axisSweep_not_NaN AxisZ)]; assumption.
Qed.

(* ================================================================== *)
(** ** The tunnelling scenario *)

(** The error of a [float] operation with a result below 4 in magnitude. *)
Lemma round32_error (q : Q) :
  Qabs q < 4 ->
  exists r : Q, roundTo binary32 q = Fin r /\ Qabs (r - q) <= 1 # 8388608.
Proof.
  intros H.
  destruct (roundTo_error binary32 binary32_precision q 1) as (r & Hr & He);
    [exact H | reflexivity | reflexivity |].
  exists r. split; [exact Hr|].
  eapply Qle_trans; [exact He|]. vm_compute. discriminate.
Qed.

Lemma Qabs_bound (x y : Q) : Qabs x <= y <-> - y <= x /\ x <= y.
Proof. apply Qabs_Qle_condition. Qed.

(** Quotient of a rounded distance by the displacement of the scenario. *)
Lemma quotient_near (p target : Q) (forward : bool) :
  let v := if forward then 5 else - 5 in
  Qabs p < 4 ->
  Qabs (p - target * v) <= 21 # 10000 ->
  exists t : Q,
    (roundTo binary32 p / Fin v)%F = Fin t /\ Qabs (t - target) <= 1 # 2000.
Proof.
  intros v Hp Hpt.
  destruct (round32_error p Hp) as (d & -> & Hd).
  apply Qabs_bound in Hd, Hpt.
  assert (Hp' : - (4) < p /\ p < 4) by now apply Qabs_Qlt_condition.
  cbn [fdiv div].
  assert (Hv : Qeq_bool v 0 = false) by (subst v; destruct forward; reflexivity).
  rewrite Hv.
  assert (Hq : d / v == d * (if forward then 1 # 5 else - 1 # 5)).
  { subst v. destruct forward; field. }
  assert (Hbound : Qabs (d / v) < 4).
  { rewrite Hq. apply Qabs_case; intros _; destruct forward; lra. }
  destruct (round32_error (d / v) Hbound) as (t & -> & Ht).
  exists t. split; [reflexivity|].
  rewrite Hq in Ht. apply Qabs_bound in Ht. apply Qabs_bound.
  subst v. destruct forward; lra.
Qed.

(** The moving axis of the scenario: the entry time is within 0.0005 of 0.36
    and the exit time within 0.0005 of 0.44. *)
Lemma sweepAxis_approach (lo1 hi1 lo2 hi2 : Q) (forward : bool) :
  Qabs (hi1 - lo1 - 0.2) <= tolerance ->
  Qabs (hi2 - lo2 - 0.2) <= tolerance ->
  Qabs ((1 # 2) * (lo2 + hi2) - (1 # 2) * (lo1 + hi1)
        - (if forward then 2.0 else - 2.0)) <= tolerance ->
  exists t u : Q,
    EntryTime (sweepAxis (Fin lo1) (Fin hi1) (Fin lo2) (Fin hi2)
                 (Fin (if forward then 5 else - 5))) = Fin t
    /\ ExitTime (sweepAxis (Fin lo1) (Fin hi1) (Fin lo2) (Fin hi2)
                   (Fin (if forward then 5 else - 5))) = Fin u
    /\ Qabs (t - 0.36) <= 1 # 2000 /\ Qabs (u - 0.44) <= 1 # 2000.
Proof.
  unfold tolerance. intros H1 H2 Hc.
  apply Qabs_bound in H1, H2, Hc.
  unfold sweepAxis, axisDistances.
  destruct forward.
  - change (Fin 5 >? f0)%F with true. change (Fin 5 ==? f0)%F with false.
    cbn [EntryTime ExitTime fsub sub add fopp].
    destruct (quotient_near (lo2 + - hi1) 0.36 true) as (t & Ht & Et);
      [apply Qabs_case; intros _; lra | apply Qabs_bound; lra |].
    destruct (quotient_near (hi2 + - lo1) 0.44 true) as (u & Hu & Eu);
      [apply Qabs_case; intros _; lra | apply Qabs_bound; lra |].
    exists t, u. repeat split; assumption.
  - change (Fin (- 5) >? f0)%F with false. change (Fin (- 5) ==? f0)%F with false.
    cbn [EntryTime ExitTime fsub sub add fopp].
    destruct (quotient_near (hi2 + - lo1) 0.36 false) as (t & Ht & Et);
      [apply Qabs_case; intros _; lra | apply Qabs_bound; lra |].
    destruct (quotient_near (lo2 + - hi1) 0.44 false) as (u & Hu & Eu);
      [apply Qabs_case; intros _; lra | apply Qabs_bound; lra |].
    exists t, u. repeat split; assumption.
Qed.

(** An axis of the scenario on which the boxes are aligned and nothing
    moves: the test of line 128 fails. *)
Lemma sweepAxis_aligned (lo hi : Q) :
  Qabs (hi - lo - 0.2) <= tolerance ->
  EntryTime (sweepAxis (Fin lo) (Fin hi) (Fin lo) (Fin hi) f0) = NegInf
  /\ ExitTime (sweepAxis (Fin lo) (Fin hi) (Fin lo) (Fin hi) f0) = PosInf.
Proof.
  unfold tolerance. intros H. apply Qabs_bound in H.
  unfold sweepAxis, axisDistances.
  change (f0 >? f0)%F with false. change (f0 ==? f0)%F with true.
  cbn [EntryTime ExitTime fsub sub add fopp]. split; [|reflexivity].
  destruct (round32_error (hi + - lo)) as (w & -> & Hw);
    [apply Qabs_case; intros _; lra|].
  destruct (round32_error (lo + - hi)) as (w' & -> & Hw');
    [apply Qabs_case; intros _; lra|].
  apply Qabs_bound in Hw, Hw'.
  cbn [fadd add].
  destruct (round32_error (w + w)) as (e & -> & He);
    [apply Qabs_case; intros _; lra|].
  apply Qabs_bound in He.
  assert (E : (fmax (fabsf (Fin w)) (fabsf (Fin w')) >? Fin e)%F = false).
  { unfold fgt, fmax. cbn [fabsf flt].
    destruct (Qlt_bool (Qabs w) (Qabs w')); cbn [flt]; q_props;
      apply Qabs_case; intros _; lra. }
  now rewrite E.
Qed.

Lemma component_tunnelDisplacement (a b : Axis) (forward : bool) :
  component b (tunnelDisplacement a forward)
  = if Axis_eqb a b then Fin (if forward then 5 else - 5) else f0.
Proof. destruct a, b, forward; reflexivity. Qed.

(** One axis enters at [t] in [0, 1] and leaves later, the other two are
    flagged with minus infinity: the collision branch, with time [t]. *)
Lemma SweptAABB_single_axis
  (a : Axis) (box1 box2 : AABB) (vel1 normal : vec3) (t u : Q) :
  EntryTime (axisSweep a box1 box2 vel1) = Fin t ->
  ExitTime (axisSweep a box1 box2 vel1) = Fin u ->
  0 <= t -> t <= 1 -> t <= u ->
  (forall b : Axis, Axis_eqb a b = false ->
     EntryTime (axisSweep b box1 box2 vel1) = NegInf
     /\ ExitTime (axisSweep b box1 box2 vel1) = PosInf) ->
  noCollision (xAxis box1 box2 vel1) (yAxis box1 box2 vel1)
    (zAxis box1 box2 vel1) = false
  /\ collisionTime (SweptAABB box1 box2 vel1 normal) = Fin t.
Proof.
  intros He Hx H0 H1 Hu Hoth.
  assert (Hno : noCollision (xAxis box1 box2 vel1) (yAxis box1 box2 vel1)
                  (zAxis box1 box2 vel1) = false
                /\ entryTime (EntryTime (xAxis box1 box2 vel1))
                     (EntryTime (yAxis box1 box2 vel1))
                     (EntryTime (zAxis box1 box2 vel1)) = Fin t).
  { unfold noCollision, entryTime, exitTime, fmax, fmin, fgt.
    destruct a; cbn [axisSweep] in He, Hx;
      [destruct (Hoth AxisY eq_refl) as [E1 X1], (Hoth AxisZ eq_refl) as [E2 X2]
      |destruct (Hoth AxisX eq_refl) as [E1 X1], (Hoth AxisZ eq_refl) as [E2 X2]
      |destruct (Hoth AxisX eq_refl) as [E1 X1], (Hoth AxisY eq_refl) as [E2 X2]];
      cbn [axisSweep] in E1, X1, E2, X2;
      rewrite He, Hx, E1, X1, E2, X2; cbn [flt f0 f1 orb andb];
      assert (G1 : Qlt_bool u t = false) by (q_props; lra);
      assert (G2 : Qlt_bool t 0 = false) by (q_props; lra);
      assert (G3 : Qlt_bool 1 t = false) by (q_props; lra);
      rewrite ?G1, ?G2, ?G3; cbn [orb andb];
      split; reflexivity. }
  destruct Hno as [Hno Ht]. split; [exact Hno|].
  now rewrite (SweptAABB_collision_time _ _ _ _ Hno).
Qed.

(** C3, as amended: in the tunnelling scenario, for boxes anywhere, along any
    of the three axes and in either direction (two boxes of half-extent 0.1,
    the stationary one's centre 2.0 away along the axis, the other axes
    aligned, the displacement 5.0 towards it), [SweptAABB] takes the
    collision branch and returns a time within 0.001 of
    (2.0 - 0.2) / 5.0 = 0.36, not the sentinel. *)
Theorem SweptAABB_tunnelling
  (a : Axis) (forward : bool) (box1 box2 : AABB) (normal : vec3) :
  tunnelScenario a forward box1 box2 ->
  let vel1 := tunnelDisplacement a forward in
  let r := SweptAABB box1 box2 vel1 normal in
  noCollision (xAxis box1 box2 vel1) (yAxis box1 box2 vel1)
    (zAxis box1 box2 vel1) = false
  /\ approx (collisionTime r) ((2.0 - 0.2) / 5.0) tolerance
  /\ approx (collisionTime r) 0.36 tolerance
  /\ ~ feq (collisionTime r) f2.
Proof.
  intros Hsc vel1 r.
  assert (Hmove : exists t u : Q,
             EntryTime (axisSweep a box1 box2 vel1) = Fin t
             /\ ExitTime (axisSweep a box1 box2 vel1) = Fin u
             /\ Qabs (t - 0.36) <= 1 # 2000 /\ Qabs (u - 0.44) <= 1 # 2000).
  { destruct (Hsc a) as (lo1 & hi1 & lo2 & hi2 & E1 & E2 & E3 & E4 & H1 & H2 & Hc).
    rewrite axisSweep_unfold, E1, E2, E3, E4.
    subst vel1. rewrite component_tunnelDisplacement.
    assert (Haa : Axis_eqb a a = true) by (destruct a; reflexivity).
    rewrite Haa in Hc |- *.
    now apply sweepAxis_approach. }
  assert (Hrest : forall b : Axis, Axis_eqb a b = false ->
             EntryTime (axisSweep b box1 box2 vel1) = NegInf
             /\ ExitTime (axisSweep b box1 box2 vel1) = PosInf).
  { intros b Hab.
    destruct (Hsc b) as (lo1 & hi1 & lo2 & hi2 & E1 & E2 & E3 & E4 & H1 & H2 & Hc).
    rewrite Hab in Hc. destruct Hc as [-> ->].
    rewrite axisSweep_unfold, E1, E2, E3, E4.
    subst vel1. rewrite component_tunnelDisplacement, Hab.
    now apply sweepAxis_aligned. }
  destruct Hmove as (t & u & Ht & Hu & Et & Eu).
  apply Qabs_bound in Eu. pose proof Et as Et'. apply Qabs_bound in Et'.
  destruct (SweptAABB_single_axis a box1 box2 vel1 normal t u Ht Hu)
    as [Hno Hr]; try lra; [exact Hrest|].
  split; [exact Hno|]. subst r. rewrite Hr. unfold approx, tolerance.
  split; [|split].
  - setoid_replace ((2.0 - 0.2) / 5.0) with 0.36 by reflexivity.
    apply Qabs_bound. lra.
  - apply Qabs_bound. lra.
  - cbn. lra.
Qed.

Lemma SweptAABB_tunnelling_witness :
  tunnelScenario AxisY false tunnelMovingAt (tunnelStationaryAt AxisY false)
  /\ approx (collisionTime
               (SweptAABB tunnelMovingAt (tunnelStationaryAt AxisY false)
                  (tunnelDisplacement AxisY false) sevens))
       0.36 tolerance.
Proof.
  assert (H : tunnelScenario AxisY false tunnelMovingAt
                (tunnelStationaryAt AxisY false)).
  { intros [ | | ]; do 4 eexists;
      (split; [vm_compute; reflexivity|]);
      (split; [vm_compute; reflexivity|]);
      (split; [vm_compute; reflexivity|]);
      (split; [vm_compute; reflexivity|]);
      vm_compute; repeat split; discriminate. }
  split; [exact H|].
  apply (SweptAABB_tunnelling AxisY false tunnelMovingAt
           (tunnelStationaryAt AxisY false) sevens H).
Defined.

(** C3 as stated fails: the time returned in the tunnelling scenario is not
    within 0.01 of 0.38.  ((2.0 - 0.2) / 5.0 is 0.36.) *)
Lemma SweptAABB_tunnelling_counterexample :
  tunnelScenario AxisX true tunnelMoving (tunnelStationary AxisX true)
  /\ ~ approx (collisionTime
                 (SweptAABB tunnelMoving (tunnelStationary AxisX true)
                    (tunnelDisplacement AxisX true) vzero))
         0.38 0.01.
Proof.
  split.
  - intros [ | | ]; do 4 eexists;
      (split; [vm_compute; reflexivity|]);
      (split; [vm_compute; reflexivity|]);
      (split; [vm_compute; reflexivity|]);
      (split; [vm_compute; reflexivity|]);
      vm_compute; repeat split; discriminate.
  - vm_compute. intros H. apply H. reflexivity.
Qed.


(* ================================================================== *)
(** ** One tick: [update] *)

Section Tick.

Variable Orientation : Type.
Variable rotated : vec3 -> Orientation -> Orientation.
Variable boundsOf : Orientation -> vec3 -> AABB.
Variable radians : F -> F.
Variable indeterminate : nat -> vec3.

Local Abbreviation tick := (update rotated boundsOf radians indeterminate).
Local Abbreviation State' := (State Orientation).
Local Abbreviation rotation' := (rotation radians).

Lemma exec_bind {A B : Type} (m : Sim Orientation A)
  (k : A -> Sim Orientation B) (s : State') :
  exec (bind m k) s = exec (k (fst (m s))) (exec m s).
Proof. reflexivity. Qed.

Lemma fst_bind {A B : Type} (m : Sim Orientation A)
  (k : A -> Sim Orientation B) (s : State') :
  fst (bind m k s) = fst (k (fst (m s)) (exec m s)).
Proof. reflexivity. Qed.

Lemma exec_when (b : bool) (m : Sim Orientation unit) (s : State') :
  exec (when b m) s = if b then exec m s else s.
Proof. destruct b; reflexivity. Qed.

(** The state after the boundary check of lines 272-290. *)
Lemma boundaryCheck_exec (s : State') :
  exec boundaryCheck s
  = mk_State (obj1 s)
      (mk_GameObject (position (obj2 s))
         (reflected (position (obj2 s)) (velocity (obj2 s)))
         (orientation (obj2 s)) (aabb (obj2 s)))
      (frame s) (time s) (timebase s) (accumulator s) (fps s) (FPSTime s)
      (calls s ++ reflectCalls (position (obj2 s)) (velocity (obj2 s)))
      (updates s).
Proof.
  unfold boundaryCheck.
  repeat (rewrite exec_bind; cbv beta). rewrite !exec_when.
  repeat (rewrite exec_bind; cbv beta).
  destruct s as [o1 [p2 v2 r2 b2] fr ti tb ac fp ft cs up].
  unfold reflected, reflectCalls, reflectCall, reflectAxis.
  cbv [GetPosition exec fst snd get_obj obj2 position component].
  destruct (fabsf (x p2) >? x boundary)%F, (fabsf (y p2) >? y boundary)%F,
    (fabsf (z p2) >? z boundary)%F;
    cbv [exec SetVelocity GetVelocity fst snd log set_obj get_obj
         obj1 obj2 frame time timebase accumulator fps FPSTime calls updates
         position velocity orientation aabb x y z];
    rewrite <- ?app_assoc, ?app_nil_r; reflexivity.
Qed.

(** The state in which the response of lines 313-353 starts. *)
Lemma update_exec (dt : F) (s : State') :
  exec (tick dt) s
  = exec (respond dt (tickSweep rotated boundsOf radians indeterminate dt s))
      (mk_State
         (recalculated rotated boundsOf radians (obj1 s))
         (mk_GameObject (position (obj2 s)) (tickVelocity s)
            (rotated rotation' (orientation (obj2 s)))
            (boundsOf (rotated rotation' (orientation (obj2 s)))
               (position (obj2 s))))
         (frame s) (time s) (timebase s) (accumulator s) (fps s) (FPSTime s)
         (calls s ++ tickCalls rotated boundsOf radians dt s)
         (S (updates s))).
Proof.
  unfold update.
  repeat (rewrite exec_bind; cbv beta).
  rewrite boundaryCheck_exec.
  destruct s as [[p1 v1 r1 b1] [p2 v2 r2 b2] fr ti tb ac fp ft cs up].
  unfold tickSweep, tickCalls, tickVelocity, recalculated.
  cbv [exec enter_update Rotate CalculateAABB call_SweptAABB GetAABB
       GetVelocity bind fst snd log set_obj get_obj set_updates
       obj1 obj2 frame time timebase accumulator fps FPSTime calls updates
       position velocity orientation aabb].
  rewrite <- !app_assoc. reflexivity.
Qed.

(** The two branches of the response of lines 313-353. *)
Lemma respond_exec (dt : F) (r : Swept) (s : State') :
  let t := collisionTime r in
  let remainingTime := (f1 - t)%F in
  let bounce := bounced (velocity (obj2 s)) (normalx r) (normaly r) (normalz r) in
  exec (respond dt r) s
  = if (remainingTime >=? f0)%F then
      mk_State
        (mk_GameObject
           (vadd (vadd (position (obj1 s)) (vscale (velocity (obj1 s)) (t * dt)%F))
              (vscale (velocity (obj1 s)) (remainingTime * dt)%F))
           (velocity (obj1 s)) (orientation (obj1 s)) (aabb (obj1 s)))
        (mk_GameObject
           (vadd (vadd (position (obj2 s)) (vscale (velocity (obj2 s)) (t * dt)%F))
              (vscale bounce (remainingTime * dt)%F))
           bounce (orientation (obj2 s)) (aabb (obj2 s)))
        (frame s) (time s) (timebase s) (accumulator s) (fps s) (FPSTime s)
        (calls s
         ++ [Call_Update Obj1 (t * dt)%F; Call_Update Obj2 (t * dt)%F;
             Call_SetVelocity Obj2 bounce;
             Call_Update Obj1 (remainingTime * dt)%F;
             Call_Update Obj2 (remainingTime * dt)%F])
        (updates s)
    else
      mk_State
        (mk_GameObject
           (vadd (position (obj1 s)) (vscale (velocity (obj1 s)) dt))
           (velocity (obj1 s)) (orientation (obj1 s)) (aabb (obj1 s)))
        (mk_GameObject
           (vadd (position (obj2 s)) (vscale (velocity (obj2 s)) dt))
           (velocity (obj2 s)) (orientation (obj2 s)) (aabb (obj2 s)))
        (frame s) (time s) (timebase s) (accumulator s) (fps s) (FPSTime s)
        (calls s ++ [Call_Update Obj1 dt; Call_Update Obj2 dt])
        (updates s).
Proof.
  intros t remainingTime bounce. unfold respond. fold t remainingTime.
  destruct (remainingTime >=? f0)%F.
  - repeat (rewrite exec_bind; cbv beta).
    destruct s as [[p1 v1 r1 b1] [p2 v2 r2 b2] fr ti tb ac fp ft cs up].
    subst bounce.
    cbv [exec Update SetVelocity GetVelocity bind fst snd log set_obj get_obj
         obj1 obj2 frame time timebase accumulator fps FPSTime calls updates
         position velocity orientation aabb].
    rewrite <- !app_assoc. reflexivity.
  - repeat (rewrite exec_bind; cbv beta).
    destruct s as [[p1 v1 r1 b1] [p2 v2 r2 b2] fr ti tb ac fp ft cs up].
    cbv [exec Update bind fst snd log set_obj get_obj
         obj1 obj2 frame time timebase accumulator fps FPSTime calls updates
         position velocity orientation aabb].
    rewrite <- !app_assoc. reflexivity.
Qed.

(** *** The bounce *)

Lemma feq_refl (a : F) : feq a a.
Proof. destruct a; cbn; auto. reflexivity. Qed.

Lemma veq_refl (v : vec3) : veq v v.
Proof. repeat split; apply feq_refl. Qed.

Lemma reflected_inside (s : State') :
  insideBoundary s -> tickVelocity s = velocity (obj2 s).
Proof.
  intros H. unfold tickVelocity, reflected, reflectAxis.
  rewrite (H AxisX), (H AxisY), (H AxisZ). reflexivity.
Qed.

Lemma fmul_fm1 (a : F) : isFloat a -> (a * fm1)%F = (- a)%F.
Proof.
  destruct a as [|q| |]; try reflexivity. unfold isFloat. cbn [representable].
  intros H. cbn [fmul mul fm1 fopp].
  match goal with
  | |- roundTo _ ?e = _ => rewrite (roundTo_comp binary32 e (- q)) by ring
  end.
  now rewrite roundTo_opp, H.
Qed.

Lemma fm1_fmul (a : F) : isFloat a -> (fm1 * a)%F = (- a)%F.
Proof.
  destruct a as [|q| |]; try reflexivity. unfold isFloat. cbn [representable].
  intros H. cbn [fmul mul fm1 fopp].
  match goal with
  | |- roundTo _ ?e = _ => rewrite (roundTo_comp binary32 e (- q)) by ring
  end.
  now rewrite roundTo_opp, H.
Qed.

Lemma isFloat_fopp (a : F) : isFloat a -> isFloat (- a)%F.
Proof.
  destruct a as [|q| |]; try exact (fun _ => I). unfold isFloat.
  cbn [representable fopp]. intros H. now rewrite roundTo_opp, H.
Qed.

Lemma fopp_square (a : F) : (- a * - a)%F = (a * a)%F.
Proof.
  destruct a as [|q| |]; try reflexivity.
  cbn [fmul mul fopp]. apply roundTo_comp. ring.
Qed.

Lemma bounced_components (v : vec3) (nx ny nz : F) (a : Axis) :
  component a (bounced v nx ny nz)
  = if (fabsf (component a (mk_vec3 nx ny nz)) >? epsilon)%F
    then (component a v * fm1)%F else component a v.
Proof.
  unfold bounced.
  destruct (fabsf nx >? epsilon)%F eqn:Hx, (fabsf ny >? epsilon)%F eqn:Hy,
    (fabsf nz >? epsilon)%F eqn:Hz, a;
    cbn [component x y z]; rewrite ?Hx, ?Hy, ?Hz; reflexivity.
Qed.

Lemma flipped_refl (v : vec3) : flipped v v.
Proof. unfold flipped. auto. Qed.

Lemma flipped_trans (u v w : vec3) : flipped u v -> flipped v w -> flipped u w.
Proof.
  unfold flipped.
  intros ([-> | ->] & [-> | ->] & [-> | ->]) ([-> | ->] & [-> | ->] & [-> | ->]);
    rewrite ?fopp_involutive; auto.
Qed.

Lemma flipped_dot (v v' : vec3) : flipped v v' -> dot v' v' = dot v v.
Proof.
  unfold flipped, dot.
  intros ([-> | ->] & [-> | ->] & [-> | ->]); rewrite ?fopp_square; reflexivity.
Qed.

Lemma flipped_float (v v' : vec3) : flipped v v' -> float_vec3 v -> float_vec3 v'.
Proof.
  unfold flipped, float_vec3.
  intros ([-> | ->] & [-> | ->] & [-> | ->]) (Hx & Hy & Hz);
    repeat split; try assumption; now apply isFloat_fopp.
Qed.

Lemma bounced_flipped (v : vec3) (nx ny nz : F) :
  float_vec3 v -> flipped v (bounced v nx ny nz).
Proof.
  intros (Hx & Hy & Hz). unfold bounced, flipped.
  destruct (fabsf nx >? epsilon)%F, (fabsf ny >? epsilon)%F,
    (fabsf nz >? epsilon)%F;
    cbn [x y z]; rewrite ?fmul_fm1 by assumption; auto.
Qed.

Lemma reflected_flipped (pos vel : vec3) :
  float_vec3 vel -> flipped vel (reflected pos vel).
Proof.
  intros (Hx & Hy & Hz). unfold reflected, reflectAxis, flipped.
  destruct (fabsf (component AxisX pos) >? component AxisX boundary)%F,
    (fabsf (component AxisY pos) >? component AxisY boundary)%F,
    (fabsf (component AxisZ pos) >? component AxisZ boundary)%F;
    cbn [x y z]; rewrite ?fm1_fmul by assumption; auto.
Qed.

Lemma bounced_dot (v : vec3) (nx ny nz : F) :
  float_vec3 v -> dot (bounced v nx ny nz) (bounced v nx ny nz) = dot v v.
Proof. intros H. now apply flipped_dot, bounced_flipped. Qed.

(** C7: in the collision branch of a tick whose boundary check reflects
    nothing, each velocity component of the moving body whose normal
    component has magnitude greater than 0.0001 is multiplied by -1, that is,
    has its sign flipped (exactly: the velocity holds numbers of [float]), the
    other components are unchanged, and the norm of the velocity after the
    tick is exactly the norm before it. *)
Theorem update_bounce_preserves_speed
  (sqrt : F -> F) (dt : F) (s : State') :
  let r := tickSweep rotated boundsOf radians indeterminate dt s in
  let v := velocity (obj2 s) in
  let v' := velocity (obj2 (exec (tick dt) s)) in
  float_vec3 v ->
  insideBoundary s ->
  (f1 - collisionTime r >=? f0)%F = true ->
  (forall a : Axis,
      component a v'
      = if (fabsf (component a (normalOf r)) >? epsilon)%F
        then (component a v * fm1)%F else component a v)
  /\ (forall a : Axis, feq (component a v * fm1)%F (- component a v)%F)
  /\ dot v' v' = dot v v
  /\ norm sqrt v' = norm sqrt v.
Proof.
  intros r v v' Hfloat Hin Hbranch.
  assert (Hv' : v' = bounced v (normalx r) (normaly r) (normalz r)).
  { subst v'. rewrite update_exec, respond_exec. fold r.
    rewrite Hbranch. cbn [obj2 velocity].
    rewrite (reflected_inside s Hin). reflexivity. }
  rewrite Hv'. unfold norm. rewrite (bounced_dot _ _ _ _ Hfloat).
  repeat split.
  - intros a. apply bounced_components.
  - intros a. rewrite fmul_fm1; [apply feq_refl|].
    destruct Hfloat as (Hx & Hy & Hz). destruct a; assumption.
Qed.

(** *** The order of the steps of a tick *)

(** C8, as amended: each tick performs its steps in the order: (c) the
    world-boundary check, which reflects the moving body's velocity along each
    axis, x then y then z, on which the magnitude of its position exceeds the
    extent (0.9, 0.8, 1.0); then (a) the fixed rotation of both bodies; then
    (b) the recomputation of both boxes; then (d) the call of [SweptAABB] with
    the moving body's box first, the stationary body's box second and the
    moving body's velocity, as the boundary check left it, times [dt] as
    displacement; then the integration calls of the response. *)
Theorem update_call_order (dt : F) (s : State') :
  let pos := position (obj2 s) in
  let vel := velocity (obj2 s) in
  let r := tickSweep rotated boundsOf radians indeterminate dt s in
  boundary = mk_vec3 (float 0.9) (float 0.8) (float 1.0)
  /\ (forall (a : Axis) (v : vec3),
         reflectCall a pos v
         = if (fabsf (component a pos) >? component a boundary)%F
           then [Call_SetVelocity Obj2 (reflectAxis a pos v)] else [])
  /\ calls (exec (tick dt) s)
     = calls s
       ++ [Call_update dt]
       ++ (reflectCall AxisX pos vel
           ++ reflectCall AxisY pos (reflectAxis AxisX pos vel)
           ++ reflectCall AxisZ pos
                (reflectAxis AxisY pos (reflectAxis AxisX pos vel)))
       ++ [Call_Rotate Obj1 rotation';
           Call_Rotate Obj2 rotation';
           Call_CalculateAABB Obj1;
           Call_CalculateAABB Obj2;
           Call_SweptAABB
             (boundsOf (rotated rotation' (orientation (obj2 s))) pos)
             (boundsOf (rotated rotation' (orientation (obj1 s)))
                (position (obj1 s)))
             (vscale (reflected pos vel) dt)]
       ++ (if (f1 - collisionTime r >=? f0)%F
           then [Call_Update Obj1 (collisionTime r * dt)%F;
                 Call_Update Obj2 (collisionTime r * dt)%F;
                 Call_SetVelocity Obj2
                   (bounced (reflected pos vel)
                      (normalx r) (normaly r) (normalz r));
                 Call_Update Obj1 ((f1 - collisionTime r) * dt)%F;
                 Call_Update Obj2 ((f1 - collisionTime r) * dt)%F]
           else [Call_Update Obj1 dt; Call_Update Obj2 dt]).
Proof.
  intros pos vel r. split; [reflexivity|]. split; [reflexivity|].
  rewrite update_exec, respond_exec. fold r.
  destruct (f1 - collisionTime r >=? f0)%F; cbn [calls obj2 velocity];
    unfold tickCalls, reflectCalls, tickVelocity, recalculated; cbn [aabb];
    fold pos vel; rewrite <- !app_assoc; reflexivity.
Qed.

(** *** The stationary body *)

(** Multiplication by a number of [0, 1] keeps a finite number of [float]
    finite. *)
Lemma fle_finite_between (a : F) (lo hi : Q) :
  (Fin lo <=? a)%F = true -> (a <=? Fin hi)%F = true ->
  exists q : Q, a = Fin q /\ lo <= q /\ q <= hi.
Proof.
  destruct a as [|q| |]; try discriminate.
  rewrite !fle_Fin. intros H1 H2. exists q. auto.
Qed.

Lemma fmul_fraction (t d : Q) :
  0 <= t -> t <= 1 -> isFloat (Fin d) -> finite (Fin t * Fin d)%F.
Proof.
  intros H0 H1 Hd. unfold isFloat in Hd. cbn [representable] in Hd.
  cbn [fmul mul].
  assert (Hlo : - Qabs d <= t * d /\ t * d <= Qabs d).
  { apply Qabs_case; intros Hs; split; nra. }
  assert (Habs : roundTo binary32 (Qabs d) = Fin (Qabs d)).
  { apply Qabs_case; intros _; [exact Hd|]. now rewrite roundTo_opp, Hd. }
  pose proof (roundTo_mono binary32 binary32_precision _ _ (proj2 Hlo)) as Hhi.
  pose proof (roundTo_mono binary32 binary32_precision _ _ (proj1 Hlo)) as Hlo'.
  rewrite Habs in Hhi. rewrite roundTo_opp, Habs in Hlo'. cbn [fopp] in Hlo'.
  destruct (fle_finite_between _ _ _ Hlo' Hhi) as (q & -> & _). exact I.
Qed.

Lemma fsub_fraction (t : Q) :
  0 <= t -> t <= 1 ->
  exists r : Q, (f1 - Fin t)%F = Fin r /\ 0 <= r /\ r <= 1.
Proof.
  intros H0 H1. cbn [fsub sub add fopp f1].
  assert (Hlo : 0 <= 1 + - t) by lra.
  assert (Hhi : 1 + - t <= 1) by lra.
  apply (roundTo_mono binary32 binary32_precision) in Hlo, Hhi.
  change (roundTo binary32 0) with (Fin 0) in Hlo.
  change (roundTo binary32 1) with (Fin 1) in Hhi.
  exact (fle_finite_between _ _ _ Hlo Hhi).
Qed.

(** A body at rest is not moved by an integration over a finite time. *)
Lemma vadd_vscale_zero (p : vec3) (dt : F) :
  finiteFloat_vec3 p -> finite dt -> vadd p (vscale vzero dt) = p.
Proof.
  intros ([Fx Rx] & [Fy Ry] & [Fz Rz]) Hdt.
  destruct p as [[|px| |] [|py| |] [|pz| |]]; cbn [x y z finite] in *;
    try contradiction.
  destruct dt as [|d| |]; cbn [finite] in Hdt; try contradiction.
  unfold isFloat in *. cbn [representable] in *.
  unfold vadd, vscale, vzero. cbn [x y z fadd add fmul mul f0].
  rewrite (roundTo_zero binary32 (0 * d)) by ring.
  rewrite (roundTo_comp binary32 (px + 0) px), (roundTo_comp binary32 (py + 0) py),
    (roundTo_comp binary32 (pz + 0) pz) by ring.
  now rewrite Rx, Ry, Rz.
Qed.


Lemma round32_near (q : Q) :
  Qabs q < 4 ->
  exists r : Q, roundTo binary32 q = Fin r
    /\ - (1 # 8388608) <= r - q /\ r - q <= 1 # 8388608.
Proof.
  intros H. destruct (round32_error q H) as (r & Hr & He).
  apply Qabs_bound in He. exists r. tauto.
Qed.

Lemma product_bound (u w bu bw : Q) :
  - bu <= u -> u <= bu -> - bw <= w -> w <= bw ->
  - (bu * bw) <= u * w /\ u * w <= bu * bw.
Proof. intros. split; nra. Qed.

(** The two partial integrations against the single one, on one component:
    nine roundings of at most 2^-23 each. *)
Lemma integration_near (p v d t : Q) :
  Qabs p <= 1 -> Qabs v <= 1 -> 0 <= d -> d <= 1 -> 0 <= t -> t <= 1 ->
  near ((Fin p + Fin v * (Fin t * Fin d)) + Fin v * ((f1 - Fin t) * Fin d))%F
       (Fin p + Fin v * Fin d)%F (9 # 8388608).
Proof.
  intros Hp Hv Hd0 Hd1 Ht0 Ht1.
  apply Qabs_bound in Hp, Hv.
  set (e := 1 # 8388608) in *.
  assert (He : e == 1 # 8388608) by reflexivity.
  assert (Hd : - (1) <= d /\ d <= 1) by (split; lra).
  cbn [fadd fsub fmul add sub mul fopp f1].
  assert (Htd : 0 <= t * d /\ t * d <= 1) by (split; nra).
  destruct (round32_near (t * d)) as (a & -> & Ha0 & Ha1);
    [apply Qabs_Qlt_condition; lra|].
  cbn [fmul mul].
  destruct (product_bound v a 1 (1 + e)) as [Hva0 Hva1]; try lra.
  destruct (round32_near (v * a)) as (b & -> & Hb0 & Hb1);
    [apply Qabs_Qlt_condition; lra|].
  cbn [fadd add fmul mul].
  destruct (round32_near (p + b)) as (c & -> & Hc0 & Hc1);
    [apply Qabs_Qlt_condition; lra|].
  destruct (round32_near (1 + - t)) as (u & -> & Hu0 & Hu1);
    [apply Qabs_Qlt_condition; lra|].
  cbn [fmul mul].
  destruct (product_bound u d (1 + e) 1) as [Hud0 Hud1]; try lra.
  destruct (round32_near (u * d)) as (w & -> & Hw0 & Hw1);
    [apply Qabs_Qlt_condition; lra|].
  cbn [fmul mul].
  destruct (product_bound v w 1 (1 + 2 * e)) as [Hvw0 Hvw1]; try lra.
  destruct (round32_near (v * w)) as (g & -> & Hg0 & Hg1);
    [apply Qabs_Qlt_condition; lra|].
  cbn [fadd add fmul mul].
  destruct (round32_near (c + g)) as (k & -> & Hk0 & Hk1);
    [apply Qabs_Qlt_condition; lra|].
  destruct (product_bound v d 1 1) as [Hvd0 Hvd1]; try lra.
  destruct (round32_near (v * d)) as (h & -> & Hh0 & Hh1);
    [apply Qabs_Qlt_condition; lra|].
  cbn [fadd add fmul mul].
  destruct (round32_near (p + h)) as (m & -> & Hm0 & Hm1);
    [apply Qabs_Qlt_condition; lra|].
  cbn [near]. apply Qabs_bound.
  destruct (product_bound (u - (1 + - t)) d e 1) as [Hs0 Hs1]; try lra.
  destruct (product_bound v (a + w - d) 1 (3 * e)) as [Hkey0 Hkey1]; lra.
Qed.

Lemma integration_finite (p v d : Q) :
  Qabs p <= 1 -> Qabs v <= 1 -> 0 <= d -> d <= 1 ->
  exists m : Q, (Fin p + Fin v * Fin d)%F = Fin m.
Proof.
  intros Hp Hv Hd0 Hd1. apply Qabs_bound in Hp, Hv.
  cbn [fadd fmul add mul].
  destruct (product_bound v d 1 1) as [Hvd0 Hvd1]; try lra.
  destruct (round32_near (v * d)) as (h & -> & Hh0 & Hh1);
    [apply Qabs_Qlt_condition; lra|].
  cbn [fadd add].
  destruct (round32_near (p + h)) as (m & -> & _);
    [apply Qabs_Qlt_condition; lra|].
  now exists m.
Qed.

Lemma near_refl (a : F) (tol : Q) : finite a -> 0 <= tol -> near a a tol.
Proof.
  destruct a as [|q| |]; cbn [near finite]; try tauto. intros _ H.
  apply Qabs_bound. lra.
Qed.

(** C10, as amended: no tick modifies the velocity of the stationary body
    [obj1]; in the collision branch its position is advanced by
    [velocity * (collisionTime * dt)] and then by
    [velocity * ((1 - collisionTime) * dt)], in the no-collision branch by
    [velocity * dt].  For a body at rest, on finite numbers, the position is
    the same in both branches: it is unchanged.  For a body in motion the
    two branches agree up to the rounding of the nine [float] operations:
    with position and velocity components of magnitude at most 1 and a time
    step in [0, 1], each component of the new position is within 9 * 2^-23
    of the one the single integration by [dt] gives. *)
Theorem update_stationary_motion (dt : F) (s : State') :
  let r := tickSweep rotated boundsOf radians indeterminate dt s in
  let s' := exec (tick dt) s in
  let p := position (obj1 s) in
  let v := velocity (obj1 s) in
  velocity (obj1 s') = v
  /\ ((f1 - collisionTime r >=? f0)%F = true ->
      position (obj1 s')
      = vadd (vadd p (vscale v (collisionTime r * dt)%F))
          (vscale v ((f1 - collisionTime r) * dt)%F))
  /\ ((f1 - collisionTime r >=? f0)%F = false ->
      position (obj1 s') = vadd p (vscale v dt))
  /\ (finiteTick rotated boundsOf radians dt s -> v = vzero ->
      position (obj1 s') = p /\ vadd p (vscale v dt) = p)
  /\ (finiteTick rotated boundsOf radians dt s ->
      (forall b : Axis, within (component b p) 1) ->
      (forall b : Axis, within (component b v) 1) ->
      (f0 <=? dt)%F = true -> (dt <=? f1)%F = true ->
      forall b : Axis,
        near (component b (position (obj1 s')))
          (component b (vadd p (vscale v dt))) (9 # 8388608)).
Proof.
  intros r s' p v.
  assert (Hpos : position (obj1 s')
                 = if (f1 - collisionTime r >=? f0)%F
                   then vadd (vadd p (vscale v (collisionTime r * dt)%F))
                          (vscale v ((f1 - collisionTime r) * dt)%F)
                   else vadd p (vscale v dt)).
  { subst s'. rewrite update_exec, respond_exec. fold r.
    destruct (f1 - collisionTime r >=? f0)%F; reflexivity. }
  assert (Hrange : finiteTick rotated boundsOf radians dt s ->
                   (f1 - collisionTime r >=? f0)%F = true ->
                   exists t : Q, collisionTime r = Fin t /\ 0 <= t /\ t <= 1).
  { intros (_ & _ & Hb1 & Hb2 & Hvel) Hbranch.
    assert (H : r = mk_Swept f2 f0 f0 f0
                \/ exists t : Q, collisionTime r = Fin t /\ 0 <= t /\ t <= 1).
    { subst r. unfold tickSweep.
      destruct (SweptAABB_finite_time _ _ _ (indeterminate (updates s))
                  Hb2 Hb1 Hvel) as [[_ H] | [_ H]]; [left | right]; exact H. }
    destruct H as [Hr | H]; [|exact H].
    rewrite Hr in Hbranch. discriminate Hbranch. }
  split.
  { subst s'. rewrite update_exec, respond_exec. fold r.
    destruct (f1 - collisionTime r >=? f0)%F; reflexivity. }
  split; [intros H; now rewrite Hpos, H|].
  split; [intros H; now rewrite Hpos, H|].
  split.
  - intros Htick Hv. pose proof Htick as ([Hdt Rdt] & Hp & _).
    rewrite Hv in Hpos |- *.
    split; [|now apply vadd_vscale_zero].
    rewrite Hpos.
    destruct (f1 - collisionTime r >=? f0)%F eqn:Hbranch;
      [|now apply vadd_vscale_zero].
    destruct (Hrange Htick eq_refl) as (t & Ht & H0 & H1).
    rewrite Ht in *.
    destruct dt as [|d| |]; cbn [finite] in Hdt; try contradiction.
    destruct (fsub_fraction t H0 H1) as (rem & -> & Hr0 & Hr1).
    rewrite (vadd_vscale_zero p (Fin t * Fin d)%F Hp)
      by now apply fmul_fraction.
    apply vadd_vscale_zero; [exact Hp | now apply fmul_fraction].
  - intros Htick Hp Hv Hd0 Hd1 b.
    destruct dt as [|d| |]; try discriminate.
    unfold f0 in Hd0. unfold f1 in Hd1. rewrite fle_Fin in Hd0, Hd1.
    pose proof (Hp b) as Hpb. pose proof (Hv b) as Hvb.
    assert (Hsingle : component b (vadd p (vscale v (Fin d)))
                      = (component b p + component b v * Fin d)%F)
      by (destruct b; reflexivity).
    rewrite Hpos, Hsingle.
    destruct (component b p) as [|pb| |] eqn:Ep; cbn [within] in Hpb;
      try contradiction.
    destruct (component b v) as [|vb| |] eqn:Ev; cbn [within] in Hvb;
      try contradiction.
    destruct (f1 - collisionTime r >=? f0)%F eqn:Hbranch.
    + destruct (Hrange Htick eq_refl) as (t & Ht & H0 & H1).
      rewrite Ht.
      assert (Hdouble :
               component b (vadd (vadd p (vscale v (Fin t * Fin d)%F))
                              (vscale v ((f1 - Fin t) * Fin d)%F))
               = ((component b p + component b v * (Fin t * Fin d))
                  + component b v * ((f1 - Fin t) * Fin d))%F)
        by (destruct b; reflexivity).
      rewrite Hdouble, Ep, Ev.
      now apply integration_near.
    + rewrite Hsingle, ?Ep, ?Ev.
      destruct (integration_finite pb vb d Hpb Hvb Hd0 Hd1) as (m & ->).
      apply near_refl; [exact I | discriminate].
Qed.

End Tick.
(* ================================================================== *)
(** ** The scheduler: [checkTime] *)

(** The numbers of [double] the scheduler works with. *)
Lemma physicsStep_value : physicsStep = Fin stepValue.
Proof. vm_compute. reflexivity. Qed.

Lemma stepValue_double : roundTo binary64 stepValue = Fin stepValue.
Proof. vm_compute. reflexivity. Qed.

Lemma quarter_value : double 0.25 = Fin (1 # 4).
Proof. vm_compute. reflexivity. Qed.

(** The error of a [double] operation with a result below 1/2 in
    magnitude. *)
Lemma round64_error (q : Q) :
  Qabs q < 1 # 2 ->
  exists r : Q,
    roundTo binary64 q = Fin r
    /\ Qabs (r - q) <= 1 # 36028797018963968
    /\ (0 <= q -> 0 <= r).
Proof.
  intros H.
  destruct (roundTo_error binary64 binary64_precision q (-2)) as (r & Hr & He);
    [exact H | reflexivity | reflexivity |].
  exists r. split; [exact Hr|]. split.
  - eapply Qle_trans; [exact He|]. vm_compute. discriminate.
  - intros Hq.
    destruct (roundTo_nonneg binary64 q Hq) as [E | (r' & E & Hr')];
      rewrite E in Hr; [discriminate | now injection Hr as <-].
Qed.

Section Scheduler.

Variable Orientation : Type.
Variable rotated : vec3 -> Orientation -> Orientation.
Variable boundsOf : Orientation -> vec3 -> AABB.
Variable radians : F -> F.
Variable indeterminate : nat -> vec3.

Local Abbreviation tick := (update rotated boundsOf radians indeterminate).
Local Abbreviation body := (loopBody rotated boundsOf radians indeterminate).
Local Abbreviation loop := (whileAccumulator rotated boundsOf radians indeterminate).
Local Abbreviation pass := (checkTime rotated boundsOf radians indeterminate).
Local Abbreviation turn := (mainLoopTurn rotated boundsOf radians indeterminate).
Local Abbreviation Run := (Reachable rotated boundsOf radians indeterminate).
Local Abbreviation State' := (State Orientation).

(** [update] leaves the scheduler's globals alone and counts itself. *)
Lemma update_globals (dt : F) (s : State') :
  let s' := exec (tick dt) s in
  frame s' = frame s /\ time s' = time s /\ timebase s' = timebase s
  /\ accumulator s' = accumulator s /\ fps s' = fps s
  /\ FPSTime s' = FPSTime s /\ updates s' = S (updates s).
Proof.
  cbv zeta. rewrite update_exec, respond_exec.
  destruct (_ >=? _)%F;
    cbn [frame time timebase accumulator fps FPSTime updates];
    repeat split; reflexivity.
Qed.

Lemma loopBody_unfold (s : State') :
  body s
  = set_accumulator
      (dsub (accumulator (exec (tick (toFloat physicsStep)) s)) physicsStep)
      (exec (tick (toFloat physicsStep)) s).
Proof. reflexivity. Qed.

Lemma set_accumulator_fields (a : F) (s : State') :
  accumulator (set_accumulator a s) = a
  /\ updates (set_accumulator a s) = updates s.
Proof. split; reflexivity. Qed.

(** Each iteration subtracts [physicsStep] from the accumulator, in
    [double] arithmetic. *)
Lemma loopBody_accumulator (s : State') :
  accumulator (body s) = dsub (accumulator s) physicsStep.
Proof.
  rewrite loopBody_unfold.
  rewrite (proj1 (set_accumulator_fields _ _)).
  destruct (update_globals (toFloat physicsStep) s) as (_ & _ & _ & H & _).
  rewrite H. reflexivity.
Qed.

Lemma loopBody_updates (s : State') : updates (body s) = S (updates s).
Proof.
  rewrite loopBody_unfold.
  rewrite (proj2 (set_accumulator_fields _ _)).
  destruct (update_globals (toFloat physicsStep) s) as (_ & _ & _ & _ & _ & _ & H).
  rewrite H. reflexivity.
Qed.

Lemma iter_loopBody_updates (n : nat) (s : State') :
  updates (Nat.iter n body s) = (updates s + n)%nat.
Proof.
  induction n as [|n IH].
  - cbn. lia.
  - rewrite Nat.iter_succ, loopBody_updates, IH. lia.
Qed.

(** One subtraction: with at least one step and less than 1/2 in the
    accumulator, the difference is not negative and off the exact one by at
    most 2^-55. *)
Lemma step_subtraction (a : Q) :
  stepValue <= a -> a < 1 # 2 ->
  exists a' : Q,
    dsub (Fin a) physicsStep = Fin a'
    /\ 0 <= a'
    /\ Qabs (a' - (a - stepValue)) <= 1 # 36028797018963968.
Proof.
  intros Hlo Hhi. rewrite physicsStep_value.
  cbn [dsub sub add fopp]. unfold stepValue in *.
  destruct (round64_error
              (a + - (3458764513820541 # 288230376151711744)))
    as (a' & -> & He & H0); [apply Qabs_case; intros _; lra|].
  exists a'. split; [reflexivity|]. split; [apply H0; lra|].
  apply Qabs_bound in He. apply Qabs_bound. lra.
Qed.

Lemma loop_test (a : Q) :
  (Fin a >=? physicsStep)%F = true <-> stepValue <= a.
Proof. rewrite physicsStep_value. unfold fge. apply fle_Fin. Qed.

Lemma loop_test_false (a : Q) :
  (Fin a >=? physicsStep)%F = false <-> a < stepValue.
Proof.
  rewrite <- not_true_iff_false, loop_test. split.
  - apply Qnot_le_lt.
  - intros H1 H2. apply (Qlt_not_le _ _ H1 H2).
Qed.

(** The loop runs its body as long as a whole step is left (as the
    subtractions of [double] leave it), at most [k] times when the
    accumulator starts below [k + 1] steps less the errors, and exits with
    less than one step; [n + 1] units of fuel are enough for [n] runs. *)
Lemma whileAccumulator_run (k : nat) :
  forall (s : State') (a : Q),
    accumulator s = Fin a ->
    0 <= a -> a < 1 # 2 ->
    a < stepValue + inject_Z (Z.of_nat k) * (1199 # 100000) ->
    exists (n : nat) (a' : Q),
      (n <= k)%nat
      /\ (forall fuel : nat, (n < fuel)%nat -> loop fuel s = Some (Nat.iter n body s))
      /\ accumulator (Nat.iter n body s) = Fin a'
      /\ 0 <= a' /\ a' < stepValue
      /\ Qabs (a' - (a - inject_Z (Z.of_nat n) * stepValue))
         <= inject_Z (Z.of_nat n) * (1 # 36028797018963968)
      /\ (forall j : nat, (j < n)%nat ->
            (accumulator (Nat.iter j body s) >=? physicsStep)%F = true).
Proof.
  induction k as [|k IH]; intros s a Hs H0 H1 Hk.
  - exists O, a. change (inject_Z (Z.of_nat 0)) with 0 in *.
    assert (Ha : a < stepValue) by lra.
    split; [lia|]. split.
    { intros [|fuel] Hf; [lia|]. cbn [whileAccumulator Nat.iter nat_rect].
      rewrite Hs, (proj2 (loop_test_false a) Ha). reflexivity. }
    split; [exact Hs|]. split; [exact H0|]. split; [exact Ha|]. split.
    { apply Qabs_bound. lra. }
    intros j Hj. lia.
  - destruct (Qlt_le_dec a stepValue) as [Ha | Ha].
    + exists O, a. change (inject_Z (Z.of_nat 0)) with 0.
      split; [lia|]. split.
      { intros [|fuel] Hf; [lia|]. cbn [whileAccumulator Nat.iter nat_rect].
        rewrite Hs, (proj2 (loop_test_false a) Ha). reflexivity. }
      split; [exact Hs|]. split; [exact H0|]. split; [exact Ha|]. split.
      { apply Qabs_bound. lra. }
      intros j Hj. lia.
    + destruct (step_subtraction a Ha H1) as (b & Hb & Hb0 & Eb).
      assert (Hsb : accumulator (body s) = Fin b)
        by now rewrite loopBody_accumulator, Hs.
      apply Qabs_bound in Eb.
      rewrite Nat2Z.inj_succ in Hk. unfold Z.succ in Hk.
      rewrite inject_Z_plus in Hk. change (inject_Z 1) with 1 in Hk.
      unfold stepValue in *.
      destruct (IH (body s) b Hsb Hb0) as (n & a' & Hn & Hrun & Ha' & Ha0 & Ha1 & Ea & Hj);
        [lra | lra |].
      exists (S n), a'. split; [lia|]. split.
      { intros [|fuel] Hf; [lia|]. cbn [whileAccumulator].
        rewrite Hs, (proj2 (loop_test a) Ha), Nat.iter_succ_r.
        apply Hrun. lia. }
      rewrite Nat.iter_succ_r.
      split; [exact Ha'|]. split; [exact Ha0|]. split; [exact Ha1|]. split.
      { rewrite Nat2Z.inj_succ. unfold Z.succ.
        rewrite inject_Z_plus. change (inject_Z 1) with 1.
        apply Qabs_bound in Ea. apply Qabs_bound.
        set (N := inject_Z (Z.of_nat n)) in *. clearbody N. lra. }
      intros [|j] Hlt.
      * cbn [Nat.iter nat_rect]. rewrite Hs. now apply loop_test.
      * rewrite Nat.iter_succ_r. apply Hj. lia.
Qed.

(** Whenever the loop exits, less than one step is left in the accumulator,
    and nothing is left below zero. *)
Lemma whileAccumulator_exit (fuel : nat) :
  forall (s s' : State') (a : Q),
    loop fuel s = Some s' ->
    accumulator s = Fin a -> 0 <= a -> a < 1 # 2 ->
    exists a' : Q, accumulator s' = Fin a' /\ 0 <= a' /\ a' < stepValue.
Proof.
  induction fuel as [|fuel IH]; intros s s' a H Hs H0 H1; [discriminate|].
  cbn [whileAccumulator] in H. rewrite Hs in H.
  destruct (Fin a >=? physicsStep)%F eqn:E.
  - apply loop_test in E.
    destruct (step_subtraction a E H1) as (b & Hb & Hb0 & Eb).
    apply Qabs_bound in Eb. unfold stepValue in *.
    apply (IH _ _ b H); [now rewrite loopBody_accumulator, Hs | exact Hb0 | lra].
  - injection H as <-. apply loop_test_false in E. exists a. auto.
Qed.

Lemma sampleFPS_accumulator (s : State') :
  accumulator (sampleFPS s) = accumulator s
  /\ updates (sampleFPS s) = updates s
  /\ time (sampleFPS s) = time s.
Proof.
  unfold sampleFPS. destruct (_ >? _)%F; repeat split; reflexivity.
Qed.

Lemma beforeLoop_accumulator (dt : F) (s : State') :
  accumulator (beforeLoop dt s)
  = dadd (accumulator s) (if (dt >? double 0.25)%F then double 0.25 else dt)
  /\ updates (beforeLoop dt s) = updates s.
Proof.
  unfold beforeLoop. cbn [set_accumulator set_timebase accumulator updates].
  destruct (sampleFPS_accumulator s) as (-> & -> & _). split; reflexivity.
Qed.

(** What an acting pass adds to the accumulator: more than one step and at
    most 0.25. *)
Lemma clamped_value (dt : F) :
  (dt >? physicsStep)%F = true ->
  exists c : Q,
    (if (dt >? double 0.25)%F then double 0.25 else dt) = Fin c
    /\ stepValue < c /\ c <= 1 # 4.
Proof.
  rewrite physicsStep_value, quarter_value. unfold fgt, stepValue.
  destruct dt as [|d| |]; try discriminate.
  - cbn [flt]. intros H. q_props.
    destruct (Qlt_bool (1 # 4) d) eqn:E; q_props.
    + exists (1 # 4). split; [reflexivity | lra].
    + exists d. split; [reflexivity | lra].
  - intros _. exists (1 # 4). split; [reflexivity | lra].
Qed.

(** The accumulator with which an acting pass enters its loop. *)
Lemma entering_value (a c : Q) :
  0 <= a -> a < stepValue -> stepValue < c -> c <= 1 # 4 ->
  exists a0 : Q,
    dadd (Fin a) (Fin c) = Fin a0
    /\ stepValue <= a0
    /\ a0 <= a + c + (1 # 36028797018963968).
Proof.
  intros H0 H1 Hc0 Hc1. cbn [dadd add]. unfold stepValue in *.
  destruct (round64_error (a + c)) as (a0 & E & He & _);
    [apply Qabs_case; intros _; lra|].
  exists a0. split; [exact E|]. split.
  - assert (Hm : (3458764513820541 # 288230376151711744) <= a + c) by lra.
    apply (roundTo_mono binary64 binary64_precision) in Hm.
    fold stepValue in Hm. rewrite stepValue_double, E in Hm.
    now apply fle_Fin in Hm.
  - apply Qabs_bound in He. lra.
Qed.

(** The accumulator of every state of a run holds a number of
    [0, physicsStep). *)
Lemma Reachable_accumulator (s : State') :
  Run s ->
  exists a : Q, accumulator s = Fin a /\ 0 <= a /\ a < stepValue.
Proof.
  induction 1 as [o1 o2 | fuel now s s' _ IH Hturn].
  - exists 0. split; [reflexivity|]. unfold stepValue. split; lra.
  - unfold mainLoopTurn in Hturn.
    destruct (pass fuel now s) as [s1|] eqn:Hpass; [|discriminate].
    injection Hturn as <-. cbn [set_frame accumulator].
    unfold checkTime in Hpass. cbn [set_time time timebase] in Hpass.
    destruct (dsub now (timebase s) >? physicsStep)%F eqn:Hdt.
    + destruct IH as (a & Ha & H0 & H1).
      destruct (clamped_value _ Hdt) as (c & Hc & Hc0 & Hc1).
      destruct (entering_value a c H0 H1 Hc0 Hc1) as (a0 & E0 & Hlo & Hhi).
      apply (whileAccumulator_exit _ _ _ a0 Hpass).
      * destruct (beforeLoop_accumulator (dsub now (timebase s)) (set_time now s))
          as [-> _].
        cbn [set_time accumulator]. now rewrite Ha, Hc.
      * unfold stepValue in *. lra.
      * unfold stepValue in *. lra.
    + injection Hpass as <-. exact IH.
Qed.

(** The number of ticks of a pass against the number of whole steps in the
    accumulator. *)
Lemma whole_steps (a0 a' : Q) (n : nat) :
  0 <= a0 -> (n <= 21)%nat ->
  0 <= a' -> a' < stepValue ->
  Qabs (a' - (a0 - inject_Z (Z.of_nat n) * stepValue))
  <= inject_Z (Z.of_nat n) * (1 # 36028797018963968) ->
  (Qfloor (a0 / stepValue) - 1 <= Z.of_nat n <= Qfloor (a0 / stepValue) + 1)%Z.
Proof.
  intros H0 Hn Ha0 Ha1 He.
  set (q := a0 / stepValue).
  assert (Hq : a0 == q * stepValue) by (unfold q; field; discriminate).
  pose proof (Qfloor_le q) as Hlo.
  pose proof (Qlt_floor q) as Hhi.
  rewrite inject_Z_plus in Hhi. change (inject_Z 1) with 1 in Hhi.
  assert (HN : inject_Z (Z.of_nat n) <= 21).
  { change 21 with (inject_Z 21). rewrite <- Zle_Qle. lia. }
  assert (HN0 : 0 <= inject_Z (Z.of_nat n)).
  { change 0 with (inject_Z 0). rewrite <- Zle_Qle. lia. }
  apply Qabs_bound in He. unfold stepValue in *.
  set (N := inject_Z (Z.of_nat n)) in *.
  set (W := inject_Z (Qfloor q)) in *.
  assert (H1 : N < W + 2) by (clearbody N W q; lra).
  assert (H2 : W < N + 2) by (clearbody N W q; lra).
  subst N W.
  change 2 with (inject_Z 2) in H1, H2.
  rewrite <- inject_Z_plus, <- Zlt_Qlt in H1, H2. lia.
Qed.

(** C5, as amended: in every [checkTime] pass of a run that observes
    dt = now - timebase greater than [physicsStep], min(dt, 0.25) is added to
    the accumulator; then [update(physicsStep)] is invoked once per
    iteration of the loop, that is, as long as the accumulator holds at least
    one [physicsStep], which is subtracted (in [double] arithmetic) after
    each invocation.  The number of invocations is the number of whole
    [physicsStep]s contained in the accumulator up to one more or one less,
    since every subtraction rounds; the loop exits (any fuel above the number
    of invocations is enough) with 0 <= accumulator < physicsStep. *)
Theorem checkTime_accumulator (now : F) (s : State') :
  Run s ->
  let dt := dsub now (timebase s) in
  (dt >? physicsStep)%F = true ->
  let added := if (dt >? double 0.25)%F then double 0.25 else dt in
  let s0 := beforeLoop dt (set_time now s) in
  accumulator s0 = dadd (accumulator s) added
  /\ updates s0 = updates s
  /\ exists (n : nat) (a0 step : Q),
       accumulator s0 = Fin a0 /\ physicsStep = Fin step
       /\ (Qfloor (a0 / step) - 1 <= Z.of_nat n <= Qfloor (a0 / step) + 1)%Z
       /\ (forall fuel : nat,
             (n < fuel)%nat -> pass fuel now s = Some (Nat.iter n body s0))
       /\ updates (Nat.iter n body s0) = (updates s + n)%nat
       /\ (forall k : nat,
             (k < n)%nat ->
             (accumulator (Nat.iter k body s0) >=? physicsStep)%F = true
             /\ accumulator (Nat.iter (S k) body s0)
                = dsub (accumulator (Nat.iter k body s0)) physicsStep)
       /\ (accumulator (Nat.iter n body s0) >=? f0)%F = true
       /\ (accumulator (Nat.iter n body s0) <? physicsStep)%F = true.
Proof.
  intros Hrun dt Hdt added s0.
  destruct (Reachable_accumulator s Hrun) as (a & Ha & H0 & H1).
  destruct (beforeLoop_accumulator dt (set_time now s)) as [Hs0 Hu0].
  fold s0 in Hs0, Hu0. fold added in Hs0.
  cbn [set_time accumulator updates] in Hs0, Hu0.
  split; [exact Hs0|]. split; [exact Hu0|].
  destruct (clamped_value dt Hdt) as (c & Hc & Hc0 & Hc1). fold added in Hc.
  destruct (entering_value a c H0 H1 Hc0 Hc1) as (a0 & E0 & Hlo & Hhi).
  assert (Ha0 : accumulator s0 = Fin a0) by now rewrite Hs0, Ha, Hc.
  destruct (whileAccumulator_run 21 s0 a0 Ha0)
    as (n & a' & Hn & Hloop & Ha' & Hp0 & Hp1 & He & Hj);
    try (unfold stepValue in *; lra).
  { change (inject_Z (Z.of_nat 21)) with 21. unfold stepValue in *. lra. }
  exists n, a0, stepValue.
  split; [exact Ha0|]. split; [apply physicsStep_value|].
  split.
  { apply (whole_steps a0 a' n); try assumption. unfold stepValue in *. lra. }
  split.
  { intros fuel Hfuel. unfold checkTime. cbn [set_time time timebase].
    fold dt. rewrite Hdt. fold s0. now apply Hloop. }
  split; [rewrite iter_loopBody_updates, Hu0; reflexivity|].
  split.
  { intros k Hk. split; [now apply Hj|].
    rewrite Nat.iter_succ. apply loopBody_accumulator. }
  rewrite Ha', physicsStep_value. unfold fge.
  split; [now apply fle_Fin | now apply flt_Fin].
Qed.

End Scheduler.
(* ================================================================== *)
(** ** The theorems on the concrete scene *)

Lemma update_bounce_preserves_speed_witness :
  float_vec3 (velocity (obj2 approachState))
  /\ insideBoundary approachState
  /\ (f1 - collisionTime
             (tickSweep demoRotated demoBoundsOf demoRadians demoIndeterminate
                tickStep approachState) >=? f0)%F = true
  /\ norm (fun a => a)
       (velocity (obj2 (exec (demoUpdate tickStep) approachState)))
     = norm (fun a => a) (velocity (obj2 approachState)).
Proof.
  assert (Hfloat : float_vec3 (velocity (obj2 approachState)))
    by (vm_compute; repeat split; reflexivity).
  assert (Hin : insideBoundary approachState)
    by (intros [ | | ]; vm_compute; reflexivity).
  assert (Hbranch :
           (f1 - collisionTime
                   (tickSweep demoRotated demoBoundsOf demoRadians
                      demoIndeterminate tickStep approachState)
            >=? f0)%F = true) by (vm_compute; reflexivity).
  split; [exact Hfloat|]. split; [exact Hin|]. split; [exact Hbranch|].
  destruct (update_bounce_preserves_speed vec3 demoRotated demoBoundsOf demoRadians
              demoIndeterminate (fun a => a) tickStep approachState
              Hfloat Hin Hbranch) as (_ & _ & _ & H).
  exact H.
Defined.

Lemma driftState_finiteTick :
  finiteTick demoRotated demoBoundsOf demoRadians tickStep driftState.
Proof. vm_compute. repeat split; reflexivity. Qed.

(** In [driftState] the body [obj1] moves at velocity (1, 0.3, 0.7): the tick
    takes the collision branch, leaves the velocity as it was and the body
    within 9 * 2^-23 of where the single integration by [dt] would put it. *)
Lemma update_stationary_motion_witness :
  finiteTick demoRotated demoBoundsOf demoRadians tickStep driftState
  /\ (forall b : Axis, within (component b (position (obj1 driftState))) 1)
  /\ (forall b : Axis, within (component b (velocity (obj1 driftState))) 1)
  /\ (f0 <=? tickStep)%F = true /\ (tickStep <=? f1)%F = true
  /\ velocity (obj1 (exec (demoUpdate tickStep) driftState))
     = velocity (obj1 driftState)
  /\ forall b : Axis,
       near (component b (position (obj1 (exec (demoUpdate tickStep) driftState))))
         (component b (vadd (position (obj1 driftState))
                         (vscale (velocity (obj1 driftState)) tickStep)))
         (9 # 8388608).
Proof.
  assert (Hp : forall b : Axis,
               within (component b (position (obj1 driftState))) 1)
    by (intros [ | | ]; vm_compute; discriminate).
  assert (Hv : forall b : Axis,
               within (component b (velocity (obj1 driftState))) 1)
    by (intros [ | | ]; vm_compute; discriminate).
  assert (H0 : (f0 <=? tickStep)%F = true) by (vm_compute; reflexivity).
  assert (H1 : (tickStep <=? f1)%F = true) by (vm_compute; reflexivity).
  split; [exact driftState_finiteTick|].
  split; [exact Hp|]. split; [exact Hv|]. split; [exact H0|]. split; [exact H1|].
  destruct (update_stationary_motion vec3 demoRotated demoBoundsOf demoRadians
              demoIndeterminate tickStep driftState)
    as (Hvel & _ & _ & _ & H).
  split; [exact Hvel|].
  exact (H driftState_finiteTick Hp Hv H0 H1).
Defined.

(** C10 as stated fails for a body that moves: in [driftState] the tick
    takes the collision branch (at time 0.41666...), the velocity of [obj1]
    is untouched, and the two partial integrations leave [obj1] at a position
    whose y and z differ, in the last binary digit, from the ones the single
    integration by [dt] gives. *)
Lemma update_stationary_motion_counterexample :
  finiteTick demoRotated demoBoundsOf demoRadians tickStep driftState
  /\ (f1 - collisionTime
             (tickSweep demoRotated demoBoundsOf demoRadians demoIndeterminate
                tickStep driftState) >=? f0)%F = true
  /\ velocity (obj1 (exec (demoUpdate tickStep) driftState))
     = velocity (obj1 driftState)
  /\ ~ veq (position (obj1 (exec (demoUpdate tickStep) driftState)))
          (vadd (position (obj1 driftState))
             (vscale (velocity (obj1 driftState)) tickStep)).
Proof.
  split; [exact driftState_finiteTick|].
  split; [vm_compute; reflexivity|]. split; [vm_compute; reflexivity|].
  vm_compute. intros (_ & H & _). discriminate H.
Qed.

Lemma checkTime_accumulator_witness :
  Reachable demoRotated demoBoundsOf demoRadians demoIndeterminate approachState
  /\ (dsub (double 0.1) (timebase approachState) >? physicsStep)%F = true
  /\ exists n : nat,
       demoCheckTime 22 (double 0.1) approachState
       = Some (Nat.iter n
                 (loopBody demoRotated demoBoundsOf demoRadians demoIndeterminate)
                 (beforeLoop (dsub (double 0.1) (timebase approachState))
                    (set_time (double 0.1) approachState)))
       /\ (n <= 21)%nat.
Proof.
  assert (Hrun : Reachable demoRotated demoBoundsOf demoRadians
                   demoIndeterminate approachState)
    by apply Reachable_initial.
  assert (Hdt : (dsub (double 0.1) (timebase approachState) >? physicsStep)%F
                = true) by (vm_compute; reflexivity).
  split; [exact Hrun|]. split; [exact Hdt|].
  destruct (checkTime_accumulator vec3 demoRotated demoBoundsOf demoRadians
              demoIndeterminate (double 0.1) approachState Hrun Hdt)
    as (_ & _ & n & a0 & step & Ha0 & Hstep & Hn & Hpass & _).
  assert (Hfloor : Qfloor (a0 / step) = 8%Z).
  { rewrite physicsStep_value in Hstep. injection Hstep as <-.
    vm_compute in Ha0. injection Ha0 as <-. vm_compute. reflexivity. }
  rewrite Hfloor in Hn.
  exists n. split; [apply Hpass; lia | lia].
Defined.

(** C5 as stated fails: the pass of [approachState] at clock reading 0.06
    enters its loop with 0.06 in the accumulator, which holds four whole
    steps of 0.012 (as numbers of [double], 0.06 is a little less than five
    times 0.012), and [update] is invoked five times: the four subtractions
    round up to a little more than one step. *)
Lemma checkTime_accumulator_counterexample :
  (dsub (double 0.06) (timebase approachState) >? physicsStep)%F = true
  /\ exists a0 step : Q,
       accumulator (beforeLoop (dsub (double 0.06) (timebase approachState))
                      (set_time (double 0.06) approachState)) = Fin a0
       /\ physicsStep = Fin step
       /\ Qfloor (a0 / step) = 4%Z
       /\ option_map updates (demoCheckTime 22 (double 0.06) approachState)
          = Some 5%nat.
Proof.
  split; [vm_compute; reflexivity|].
  eexists. eexists.
  split; [vm_compute; reflexivity|].
  split; [vm_compute; reflexivity|].
  split; vm_compute; reflexivity.
Qed.

(** C8 as stated fails: with the moving body beyond the boundary in x, the
    boundary reflection (the [SetVelocity] call) is made before the rotations
    and the recomputation of the boxes, not after them. *)
Lemma update_call_order_counterexample :
  (fabsf (x (position (obj2 outsideState))) >? x boundary)%F = true
  /\ calls (exec (demoUpdate tickStep) outsideState) = outsideCalls
  /\ listedOrder (calls (exec (demoUpdate tickStep) outsideState))
     = false
  /\ sourceOrder (calls (exec (demoUpdate tickStep) outsideState))
     = true.
Proof. repeat split; vm_compute; reflexivity. Qed.

(* ================================================================== *)
(** ** [TestAABB] *)

Lemma TestAABB_separated (A B : AABB) :
  TestAABB A B
  = negb (separated AxisX A B || separated AxisY A B || separated AxisZ A B).
Proof.
  unfold TestAABB, separated. cbn [component].
  destruct (_ || _); [reflexivity|].
  destruct (_ || _); [reflexivity|].
  destruct (_ || _); reflexivity.
Qed.

Lemma TestAABB_true_iff (A B : AABB) :
  TestAABB A B = true <-> forall a : Axis, separated a A B = false.
Proof.
  rewrite TestAABB_separated, negb_true_iff, !orb_false_iff. split.
  - intros [[Hx Hy] Hz] [ | | ]; assumption.
  - intros H. repeat split; apply H.
Qed.

(** X1: [TestAABB] does not depend on the order of its two boxes. *)
Theorem TestAABB_symmetric (A B : AABB) : TestAABB A B = TestAABB B A.
Proof.
  rewrite !TestAABB_separated. unfold separated, fgt. cbn [component].
  f_equal. f_equal; [f_equal|]; apply orb_comm.
Qed.

Lemma fle_true (a b : F) :
  (a <=? b)%F = true ->
  match a, b with
  | NaN, _ | _, NaN => False
  | NegInf, _ => True
  | _, PosInf => True
  | Fin p, Fin q => p <= q
  | _, _ => False
  end.
Proof.
  unfold fle. destruct a, b; cbn; try discriminate; try tauto.
  intros H. apply orb_true_iff in H. destruct H; q_props; lra.
Qed.

Lemma flt_Fin_false (p q : Q) : (Fin p <? Fin q)%F = false <-> q <= p.
Proof. apply Qlt_bool_false. Qed.

(** Destructs the floats that a hypothesis says are finite. *)
Ltac finite_inputs :=
  repeat match goal with
    | H : finite_AABB ?b |- _ =>
        destruct b; unfold finite_AABB in H; cbn [min max] in H; destruct H as [? ?]
    | H : finite_vec3 ?v |- _ =>
        destruct v; unfold finite_vec3 in H; cbn [x y z] in H;
        destruct H as (? & ? & ?)
    | H : finite ?a |- _ =>
        destruct a; cbn [finite] in H; try contradiction; clear H
    end.

(** X2: two finite, well-formed boxes pass [TestAABB] exactly when they have
    a point in common (faces included, so boxes that only touch pass). *)
Theorem TestAABB_common_point (A B : AABB) :
  finite_AABB A -> finite_AABB B -> wellFormed A -> wellFormed B ->
  (TestAABB A B = true <-> exists p : vec3, inside p A /\ inside p B).
Proof.
  intros HA HB WA WB. rewrite TestAABB_true_iff.
  finite_inputs.
  assert (Ax := WA AxisX). assert (Ay := WA AxisY). assert (Az := WA AxisZ).
  assert (Bx := WB AxisX). assert (By := WB AxisY). assert (Bz := WB AxisZ).
  cbn [component min max x y z] in *.
  rewrite fle_Fin in Ax, Ay, Az, Bx, By, Bz.
  split.
  - intros H.
    assert (Hx := H AxisX). assert (Hy := H AxisY). assert (Hz := H AxisZ).
    unfold separated, fgt in Hx, Hy, Hz. cbn [component min max x y z] in *.
    apply orb_false_elim in Hx, Hy, Hz.
    destruct Hx as [Hx1 Hx2], Hy as [Hy1 Hy2], Hz as [Hz1 Hz2].
    rewrite flt_Fin_false in *.
    match goal with
    | |- exists p, inside p (mk_AABB (mk_vec3 (Fin ?a1) (Fin ?a2) (Fin ?a3)) _)
                   /\ inside p (mk_AABB (mk_vec3 (Fin ?b1) (Fin ?b2) (Fin ?b3)) _) =>
        exists (mk_vec3 (Fin (if Qlt_bool a1 b1 then b1 else a1))
                        (Fin (if Qlt_bool a2 b2 then b2 else a2))
                        (Fin (if Qlt_bool a3 b3 then b3 else a3)))
    end.
    split; intros [ | | ]; cbn [component min max x y z]; rewrite !fle_Fin;
      match goal with
      | |- context [Qlt_bool ?u ?v] => destruct (Qlt_bool u v) eqn:E
      end; q_props; split; lra.
  - intros (p & Hp1 & Hp2) a.
    pose proof (Hp1 a) as [H1 H2]. pose proof (Hp2 a) as [H3 H4].
    unfold separated, fgt.
    destruct a; cbn [component min max x y z] in *;
      destruct p as [p1 p2 p3]; cbn [x y z] in *;
      apply fle_true in H1, H2, H3, H4;
      match goal with
      | H : match ?q with _ => _ end |- _ => destruct q; try contradiction
      end;
      apply orb_false_iff; rewrite !flt_Fin_false; split; lra.
Qed.
(* ================================================================== *)
(** ** The time [SweptAABB] returns *)

Lemma remaining_nonneg (t : F) :
  (f0 <=? t)%F = true -> (t <=? f1)%F = true -> (f1 - t >=? f0)%F = true.
Proof.
  intros H0 H1. destruct (fle_finite_between t 0 1 H0 H1) as (q & -> & Hq0 & Hq1).
  destruct (fsub_fraction q Hq0 Hq1) as (r & -> & Hr0 & _).
  unfold fge. now apply fle_Fin.
Qed.

(** X6: on finite inputs the time [SweptAABB] returns is either the sentinel
    2.0 or a number of [0, 1] (also when two axes tie), and the test
    [remainingTime >= 0] of [update] (line 317) succeeds exactly when
    [SweptAABB] took its collision branch. *)
Theorem SweptAABB_time_range (box1 box2 : AABB) (vel1 normal : vec3) :
  finite_AABB box1 -> finite_AABB box2 -> finite_vec3 vel1 ->
  let r := SweptAABB box1 box2 vel1 normal in
  (collisionTime r = f2
   \/ exists t : Q, collisionTime r = Fin t /\ 0 <= t /\ t <= 1)
  /\ (f1 - collisionTime r >=? f0)%F
     = negb (noCollision (xAxis box1 box2 vel1) (yAxis box1 box2 vel1)
               (zAxis box1 box2 vel1)).
Proof.
  intros H1 H2 H3 r.
  destruct (SweptAABB_finite_time box1 box2 vel1 normal H1 H2 H3)
    as [[Hno Hr] | [Hno (t & Ht & Ht0 & Ht1)]]; fold r in Hr || fold r in Ht;
    rewrite Hno; cbn [negb].
  - rewrite Hr. split; [left; reflexivity|]. vm_compute. reflexivity.
  - split; [right; exists t; auto|]. rewrite Ht.
    apply remaining_nonneg; apply fle_Fin; assumption.
Qed.
(* ================================================================== *)
(** ** Further properties of a tick *)

(** The unit normals of [SweptAABB] pass the test against epsilon, zero does
    not: bouncing along the normal of axis [a] flips the component along
    [a] and nothing else. *)
Lemma epsilon_tests :
  (fabsf f1 >? epsilon)%F = true /\ (fabsf fm1 >? epsilon)%F = true
  /\ (fabsf f0 >? epsilon)%F = false.
Proof. repeat split; vm_compute; reflexivity. Qed.

Lemma bounced_axisVector (a : Axis) (sign : bool) (v : vec3) :
  let n := axisVector a (if sign then f1 else fm1) in
  bounced v (x n) (y n) (z n) = flipAxis a v.
Proof.
  destruct epsilon_tests as (E1 & Em1 & E0).
  destruct a, sign; cbv zeta; unfold bounced, flipAxis;
    cbn [axisVector x y z]; rewrite ?E1, ?Em1, ?E0; reflexivity.
Qed.

(** The result of [SweptAABB] when an axis is strictly the latest. *)
Lemma SweptAABB_strict_result
  (box1 box2 : AABB) (vel1 normal : vec3) (a : Axis) :
  noCollision (xAxis box1 box2 vel1) (yAxis box1 box2 vel1)
    (zAxis box1 box2 vel1) = false ->
  strictlyLatest a (EntryTime (xAxis box1 box2 vel1))
    (EntryTime (yAxis box1 box2 vel1)) (EntryTime (zAxis box1 box2 vel1)) ->
  exists sign : bool,
    normalOf (SweptAABB box1 box2 vel1 normal)
    = axisVector a (if sign then f1 else fm1).
Proof.
  intros Hno Hlate.
  exists (DistanceEntry (axisSweep a box1 box2 vel1) <? f0)%F.
  unfold SweptAABB.
  rewrite Hno, (proj2 (cascade_strictlyLatest a _ _ _) Hlate).
  destruct a; cbn [axisSweep];
    match goal with
    | |- context [(DistanceEntry ?A <? f0)%F] =>
        destruct (DistanceEntry A <? f0)%F
    end; reflexivity.
Qed.

Section TickMore.

Variable Orientation : Type.
Variable rotated : vec3 -> Orientation -> Orientation.
Variable boundsOf : Orientation -> vec3 -> AABB.
Variable radians : F -> F.
Variable indeterminate : nat -> vec3.

Local Abbreviation tick := (update rotated boundsOf radians indeterminate).
Local Abbreviation State' := (State Orientation).
Local Abbreviation rotation' := (rotation radians).
Local Abbreviation sweep := (tickSweep rotated boundsOf radians indeterminate).

(** The two bodies after a tick. *)
Lemma update_bodies (dt : F) (s : State') :
  let r := sweep dt s in
  let s' := exec (tick dt) s in
  let o1 := recalculated rotated boundsOf radians (obj1 s) in
  let o2 := recalculated rotated boundsOf radians (obj2 s) in
  orientation (obj1 s') = orientation o1 /\ aabb (obj1 s') = aabb o1
  /\ orientation (obj2 s') = orientation o2 /\ aabb (obj2 s') = aabb o2
  /\ velocity (obj1 s') = velocity (obj1 s)
  /\ velocity (obj2 s')
     = (if (f1 - collisionTime r >=? f0)%F
        then bounced (tickVelocity s) (normalx r) (normaly r) (normalz r)
        else tickVelocity s).
Proof.
  cbv zeta. rewrite update_exec, respond_exec.
  destruct (_ >=? _)%F;
    cbn [obj1 obj2 orientation aabb velocity position recalculated];
    repeat split; reflexivity.
Qed.

(** X8: in a tick in which [SweptAABB] takes its collision branch and the
    axis [a] is strictly the latest to enter, the moving body leaves the tick
    with the velocity it had after the boundary check, its component along
    [a] multiplied by -1 and the other two components unchanged. *)
Theorem update_bounce_axis (dt : F) (s : State') (a : Axis) :
  let box1 := aabb (recalculated rotated boundsOf radians (obj2 s)) in
  let box2 := aabb (recalculated rotated boundsOf radians (obj1 s)) in
  let vel1 := vscale (tickVelocity s) dt in
  noCollision (xAxis box1 box2 vel1) (yAxis box1 box2 vel1)
    (zAxis box1 box2 vel1) = false ->
  strictlyLatest a (EntryTime (xAxis box1 box2 vel1))
    (EntryTime (yAxis box1 box2 vel1)) (EntryTime (zAxis box1 box2 vel1)) ->
  velocity (obj2 (exec (tick dt) s)) = flipAxis a (tickVelocity s).
Proof.
  intros box1 box2 vel1 Hno Hlate.
  destruct (update_bodies dt s) as (_ & _ & _ & _ & _ & Hv).
  rewrite Hv. clear Hv.
  unfold tickSweep. fold box1 box2 vel1.
  set (r := SweptAABB box1 box2 vel1 (indeterminate (updates s))).
  assert (Ht : collisionTime r
               = component a (mk_vec3 (EntryTime (xAxis box1 box2 vel1))
                                (EntryTime (yAxis box1 box2 vel1))
                                (EntryTime (zAxis box1 box2 vel1)))).
  { subst r. rewrite (SweptAABB_collision_time _ _ _ _ Hno).
    apply entryTime_strictlyLatest. exact Hlate. }
  destruct (strictlyLatest_in_range a _ _ _ Hno Hlate) as [H0 H1].
  cbv zeta in H0, H1. rewrite <- Ht in H0, H1.
  rewrite (remaining_nonneg _ H0 H1).
  destruct (SweptAABB_strict_result box1 box2 vel1
              (indeterminate (updates s)) a Hno Hlate) as (sign & Hn).
  fold r in Hn.
  change (normalx r) with (x (normalOf r)).
  change (normaly r) with (y (normalOf r)).
  change (normalz r) with (z (normalOf r)).
  rewrite Hn. apply bounced_axisVector.
Qed.

(** The velocities over one tick: some components of the moving body's
    velocity change sign, nothing else changes. *)
Lemma update_velocities (dt : F) (s : State') :
  let s' := exec (tick dt) s in
  float_vec3 (velocity (obj2 s)) ->
  flipped (velocity (obj2 s)) (velocity (obj2 s'))
  /\ velocity (obj1 s') = velocity (obj1 s).
Proof.
  cbv zeta. intros Hfloat.
  destruct (update_bodies dt s) as (_ & _ & _ & _ & Hv1 & Hv2).
  split; [|exact Hv1]. rewrite Hv2.
  pose proof (reflected_flipped (position (obj2 s)) _ Hfloat) as Hr.
  fold (tickVelocity s) in Hr.
  destruct (_ >=? _)%F; [|exact Hr].
  eapply flipped_trans; [exact Hr|].
  apply bounced_flipped. exact (flipped_float _ _ Hr Hfloat).
Qed.

(** X9: no tick changes the speed of the moving body (whose velocity holds
    numbers of [float]), whether the boundary check reflects, [SweptAABB]
    reports a collision, two axes tie, or none of these; and no tick changes
    the velocity of the stationary body. *)
Theorem update_preserves_speed (sqrt : F -> F) (dt : F) (s : State') :
  float_vec3 (velocity (obj2 s)) ->
  norm sqrt (velocity (obj2 (exec (tick dt) s)))
  = norm sqrt (velocity (obj2 s))
  /\ velocity (obj1 (exec (tick dt) s)) = velocity (obj1 s).
Proof.
  intros Hfloat. destruct (update_velocities dt s Hfloat) as [H2 H1].
  unfold norm. rewrite (flipped_dot _ _ H2). split; [reflexivity | exact H1].
Qed.

End TickMore.
(* ================================================================== *)
(** ** Further properties of the scheduler *)

(** Integers below [2 ^ precision] are numbers of the format. *)
Lemma roundTo_integer (fmt : Format) (n : Z) :
  (1 <= precision fmt)%Z -> (emin fmt <= 0)%Z -> (precision fmt <= emax fmt)%Z ->
  (0 <= n < 2 ^ precision fmt)%Z ->
  exists r : Q, roundTo fmt (inject_Z n) = Fin r /\ r == inject_Z n.
Proof.
  intros Hp Hemin Hemax [Hn0 Hn1].
  destruct (Z.eq_dec n 0) as [-> | Hnz].
  { exists 0. split; [now apply roundTo_zero | reflexivity]. }
  assert (Hpos : 0 < inject_Z n).
  { change 0 with (inject_Z 0). rewrite <- Zlt_Qlt. lia. }
  destruct (roundTo_positive fmt (inject_Z n) Hpos) as [-> Ha].
  set (a := Qred (inject_Z n)) in *.
  assert (Ea : a == inject_Z n) by apply Qred_correct.
  assert (Hlt : a < 2 ^ precision fmt).
  { rewrite Ea, <- pow2_inject by lia. now rewrite <- Zlt_Qlt. }
  assert (He : (ulpExponent fmt a <= 0)%Z).
  { unfold ulpExponent.
    pose proof (ilog2_le a (precision fmt - 1) Ha) as Hl.
    replace (precision fmt - 1 + 1)%Z with (precision fmt) in Hl by lia.
    specialize (Hl Hlt). lia. }
  assert (Hnear : nearest fmt a == inject_Z n).
  { unfold nearest. set (e := ulpExponent fmt a) in *.
    pose proof (pow2_pos e) as Pe.
    assert (Hs : a / 2 ^ e == inject_Z (n * 2 ^ (- e))).
    { rewrite inject_Z_mult, pow2_inject by lia.
      rewrite Qpower_opp, Ea. field. lra. }
    rewrite (rne_comp _ _ Hs), rne_inject.
    rewrite inject_Z_mult, pow2_inject by lia.
    rewrite Qpower_opp. field. lra. }
  destruct (roundPositive_cases fmt a) as [[_ Ho] | [-> _]].
  - exfalso.
    assert (H : 2 ^ precision fmt <= 2 ^ emax fmt) by now apply pow2_le.
    rewrite Hnear, <- Ea in Ho. lra.
  - eexists. split; [reflexivity|]. now rewrite Qred_correct.
Qed.

Lemma Qtrunc_bounds (r : Q) (n : Z) :
  0 <= r -> r <= inject_Z n -> (0 <= Qtrunc r <= n)%Z.
Proof.
  intros H0 Hn.
  assert (Htrunc : Qtrunc r = Qfloor r).
  { unfold Qtrunc, Qfloor. destruct r as [a b]. cbn [Qnum Qden].
    apply Z.quot_div_nonneg; [|reflexivity].
    unfold Qle in H0. cbn in H0. lia. }
  rewrite Htrunc. split.
  - change 0%Z with (Qfloor 0). now apply Qfloor_resp_le.
  - rewrite <- (Qfloor_Z n). now apply Qfloor_resp_le.
Qed.

(** The quotient of line 376, converted to [int]: between 0 and the number
    of frames. *)
Lemma fps_bounds (n : Z) (elapsed : F) :
  (0 <= n < 2 ^ 31)%Z ->
  (elapsed >? double 1.0)%F = true ->
  (0 <= doubleToInt (ddiv (intToDouble n) elapsed) <= n)%Z.
Proof.
  intros Hn Hlate. unfold intToDouble, double.
  destruct (roundTo_integer binary64 n) as (f & E & Ef);
    [discriminate | discriminate | discriminate | cbn; lia |].
  rewrite E.
  assert (Hf : 0 <= f).
  { rewrite Ef. change 0 with (inject_Z 0). rewrite <- Zle_Qle. lia. }
  change (double 1.0) with (Fin 1) in Hlate. unfold fgt in Hlate.
  destruct elapsed as [|q| |]; try discriminate.
  - apply flt_Fin in Hlate. cbn [ddiv div].
    assert (Hq : Qeq_bool q 0 = false) by (apply Qeq_bool_false; lra).
    rewrite Hq.
    assert (Hlo : 0 <= f / q) by (apply Qle_shift_div_l; lra).
    assert (Hhi : f / q <= f) by (apply Qle_shift_div_r; [lra | nra]).
    apply (roundTo_mono binary64 binary64_precision) in Hlo, Hhi.
    change (roundTo binary64 0) with (Fin 0) in Hlo.
    rewrite (roundTo_comp binary64 f (inject_Z n) Ef), E in Hhi.
    destruct (fle_finite_between _ _ _ Hlo Hhi) as (r & -> & Hr0 & Hr1).
    cbn [doubleToInt]. apply Qtrunc_bounds; [exact Hr0 | now rewrite <- Ef].
  - cbn. lia.
Qed.

Section SchedulerMore.

Variable Orientation : Type.
Variable rotated : vec3 -> Orientation -> Orientation.
Variable boundsOf : Orientation -> vec3 -> AABB.
Variable radians : F -> F.
Variable indeterminate : nat -> vec3.

Local Abbreviation tick := (update rotated boundsOf radians indeterminate).
Local Abbreviation body := (loopBody rotated boundsOf radians indeterminate).
Local Abbreviation loop := (whileAccumulator rotated boundsOf radians indeterminate).
Local Abbreviation pass := (checkTime rotated boundsOf radians indeterminate).
Local Abbreviation Run := (Reachable rotated boundsOf radians indeterminate).
Local Abbreviation State' := (State Orientation).

(** *** The FPS sample *)

(** X11: when more than one second has passed since the last sample, with a
    frame counter that is not negative, the FPS sample publishes
    frame / (time - FPSTime), computed in [double] and truncated: a number
    between 0 and the number of frames counted, in one call of
    [glfwSetWindowTitle]; it restarts the frame counter at 0 and remembers
    the time of the sample. *)
Theorem sampleFPS_sample (s : State') :
  (0 <= frame s < 2 ^ 31)%Z ->
  (dsub (time s) (FPSTime s) >? double 1.0)%F = true ->
  let s' := sampleFPS s in
  fps s' = doubleToInt (ddiv (intToDouble (frame s)) (dsub (time s) (FPSTime s)))
  /\ (0 <= fps s' <= frame s)%Z
  /\ frame s' = 0%Z
  /\ FPSTime s' = time s
  /\ calls s' = calls s ++ [Call_glfwSetWindowTitle (fps s')].
Proof.
  intros Hframe Hlate s'. subst s'. unfold sampleFPS. rewrite Hlate.
  cbn [log set_frame set_FPSTime set_fps fps frame FPSTime calls time].
  pose proof (fps_bounds (frame s) _ Hframe Hlate).
  repeat split; tauto || lia.
Qed.

(** *** The globals over a pass *)

Lemma set_accumulator_globals (a : F) (s : State') :
  frame (set_accumulator a s) = frame s
  /\ fps (set_accumulator a s) = fps s
  /\ timebase (set_accumulator a s) = timebase s
  /\ obj1 (set_accumulator a s) = obj1 s
  /\ obj2 (set_accumulator a s) = obj2 s.
Proof. repeat split; reflexivity. Qed.

Lemma beforeLoop_bodies (dt : F) (s : State') :
  obj1 (beforeLoop dt s) = obj1 s /\ obj2 (beforeLoop dt s) = obj2 s.
Proof.
  unfold beforeLoop. cbn [set_accumulator set_timebase obj1 obj2].
  unfold sampleFPS. destruct (_ >? _)%F; split; reflexivity.
Qed.

(** *** The number of ticks of a pass *)

(** X13: in a run, every pass of [checkTime] that observes more than
    [physicsStep] since the last acting pass invokes [update] at least once
    and, thanks to the clamp to 0.25, at most 21 times; its loop exits within
    22 iterations. *)
Theorem checkTime_tick_count (now : F) (s : State') :
  Run s ->
  (dsub now (timebase s) >? physicsStep)%F = true ->
  exists s' : State',
    pass 22 now s = Some s'
    /\ (updates s + 1 <= updates s')%nat
    /\ (updates s' <= updates s + 21)%nat.
Proof.
  intros Hrun Hdt.
  destruct (Reachable_accumulator Orientation rotated boundsOf radians
              indeterminate s Hrun) as (a & Ha & H0 & H1).
  set (dt := dsub now (timebase s)) in *.
  set (s0 := beforeLoop dt (set_time now s)).
  destruct (beforeLoop_accumulator Orientation dt (set_time now s)) as [Hs0 Hu0].
  fold s0 in Hs0, Hu0. cbn [set_time accumulator updates] in Hs0, Hu0.
  destruct (clamped_value dt Hdt) as (c & Hc & Hc0 & Hc1).
  destruct (entering_value a c H0 H1 Hc0 Hc1) as (a0 & E0 & Hlo & Hhi).
  assert (Ha0 : accumulator s0 = Fin a0) by now rewrite Hs0, Ha, Hc.
  destruct (whileAccumulator_run Orientation rotated boundsOf radians
              indeterminate 21 s0 a0 Ha0)
    as (n & a' & Hn & Hloop & Ha' & Hp0 & Hp1 & _ & _);
    try (unfold stepValue in *; lra).
  { change (inject_Z (Z.of_nat 21)) with 21. unfold stepValue in *. lra. }
  assert (Hn1 : (1 <= n)%nat).
  { destruct n as [|n]; [|lia]. exfalso.
    cbn [Nat.iter nat_rect] in Ha'. rewrite Ha0 in Ha'.
    injection Ha' as <-. lra. }
  exists (Nat.iter n body s0). split.
  { unfold checkTime. cbn [set_time time timebase]. fold dt. rewrite Hdt.
    fold s0. apply Hloop. lia. }
  rewrite iter_loopBody_updates, Hu0. lia.
Qed.

(** *** A pass that does not act *)

Lemma set_time_set_time (t t' : F) (s : State') :
  set_time t (set_time t' s) = set_time t s.
Proof. reflexivity. Qed.

(** X15: a pass of [checkTime] that does not observe more than
    [physicsStep] since the last acting pass only records the clock reading,
    whatever the fuel, and every later pass behaves as if that pass had not
    been made: the time it observed is not lost. *)
Theorem checkTime_idle (now : F) (s : State') :
  (dsub now (timebase s) >? physicsStep)%F = false ->
  (forall fuel : nat, pass fuel now s = Some (set_time now s))
  /\ (forall (fuel : nat) (later : F),
         pass fuel later (set_time now s) = pass fuel later s).
Proof.
  intros Hdt. split.
  - intros fuel. unfold checkTime. cbn [set_time time timebase].
    rewrite Hdt. reflexivity.
  - intros fuel later. unfold checkTime. cbv zeta.
    rewrite set_time_set_time. reflexivity.
Qed.

(** *** The velocities over a pass *)

Lemma loopBody_velocities (s : State') :
  float_vec3 (velocity (obj2 s)) ->
  flipped (velocity (obj2 s)) (velocity (obj2 (body s)))
  /\ velocity (obj1 (body s)) = velocity (obj1 s).
Proof.
  intros Hfloat. rewrite loopBody_unfold.
  destruct (set_accumulator_globals
              (dsub (accumulator (exec (tick (toFloat physicsStep)) s)) physicsStep)
              (exec (tick (toFloat physicsStep)) s)) as (_ & _ & _ & -> & ->).
  now apply (update_velocities Orientation rotated boundsOf radians indeterminate).
Qed.

Lemma whileAccumulator_velocities (fuel : nat) :
  forall s s' : State',
    loop fuel s = Some s' ->
    float_vec3 (velocity (obj2 s)) ->
    flipped (velocity (obj2 s)) (velocity (obj2 s'))
    /\ velocity (obj1 s') = velocity (obj1 s).
Proof.
  induction fuel as [|fuel IH]; intros s s' H Hfloat; [discriminate|].
  cbn [whileAccumulator] in H.
  destruct (_ >=? _)%F.
  - destruct (loopBody_velocities s Hfloat) as [Hf Hv].
    destruct (IH _ _ H (flipped_float _ _ Hf Hfloat)) as [Hf' ->].
    split; [exact (flipped_trans _ _ _ Hf Hf') | exact Hv].
  - injection H as <-. split; [apply flipped_refl | reflexivity].
Qed.

(** X16: a pass of [checkTime], however many ticks it runs, leaves the speed
    of the moving body (whose velocity holds numbers of [float]) and the
    velocity of the stationary body as they were. *)
Theorem checkTime_preserves_speed
  (sqrt : F -> F) (fuel : nat) (now : F) (s s' : State') :
  float_vec3 (velocity (obj2 s)) ->
  pass fuel now s = Some s' ->
  norm sqrt (velocity (obj2 s')) = norm sqrt (velocity (obj2 s))
  /\ velocity (obj1 s') = velocity (obj1 s).
Proof.
  intros Hfloat Hpass. unfold checkTime in Hpass. cbv zeta in Hpass.
  unfold norm.
  destruct (_ >? _)%F.
  - destruct (beforeLoop_bodies
                (dsub (time (set_time now s)) (timebase (set_time now s)))
                (set_time now s)) as [Ho1 Ho2].
    cbn [set_time obj1 obj2] in Ho1, Ho2.
    destruct (whileAccumulator_velocities _ _ _ Hpass) as [Hf Hv].
    { now rewrite Ho2. }
    rewrite Ho2 in Hf. rewrite Ho1 in Hv.
    rewrite (flipped_dot _ _ Hf). split; [reflexivity | exact Hv].
  - injection Hpass as <-. split; reflexivity.
Qed.

End SchedulerMore.

(* ================================================================== *)
(** ** The further properties on concrete inputs *)

Ltac finite_closed := unfold finite_AABB, finite_vec3; cbn; tauto.

Lemma TestAABB_common_point_witness :
  finite_AABB unitBox /\ finite_AABB overlappingBox
  /\ wellFormed unitBox /\ wellFormed overlappingBox
  /\ (TestAABB unitBox overlappingBox = true
      <-> exists p : vec3, inside p unitBox /\ inside p overlappingBox).
Proof.
  assert (H1 : finite_AABB unitBox) by finite_closed.
  assert (H2 : finite_AABB overlappingBox) by finite_closed.
  assert (W1 : wellFormed unitBox) by (intros [ | | ]; reflexivity).
  assert (W2 : wellFormed overlappingBox) by (intros [ | | ]; reflexivity).
  repeat (split; [assumption|]).
  exact (TestAABB_common_point unitBox overlappingBox H1 H2 W1 W2).
Defined.

Lemma SweptAABB_time_range_witness :
  finite_AABB unitBox /\ finite_AABB cornerBox /\ finite_vec3 cornerDisplacement
  /\ (f1 - collisionTime (SweptAABB unitBox cornerBox cornerDisplacement sevens)
      >=? f0)%F
     = negb (noCollision (xAxis unitBox cornerBox cornerDisplacement)
               (yAxis unitBox cornerBox cornerDisplacement)
               (zAxis unitBox cornerBox cornerDisplacement)).
Proof.
  assert (H1 : finite_AABB unitBox) by finite_closed.
  assert (H2 : finite_AABB cornerBox) by finite_closed.
  assert (H3 : finite_vec3 cornerDisplacement) by finite_closed.
  repeat (split; [assumption|]).
  exact (proj2 (SweptAABB_time_range unitBox cornerBox cornerDisplacement sevens
                  H1 H2 H3)).
Defined.

Lemma update_bounce_axis_witness :
  velocity (obj2 (exec (demoUpdate tickStep) approachState))
  = flipAxis AxisZ (tickVelocity approachState).
Proof.
  apply (update_bounce_axis vec3 demoRotated demoBoundsOf demoRadians
           demoIndeterminate tickStep approachState AxisZ).
  - vm_compute; reflexivity.
  - vm_compute; split; reflexivity.
Defined.

Lemma update_preserves_speed_witness :
  float_vec3 (velocity (obj2 approachState))
  /\ norm (fun a => a)
       (velocity (obj2 (exec (demoUpdate tickStep) approachState)))
     = norm (fun a => a) (velocity (obj2 approachState))
  /\ velocity (obj1 (exec (demoUpdate tickStep) approachState))
     = velocity (obj1 approachState).
Proof.
  assert (Hfloat : float_vec3 (velocity (obj2 approachState)))
    by (vm_compute; repeat split; reflexivity).
  split; [exact Hfloat|].
  exact (update_preserves_speed vec3 demoRotated demoBoundsOf demoRadians
           demoIndeterminate (fun a => a) tickStep approachState Hfloat).
Defined.

(** A state in which 1.6 seconds have passed since the last FPS sample and
    8 frames have been counted: the quotient of the two doubles is the double
    5.0, and the sample publishes 5. *)
Lemma sampleFPS_sample_witness :
  (0 <= frame (set_time (double 1.6) (set_frame 8 approachState)) < 2 ^ 31)%Z
  /\ (dsub (time (set_time (double 1.6) (set_frame 8 approachState)))
        (FPSTime (set_time (double 1.6) (set_frame 8 approachState)))
      >? double 1.0)%F = true
  /\ fps (sampleFPS (set_time (double 1.6) (set_frame 8 approachState))) = 5%Z
  /\ frame (sampleFPS (set_time (double 1.6) (set_frame 8 approachState))) = 0%Z.
Proof.
  assert (H1 : (0 <= frame (set_time (double 1.6) (set_frame 8 approachState))
                < 2 ^ 31)%Z) by (cbn; lia).
  assert (H2 : (dsub (time (set_time (double 1.6) (set_frame 8 approachState)))
                  (FPSTime (set_time (double 1.6) (set_frame 8 approachState)))
                >? double 1.0)%F = true) by (vm_compute; reflexivity).
  split; [exact H1|]. split; [exact H2|].
  destruct (sampleFPS_sample vec3
              (set_time (double 1.6) (set_frame 8 approachState)) H1 H2)
    as (H & _ & H' & _).
  split; [|exact H'].
  rewrite H. vm_compute. reflexivity.
Defined.

Lemma checkTime_tick_count_witness :
  Reachable demoRotated demoBoundsOf demoRadians demoIndeterminate approachState
  /\ (dsub (double 0.1) (timebase approachState) >? physicsStep)%F = true
  /\ exists s' : State vec3,
       demoCheckTime 22 (double 0.1) approachState = Some s'
       /\ (updates approachState + 1 <= updates s')%nat
       /\ (updates s' <= updates approachState + 21)%nat.
Proof.
  assert (H : Reachable demoRotated demoBoundsOf demoRadians demoIndeterminate
                approachState) by apply Reachable_initial.
  assert (Hdt : (dsub (double 0.1) (timebase approachState)
                 >? physicsStep)%F = true) by (vm_compute; reflexivity).
  split; [exact H|]. split; [exact Hdt|].
  exact (checkTime_tick_count vec3 demoRotated demoBoundsOf demoRadians
           demoIndeterminate (double 0.1) approachState H Hdt).
Defined.

Lemma checkTime_idle_witness :
  (dsub (double 0.01) (timebase approachState) >? physicsStep)%F = false
  /\ demoCheckTime 0 (double 0.01) approachState
     = Some (set_time (double 0.01) approachState)
  /\ demoCheckTime 22 (double 0.1) (set_time (double 0.01) approachState)
     = demoCheckTime 22 (double 0.1) approachState.
Proof.
  assert (H : (dsub (double 0.01) (timebase approachState)
               >? physicsStep)%F = false) by (vm_compute; reflexivity).
  split; [exact H|].
  destruct (checkTime_idle vec3 demoRotated demoBoundsOf demoRadians
              demoIndeterminate (double 0.01) approachState H) as [Ha Hb].
  split; [apply Ha | apply Hb].
Defined.

Lemma checkTime_preserves_speed_witness :
  float_vec3 (velocity (obj2 approachState))
  /\ exists s' : State vec3,
       demoCheckTime 2 (double 0.013) approachState = Some s'
       /\ norm (fun a => a) (velocity (obj2 s'))
          = norm (fun a => a) (velocity (obj2 approachState)).
Proof.
  assert (Hfloat : float_vec3 (velocity (obj2 approachState)))
    by (vm_compute; repeat split; reflexivity).
  split; [exact Hfloat|].
  pose proof (fun s' => checkTime_preserves_speed vec3 demoRotated demoBoundsOf
                demoRadians demoIndeterminate (fun a => a) 2 (double 0.013)
                approachState s' Hfloat) as H.
  unfold demoCheckTime.
  revert H.
  destruct (checkTime demoRotated demoBoundsOf demoRadians demoIndeterminate
              2 (double 0.013) approachState) as [s'|] eqn:E; intros H.
  - exists s'. split; [reflexivity|]. exact (proj1 (H s' eq_refl)).
  - vm_compute in E. discriminate E.
Defined.
